(** * Stackfish: the Codex gateway and the OpenAI OAuth session manager

    A shallow embedding of
      - [src/unnamed/part_000]                 ([callCodex], [llm]) and
      - [src/www/app/services/openaiOAuth.ts]  (credential store, refresh,
        status query, callback listener, authorization session),
    followed by the properties the specification states about them.

    Conventions.
      - A JavaScript string is the list of its UTF-16 code units ([Js.jsstring]).
      - [undefined] is [None]; the other values the code can meet are the
        values [JSON.parse] builds ([Json.json]).
      - What the JavaScript runtime supplies ([JSON.parse], [TextDecoder],
        [Buffer], the conversion of numbers) is gathered in the class
        [Runtime]; general statements quantify over it, the scenarios run on
        the instance [Reference.runtime].
      - Network, clock, disk and the random source are inputs of the
        functions that use them; what a function does to the outside world is
        returned as a list of [effect]s or as a new state.
      - After the scenarios come the request of [callCodex] ([messageText],
        [buildResponseInput]), the PKCE codes, the state token, the authorize
        URL and the bodies posted to the issuer, with the encodings of the
        runtime they rest on (base64, [URLSearchParams], SHA-256,
        [JSON.stringify]).
      - Left out: the headers and the body of the request of [callCodex],
        the two Together branches of [llm], the Next.js routes and the markup
        of the two pages. *)

From Stdlib Require Import List NArith ZArith String Ascii Bool Arith Lia.
From Stdlib Require Import Strings.Byte DecimalString.
Import ListNotations.
Open Scope string_scope.
Open Scope list_scope.
Set Warnings "-register-all".

(* ================================================================== *)
(** * Definitions                                                      *)
(* ================================================================== *)

(** ** JavaScript strings *)

Module Js.

Definition jsstring : Type := list N.

(** A literal of the source, read as code units. *)
Definition js (s : string) : jsstring :=
  map N_of_ascii (list_ascii_of_string s).

(** ['...'] literals of the source that contain a double quote are written
    with [`] in its place. *)
Definition jsq (s : string) : jsstring :=
  map (fun c => if N.eqb c 96 then 34%N else c) (js s).

Definition LF : N := 10.

Fixpoint eqb (a b : jsstring) : bool :=
  match a, b with
  | [], [] => true
  | x :: a', y :: b' => N.eqb x y && eqb a' b'
  | _, _ => false
  end.

(** [s.startsWith(p)] *)
Fixpoint startsWith (p s : jsstring) : bool :=
  match p, s with
  | [], _ => true
  | x :: p', y :: s' => N.eqb x y && startsWith p' s'
  | _ :: _, [] => false
  end.

(** [s.slice(n)] for [n >= 0]. *)
Definition slice (n : nat) (s : jsstring) : jsstring := skipn n s.

(** [WhiteSpace] and [LineTerminator] of ECMAScript: what [trim] strips. *)
Definition is_space (c : N) : bool :=
  existsb (N.eqb c)
    [9; 10; 11; 12; 13; 32; 160; 5760; 8232; 8233; 8239; 8287; 12288; 65279]%N
  || (N.leb 8192 c && N.leb c 8202).

Fixpoint trimStart (s : jsstring) : jsstring :=
  match s with
  | c :: s' => if is_space c then trimStart s' else s
  | [] => []
  end.

Definition trim (s : jsstring) : jsstring :=
  rev (trimStart (rev (trimStart s))).

(** [parts.join(sep)] *)
Fixpoint join (sep : jsstring) (parts : list jsstring) : jsstring :=
  match parts with
  | [] => []
  | [p] => p
  | p :: rest => p ++ sep ++ join sep rest
  end.

(** [s.split(sep)] for a non-empty separator: the pieces between the leftmost,
    non-overlapping occurrences of [sep].  [cur] is the piece being read,
    [skip] the number of code units of a matched separator still to pass. *)
Fixpoint split_go (sep s cur : jsstring) (skip : nat) : list jsstring :=
  match s with
  | [] => [cur]
  | c :: s' =>
      match skip with
      | S k => split_go sep s' cur k
      | O =>
          if startsWith sep s
          then cur :: split_go sep s' [] (Nat.pred (List.length sep))
          else split_go sep s' (cur ++ [c]) O
      end
  end.

Definition split (sep s : jsstring) : list jsstring := split_go sep s [] O.

(** [!s] is false exactly for the non-empty string. *)
Definition nonempty (s : jsstring) : bool :=
  match s with [] => false | _ :: _ => true end.

(** Decimal digits of a non-negative integer, as [String(n)] prints them. *)
Definition of_N (n : N) : jsstring :=
  js (NilEmpty.string_of_uint (N.to_uint n)).

(** Equality of strings is decidable. *)
Definition jsstring_dec : forall a b : jsstring, {a = b} + {a <> b} :=
  list_eq_dec N.eq_dec.

(** [cur] put before the first piece. *)
Definition cons_first (cur : jsstring) (pieces : list jsstring) : list jsstring :=
  match pieces with
  | [] => []
  | p :: ps => (cur ++ p) :: ps
  end.

End Js.

Import Js.

(** ** Values *)

Module Json.

(** The text of a number token; the runtime reads it as a binary64, and the
    model leaves that reading to the [Runtime]. *)
Definition number : Type := jsstring.

(** The values [JSON.parse] builds. *)
Inductive json : Type :=
| JNull
| JBool (b : bool)
| JNum (n : number)
| JStr (s : jsstring)
| JArr (items : list json)
| JObj (members : list (jsstring * json)).

(** Members are kept in the order of the text; a later member of the same
    name overwrites an earlier one. *)
Fixpoint lookup (key : jsstring) (members : list (jsstring * json)) : option json :=
  match members with
  | [] => None
  | (k, v) :: rest =>
      match lookup key rest with
      | Some v' => Some v'
      | None => if eqb k key then Some v else None
      end
  end.

(** [v?.key] for a key that is neither an index, nor [length], nor inherited
    from a prototype (the source reads [type], [delta], [text], [response],
    [output_text], [chatgpt_account_id], [organizations], [id] and the auth
    namespace): an object answers with its member, every other value with
    [undefined]. *)
Definition get (v : json) (key : jsstring) : option json :=
  match v with
  | JObj members => lookup key members
  | _ => None
  end.

(** [v?.[0]] *)
Definition get0 (v : json) : option json :=
  match v with
  | JArr (x :: _) => Some x
  | JStr (c :: _) => Some (JStr [c])
  | JObj members => lookup (js "0") members
  | _ => None
  end.

(** [typeof v === 'string'] *)
Definition as_string (v : option json) : option jsstring :=
  match v with
  | Some (JStr s) => Some s
  | _ => None
  end.

(** [v === 'literal'] *)
Definition is_string (lit : jsstring) (v : option json) : bool :=
  match v with
  | Some (JStr s) => eqb s lit
  | _ => false
  end.

End Json.

Import Json.

(** ** What the JavaScript runtime supplies *)

Class Runtime : Type := mkRuntime {
  (** [Boolean(n)] for a parsed number. *)
  number_truthy : number -> bool;
  (** [String(n)] for a parsed number. *)
  number_to_string : number -> jsstring;
  (** [JSON.parse(text)]; [None] when it throws. *)
  JSON_parse : jsstring -> option json;
  (** A [TextDecoder] between two calls of [decode(value, {stream: true})]:
      it reads one byte at a time, keeps what an unfinished character needs,
      and hands out the code units that are complete. *)
  decoder : Type;
  decoder_new : decoder;
  decoder_step : decoder -> byte -> decoder * jsstring;
  (** [Buffer.from(s, "base64url").toString()] *)
  base64url_toString : jsstring -> jsstring
}.

Section Coercions.
Context {rt : Runtime}.

(** [Boolean(v)] *)
Definition truthy (v : json) : bool :=
  match v with
  | JNull => false
  | JBool b => b
  | JNum n => number_truthy n
  | JStr s => nonempty s
  | JArr _ | JObj _ => true
  end.

(** [Boolean(v)] where [v] may be [undefined]. *)
Definition truthy_opt (v : option json) : bool :=
  match v with
  | Some v => truthy v
  | None => false
  end.

(** [String(v)]: arrays join their elements with a comma, [null] elements
    print as nothing, objects print as [[object Object]]. *)
Fixpoint to_string (v : json) : jsstring :=
  match v with
  | JNull => js "null"
  | JBool true => js "true"
  | JBool false => js "false"
  | JNum n => number_to_string n
  | JStr s => s
  | JArr items =>
      join (js ",")
        ((fix each (l : list json) : list jsstring :=
            match l with
            | [] => []
            | JNull :: l' => [] :: each l'
            | x :: l' => to_string x :: each l'
            end) items)
  | JObj _ => js "[object Object]"
  end.

(** [v + s] for a string [s]: the value is converted and the two are joined. *)
Definition plus_string (v : json) (s : jsstring) : json :=
  JStr (to_string v ++ s).

End Coercions.

(** ** The gateway: [callCodex] and [llm] ([src/unnamed/part_000]) *)

Module Gateway.

(** A thrown [Error & { status?: number }]. *)
Record JsError : Type := mkError {
  message : jsstring;
  status : option N
}.

(** What a call ends with: the value it returns or the error it throws. *)
Inductive outcome : Type :=
| Returned (v : json)
| Threw (e : JsError).

(** A response body read through [getReader()]: the values [read()] yields,
    in order, and then either [done] or a rejected read. *)
Record stream : Type := mkStream {
  chunks : list (list byte);
  broken : option JsError
}.

Record Response : Type := mkResponse {
  resp_status : N;
  (** [await response.text()] *)
  resp_text : jsstring + JsError;
  (** [response.body] *)
  resp_body : option stream
}.

(** [response.ok] *)
Definition ok (r : Response) : bool :=
  N.leb 200 (resp_status r) && N.leb (resp_status r) 299.

(** What [await fetch(...)] ends with. *)
Inductive fetched : Type :=
| FetchThrew (e : JsError)
| Fetched (r : Response).

Section Decode.
Context {rt : Runtime}.

(** [decoder.decode(value, { stream: true })] *)
Fixpoint decode (d : decoder) (value : list byte) : decoder * jsstring :=
  match value with
  | [] => (d, [])
  | b :: value' =>
      let '(d1, s1) := decoder_step d b in
      let '(d2, s2) := decode d1 value' in
      (d2, s1 ++ s2)
  end.

(** The three [if]s of the [try] (lines 127-135), in turn. *)

(** [if (event?.type === 'response.output_text.delta'
         && typeof event.delta === 'string') output += event.delta] *)
Definition append_delta (output event : json) : json :=
  if is_string (js "response.output_text.delta") (get event (js "type"))
  then
    match as_string (get event (js "delta")) with
    | Some delta => plus_string output delta
    | None => output
    end
  else output.

(** [if (!output && event?.type === 'response.output_text.done'
         && typeof event.text === 'string') output = event.text] *)
Definition take_done (output event : json) : json :=
  if negb (truthy output)
     && is_string (js "response.output_text.done") (get event (js "type"))
  then
    match as_string (get event (js "text")) with
    | Some text => JStr text
    | None => output
    end
  else output.

(** [event?.response?.output_text] *)
Definition response_output_text (event : json) : option json :=
  match get event (js "response") with
  | Some response => get response (js "output_text")
  | None => None
  end.

(** [if (!output && event?.response?.output_text)
         output = event.response.output_text] *)
Definition take_response (output event : json) : json :=
  if negb (truthy output) && truthy_opt (response_output_text event)
  then
    match response_output_text event with
    | Some output_text => output_text
    | None => output
    end
  else output.

(** What one parsed event does to [output]. *)
Definition on_event (output event : json) : json :=
  take_response (take_done (append_delta output event) event) event.

(** Lines 116-121: the payload of a block, [None] when it has no data
    line. *)
Definition data_of (part : jsstring) : option jsstring :=
  let lines := split [LF] part in
  let dataLines := filter (startsWith (js "data:")) lines in
  match dataLines with
  | [] => None
  | _ :: _ => Some (join [LF] (map (fun line => trim (slice 5 line)) dataLines))
  end.

(** The body of [for (const part of parts)] (lines 116-138). *)
Definition on_part (output : json) (part : jsstring) : json :=
  match data_of part with
  | None => output
  | Some data =>
      if negb (nonempty data) || eqb data (js "[DONE]")
      then output
      else
        match JSON_parse data with
        | Some event => on_event output event
        | None => output
        end
  end.

(** One turn of [while (true)] after a read that yielded [value]
    (lines 111-139): the new decoder, [buffer] and [output]. *)
Definition on_chunk (st : decoder * jsstring * json) (value : list byte)
  : decoder * jsstring * json :=
  let '(d, buffer, output) := st in
  let '(d, text) := decode d value in
  let buffer := buffer ++ text in
  let parts := split [LF; LF] buffer in
  let buffer := last parts [] in
  let parts := removelast parts in
  (d, buffer, fold_left on_part parts output).

(** The read loop (lines 101-142): [values] are what the reader yields before
    it reports [done] ([broken = None]) or rejects ([broken = Some e]). *)
Fixpoint read_loop (values : list (list byte)) (broken : option JsError)
    (st : decoder * jsstring * json) : outcome :=
  match values with
  | [] =>
      match broken with
      | Some e => Threw e
      | None => Returned (snd st)
      end
  | value :: rest => read_loop rest broken (on_chunk st value)
  end.

Definition read_stream (body : stream) : outcome :=
  read_loop (chunks body) (broken body) (decoder_new, [], JStr []).

(** [callCodex], from the answer of [fetch] on. *)
Definition callCodex (f : fetched) : outcome :=
  match f with
  | FetchThrew e => Threw e
  | Fetched response =>
      if negb (ok response)
      then
        match resp_text response with
        | inl text =>
            let code := of_N (resp_status response) in
            Threw (mkError
                     (if nonempty text then code ++ js " " ++ text else code)
                     (Some (resp_status response)))
        | inr e => Threw e
        end
      else
        match resp_body response with
        | None => Returned (JStr [])
        | Some body => read_stream body
        end
  end.

(** *** Words for the properties of the decoder *)

(** What the code reads off an event: the delta of an incremental event,
    the text of a terminal one. *)
Definition delta_of (event : json) : option jsstring :=
  if is_string (js "response.output_text.delta") (get event (js "type"))
  then as_string (get event (js "delta"))
  else None.

Definition done_of (event : json) : option jsstring :=
  if is_string (js "response.output_text.done") (get event (js "type"))
  then as_string (get event (js "text"))
  else None.

(** The output as the specification describes it, on a body taken whole:
    the text is cut at the blank lines, the piece after the last blank line
    is left aside, and the payloads of the blocks are folded in order. *)
Definition whole_body_output (body : list byte) : json :=
  let text := snd (decode decoder_new body) in
  fold_left on_part (removelast (split [LF; LF] text)) (JStr []).

(** The blocks the loop passes over. *)
Definition skipped (part : jsstring) : Prop :=
  data_of part = None
  \/ data_of part = Some []
  \/ data_of part = Some (js "[DONE]")
  \/ exists data, data_of part = Some data /\ JSON_parse data = None.

End Decode.

(** [Array.from(new Set(items))]: a [Set] keeps the first insertion of each
    value, in insertion order.  [seen] holds what was inserted so far. *)
Fixpoint set_from (seen items : list jsstring) : list jsstring :=
  match items with
  | [] => []
  | x :: rest =>
      if existsb (eqb x) seen
      then set_from seen rest
      else x :: set_from (seen ++ [x]) rest
  end.

Definition priority : list jsstring :=
  [ js "gpt-5.3-codex"; js "gpt-5.2-codex"; js "gpt-5.1-codex";
    js "gpt-5.1-codex-mini"; js "gpt-5.1-codex-max" ].

(** [fallbackModels] (lines 184-191). *)
Definition fallbackModels (model : jsstring) : list jsstring :=
  set_from [] (model :: priority).

(** [err.status && err.status !== 400 && err.status !== 429 &&
     err.status !== 500 && err.status !== 503] (line 201) *)
Definition fatal (err : JsError) : bool :=
  match status err with
  | None => false
  | Some s =>
      negb (N.eqb s 0) && negb (N.eqb s 400) && negb (N.eqb s 429)
      && negb (N.eqb s 500) && negb (N.eqb s 503)
  end.

(** [err.status === 400] (line 204) *)
Definition bad_request (err : JsError) : bool :=
  match status err with
  | Some s => N.eqb s 400
  | None => false
  end.

(** A run of the loops: how it ends and the candidates of the calls it made,
    in order. *)
Definition run : Type := outcome * list jsstring.

Definition called (candidate : jsstring) (r : run) : run :=
  (fst r, candidate :: snd r).

(** Calls made for [c]. *)
Definition calls_for (c : jsstring) (r : run) : nat :=
  count_occ jsstring_dec (snd r) c.

Section Llm.
Context {rt : Runtime}.

(** What the network answers: [fetch candidate n] is the answer to the call
    made for [candidate] after [n] earlier calls of this request. *)
Variable fetch : jsstring -> nat -> fetched.

(** The inner loop of lines 195-208 at the head of a turn for [candidate],
    with [attempt = 3 - remaining] and [n] calls made so far.  [next] is what the
    outer loop does once this loop is left by its condition or by [break]. *)
Fixpoint attempts (next : nat -> option JsError -> run) (candidate : jsstring)
    (remaining n : nat) (lastError : option JsError) {struct remaining} : run :=
  match remaining with
  | O => next n lastError
  | S remaining' =>
      called candidate
        match callCodex (fetch candidate n) with
        | Returned v => (Returned v, [])
        | Threw err =>
            if fatal err then (Threw err, [])
            else if bad_request err then next (S n) (Some err)
            else attempts next candidate remaining' (S n) (Some err)
        end
  end.

(** The outer loop of lines 194-209 and the [throw] of line 211. *)
Fixpoint candidates (cs : list jsstring) (n : nat) (lastError : option JsError)
    {struct cs} : run :=
  match cs with
  | [] =>
      match lastError with
      | Some e => (Threw e, [])
      | None => (Threw (mkError (js "Codex request failed") None), [])
      end
  | candidate :: rest => attempts (candidates rest) candidate 3 n lastError
  end.

(** The Codex branch of [llm] (lines 179-211), taken for every model but
    ['qwq-32b-preview'] and ['llama-3.3-70b']; [auth] is what
    [ensureOpenAIAuth()] returned. *)
Definition llm (A : Type) (auth : option A) (model : jsstring) : run :=
  match auth with
  | Some _ => candidates (fallbackModels model) 0 None
  | None =>
      (Threw (mkError
                (js "OpenAI OAuth is not connected. Connect ChatGPT subscription to use Codex models.")
                None), [])
  end.

(** *** Words for the properties of the loops *)

(** The loops at the head of a turn of the inner loop: [candidate] has
    [remaining] attempts to go and [rest] comes after it. *)
Definition resume (candidate : jsstring) (remaining : nat)
    (rest : list jsstring) (n : nat) (lastError : option JsError) : run :=
  attempts (candidates rest) candidate remaining n lastError.

(** Every call fails in a way that neither returns nor is fatal. *)
Definition all_fail : Prop :=
  forall c n, exists e, callCodex (fetch c n) = Threw e /\ fatal e = false.

(** What a run throws when it made no call, and whose error it throws when
    it made some. *)
Definition throws_last (n : nat) (lastError : option JsError) (r : run) : Prop :=
  match snd r with
  | [] =>
      fst r = Threw match lastError with
                    | Some e => e
                    | None => mkError (js "Codex request failed") None
                    end
  | _ :: calls =>
      exists e,
        fst r = Threw e
        /\ callCodex (fetch (List.last (snd r) []) (n + List.length calls)) = Threw e
  end.

End Llm.

End Gateway.

(** ** A reference runtime

    [JSON.parse] after ECMA-404 and the UTF-8 decoder of the Encoding
    Standard, so that the scenarios of the specification can be run. *)

Module Reference.

Definition is_ws (c : N) : bool := existsb (N.eqb c) [32; 9; 10; 13]%N.

Fixpoint skip_ws (s : jsstring) : jsstring :=
  match s with
  | c :: s' => if is_ws c then skip_ws s' else s
  | [] => []
  end.

Definition is_digit (c : N) : bool := N.leb 48 c && N.leb c 57.

(** The longest run of digits at the head of [s], and what follows it. *)
Fixpoint digits (s : jsstring) : jsstring * jsstring :=
  match s with
  | c :: s' =>
      if is_digit c
      then let '(ds, r) := digits s' in (c :: ds, r)
      else ([], s)
  | [] => ([], [])
  end.

Definition hex (c : N) : option N :=
  if is_digit c then Some (c - 48)%N
  else if N.leb 97 c && N.leb c 102 then Some (c - 87)%N
  else if N.leb 65 c && N.leb c 70 then Some (c - 55)%N
  else None.

Definition hex4 (a b c d : N) : option N :=
  match hex a, hex b, hex c, hex d with
  | Some a, Some b, Some c, Some d => Some (((a * 16 + b) * 16 + c) * 16 + d)%N
  | _, _, _, _ => None
  end.

(** The characters of a string token after its opening quote, up to the
    closing quote: [(contents, rest)]. *)
Fixpoint string_body (s : jsstring) : option (jsstring * jsstring) :=
  let more (c : N) (r : option (jsstring * jsstring)) :=
    match r with
    | Some (str, rest) => Some (c :: str, rest)
    | None => None
    end in
  match s with
  | [] => None
  | 34%N :: rest => Some ([], rest)
  | 92%N :: e :: s' =>
      if N.eqb e 117 then
        match s' with
        | a :: b :: c :: d :: s'' =>
            match hex4 a b c d with
            | Some u => more u (string_body s'')
            | None => None
            end
        | _ => None
        end
      else if N.eqb e 34 then more 34%N (string_body s')
      else if N.eqb e 92 then more 92%N (string_body s')
      else if N.eqb e 47 then more 47%N (string_body s')
      else if N.eqb e 98 then more 8%N (string_body s')
      else if N.eqb e 102 then more 12%N (string_body s')
      else if N.eqb e 110 then more 10%N (string_body s')
      else if N.eqb e 114 then more 13%N (string_body s')
      else if N.eqb e 116 then more 9%N (string_body s')
      else None
  | c :: s' =>
      if N.ltb c 32 || N.eqb c 92 then None else more c (string_body s')
  end.

(** A number token, returned as its text: an optional minus sign; either a
    single zero or a run of digits that does not start with zero; optionally
    a point and at least one digit; optionally [e] or [E], a sign and at
    least one digit. *)
Definition number_token (s : jsstring) : option (number * jsstring) :=
  let '(sign, s) :=
    match s with
    | 45%N :: t => ([45%N], t)
    | _ => ([], s)
    end in
  let int :=
    match s with
    | 48%N :: t => Some ([48%N], t)
    | _ => match digits s with
           | ([], _) => None
           | (ds, t) => Some (ds, t)
           end
    end in
  match int with
  | None => None
  | Some (int, s) =>
      let frac :=
        match s with
        | 46%N :: t =>
            match digits t with
            | ([], _) => None
            | (ds, t') => Some (46%N :: ds, t')
            end
        | _ => Some ([], s)
        end in
      match frac with
      | None => None
      | Some (frac, s) =>
          let exp :=
            match s with
            | e :: t =>
                if N.eqb e 101 || N.eqb e 69 then
                  let '(esign, t) :=
                    match t with
                    | x :: t' =>
                        if N.eqb x 43 || N.eqb x 45 then ([x], t') else ([], t)
                    | [] => ([], t)
                    end in
                  match digits t with
                  | ([], _) => None
                  | (ds, t') => Some (e :: esign ++ ds, t')
                  end
                else Some ([], s)
            | [] => Some ([], s)
            end in
          match exp with
          | None => None
          | Some (exp, s) => Some (sign ++ int ++ frac ++ exp, s)
          end
      end
  end.

(** [literal] at the head of [s]: what follows it. *)
Definition expect (literal s : jsstring) : option jsstring :=
  if startsWith literal s then Some (skipn (List.length literal) s) else None.

Fixpoint value (fuel : nat) (s : jsstring) {struct fuel} : option (json * jsstring) :=
  match fuel with
  | O => None
  | S fuel =>
      match skip_ws s with
      | [] => None
      | c :: r =>
          if N.eqb c 34 then
            match string_body r with
            | Some (str, r') => Some (JStr str, r')
            | None => None
            end
          else if N.eqb c 91 then
            match skip_ws r with
            | 93%N :: r' => Some (JArr [], r')
            | _ => elements fuel r []
            end
          else if N.eqb c 123 then
            match skip_ws r with
            | 125%N :: r' => Some (JObj [], r')
            | _ => members fuel r []
            end
          else if N.eqb c 110 then
            option_map (pair JNull) (expect (js "null") (c :: r))
          else if N.eqb c 116 then
            option_map (pair (JBool true)) (expect (js "true") (c :: r))
          else if N.eqb c 102 then
            option_map (pair (JBool false)) (expect (js "false") (c :: r))
          else
            match number_token (c :: r) with
            | Some (n, r') => Some (JNum n, r')
            | None => None
            end
      end
  end
with elements (fuel : nat) (s : jsstring) (acc : list json) {struct fuel}
  : option (json * jsstring) :=
  match fuel with
  | O => None
  | S fuel =>
      match value fuel s with
      | None => None
      | Some (v, r) =>
          match skip_ws r with
          | 44%N :: r' => elements fuel r' (acc ++ [v])
          | 93%N :: r' => Some (JArr (acc ++ [v]), r')
          | _ => None
          end
      end
  end
with members (fuel : nat) (s : jsstring) (acc : list (jsstring * json)) {struct fuel}
  : option (json * jsstring) :=
  match fuel with
  | O => None
  | S fuel =>
      match skip_ws s with
      | 34%N :: r =>
          match string_body r with
          | None => None
          | Some (key, r) =>
              match skip_ws r with
              | 58%N :: r =>
                  match value fuel r with
                  | None => None
                  | Some (v, r) =>
                      match skip_ws r with
                      | 44%N :: r' => members fuel r' (acc ++ [(key, v)])
                      | 125%N :: r' => Some (JObj (acc ++ [(key, v)]), r')
                      | _ => None
                      end
                  end
              | _ => None
              end
          end
      | _ => None
      end
  end.

(** [JSON.parse]: one value, white space around it, nothing else. *)
Definition parse (text : jsstring) : option json :=
  match value (2 * List.length text + 2) text with
  | Some (v, r) =>
      match skip_ws r with
      | [] => Some v
      | _ :: _ => None
      end
  | None => None
  end.

(** The UTF-8 decoder of the Encoding Standard, with the replacement of
    malformed input by U+FFFD and the removal of a leading byte order mark
    that [new TextDecoder()] asks for. *)
Record utf8 : Type := mkUtf8 {
  code_point : N;
  bytes_seen : N;
  bytes_needed : N;
  lower : N;
  upper : N;
  bom_seen : bool
}.

Definition utf8_new : utf8 := mkUtf8 0 0 0 128 191 false.

Definition reset (d : utf8) : utf8 := mkUtf8 0 0 0 128 191 (bom_seen d).

(** A code point leaves the decoder: the first one is dropped when it is
    U+FEFF; one beyond the basic plane is written as a surrogate pair. *)
Definition emit (d : utf8) (cp : N) : utf8 * jsstring :=
  let d' := mkUtf8 (code_point d) (bytes_seen d) (bytes_needed d)
                   (lower d) (upper d) true in
  if negb (bom_seen d) && N.eqb cp 65279 then (d', [])
  else if N.ltb cp 65536 then (d', [cp])
  else
    let c := (cp - 65536)%N in
    (d', [55296 + N.shiftr c 10; 56320 + N.land c 1023]%N).

(** A byte met while no character is unfinished. *)
Definition lead (d : utf8) (b : N) : utf8 * jsstring :=
  if N.leb b 127 then emit d b
  else if N.leb 194 b && N.leb b 223 then
    (mkUtf8 (N.land b 31) 0 1 128 191 (bom_seen d), [])
  else if N.leb 224 b && N.leb b 239 then
    (mkUtf8 (N.land b 15) 0 2
            (if N.eqb b 224 then 160 else 128)
            (if N.eqb b 237 then 159 else 191) (bom_seen d), [])
  else if N.leb 240 b && N.leb b 244 then
    (mkUtf8 (N.land b 7) 0 3
            (if N.eqb b 240 then 144 else 128)
            (if N.eqb b 244 then 143 else 191) (bom_seen d), [])
  else emit d 65533.

Definition utf8_feed (d : utf8) (b : N) : utf8 * jsstring :=
  if N.eqb (bytes_needed d) 0 then lead d b
  else if N.ltb b (lower d) || N.ltb (upper d) b then
    let '(d1, s1) := emit (reset d) 65533 in
    let '(d2, s2) := lead d1 b in
    (d2, s1 ++ s2)
  else
    let cp := N.lor (N.shiftl (code_point d) 6) (N.land b 63) in
    let seen := (bytes_seen d + 1)%N in
    if N.eqb seen (bytes_needed d) then emit (reset d) cp
    else (mkUtf8 cp seen (bytes_needed d) 128 191 (bom_seen d), []).

Definition utf8_step (d : utf8) (byte : byte) : utf8 * jsstring :=
  utf8_feed d (Byte.to_N byte).

(** [Buffer.from(s, "base64url")]: the characters of the alphabet (the
    URL-safe one and the standard one) up to the first [=], six bits each;
    other characters are passed over. *)
Definition sextet (c : N) : option N :=
  if N.leb 65 c && N.leb c 90 then Some (c - 65)%N
  else if N.leb 97 c && N.leb c 122 then Some (c - 71)%N
  else if N.leb 48 c && N.leb c 57 then Some (c + 4)%N
  else if N.eqb c 45 || N.eqb c 43 then Some 62%N
  else if N.eqb c 95 || N.eqb c 47 then Some 63%N
  else None.

Fixpoint sextets (s : jsstring) : list N :=
  match s with
  | [] => []
  | c :: s' =>
      if N.eqb c 61 then []
      else match sextet c with
           | Some v => v :: sextets s'
           | None => sextets s'
           end
  end.

Fixpoint octets (l : list N) : list N :=
  match l with
  | a :: b :: c :: d :: l' =>
      (a * 4 + b / 16)%N :: ((b mod 16) * 16 + c / 4)%N
      :: ((c mod 4) * 64 + d)%N :: octets l'
  | [a; b; c] => [(a * 4 + b / 16)%N; ((b mod 16) * 16 + c / 4)%N]
  | [a; b] => [(a * 4 + b / 16)%N]
  | _ => []
  end.

(** [buffer.toString()]: UTF-8 with replacement; a byte order mark stays,
    and a character cut short at the end is replaced. *)
Fixpoint utf8_all (d : utf8) (l : list N) : jsstring :=
  match l with
  | [] => if N.eqb (bytes_needed d) 0 then [] else [65533%N]
  | b :: l' => let '(d', s) := utf8_feed d b in s ++ utf8_all d' l'
  end.

Definition string_of_base64url (s : jsstring) : jsstring :=
  utf8_all (mkUtf8 0 0 0 128 191 true) (octets (sextets s)).

(** The bytes of a text of the ASCII range. *)
Definition bytes (s : jsstring) : list byte :=
  map (fun c => match Byte.of_N c with Some b => b | None => x00 end) s.

(** A number token is zero when its mantissa has no digit but [0].  (A token
    so small that binary64 rounds it to zero is not told apart.) *)
Fixpoint truthy_of_number (n : number) : bool :=
  match n with
  | [] => false
  | c :: n' =>
      if N.eqb c 101 || N.eqb c 69 then false
      else (N.leb 49 c && N.leb c 57) || truthy_of_number n'
  end.

(** A number token prints as it is written.  (Exact for a token in the form
    [Number.prototype.toString] gives.) *)
Definition string_of_number (n : number) : jsstring := n.

(** The reference runtime.  How a number is read and printed, and how
    [Buffer] decodes, are its three arguments. *)
Definition runtime (truthy_of_number : number -> bool)
    (string_of_number : number -> jsstring)
    (string_of_base64url : jsstring -> jsstring) : Runtime :=
  @mkRuntime truthy_of_number string_of_number parse
             utf8 utf8_new utf8_step string_of_base64url.

End Reference.

(** ** The OAuth session manager ([src/www/app/services/openaiOAuth.ts]) *)

Module OAuth.

Inductive Status : Type := idle | pending_ | success | error_.

(** [OAuthState] *)
Record OAuthState : Type := mkState {
  status : Status;
  error : option jsstring
}.

Record PkceCodes : Type := mkPkce {
  verifier : jsstring;
  challenge : jsstring
}.

(** [TokenResponse], at its declared type; an absent field of type string
    reads as the empty string, which the code cannot tell from it. *)
Record TokenResponse : Type := mkTokens {
  id_token : jsstring;
  access_token : jsstring;
  refresh_token : jsstring;
  expires_in : option Z
}.

(** [OpenAIAuth]; [type] is always ["oauth"].  Times are integers
    (milliseconds). *)
Record OpenAIAuth : Type := mkAuth {
  access : jsstring;
  refresh : jsstring;
  expires : Z;
  accountId : option json
}.

(** [PendingOAuth]; a [NodeJS.Timeout] is known by its number. *)
Record PendingOAuth : Type := mkPending {
  pkce : PkceCodes;
  state : jsstring;
  timeout : nat
}.

(** What a [catch] receives: an [Error] with its message, or another value. *)
Inductive thrown : Type :=
| AnError (message : jsstring)
| NotAnError.

(** The pages the listener answers with. *)
Inductive page : Type :=
| HTML_SUCCESS
| HTML_ERROR (message : jsstring)
| Plain (text : jsstring).

(** What the module does to the outside world.  [WriteAuth auth]: the file
    now holds [auth]; [WriteFailed auth]: writing [auth] threw. *)
Inductive effect : Type :=
| Listen
| Close
| SetTimeout (id : nat)
| ClearTimeout (id : nat)
| ExchangeCode (code : jsstring) (pkce : PkceCodes)
| RefreshToken (refreshToken : jsstring)
| WriteAuth (auth : OpenAIAuth)
| WriteFailed (auth : OpenAIAuth)
| Unlink
| Respond (code : N) (body : page).

(** The module-level variables [server], [pending] and [oauthState], the
    file [.stackfish/auth.json], the timers that are armed, and the effects
    so far (oldest first). *)
Record world : Type := mkWorld {
  server : bool;
  pending : option PendingOAuth;
  oauthState : OAuthState;
  disk : option OpenAIAuth;
  timers : list nat;
  fresh : nat;
  log : list effect
}.

Definition initial : world :=
  mkWorld false None (mkState idle None) None [] 0 [].

Definition set_server (b : bool) (w : world) : world :=
  mkWorld b (pending w) (oauthState w) (disk w) (timers w) (fresh w) (log w).

Definition set_pending (p : option PendingOAuth) (w : world) : world :=
  mkWorld (server w) p (oauthState w) (disk w) (timers w) (fresh w) (log w).

Definition set_oauthState (s : OAuthState) (w : world) : world :=
  mkWorld (server w) (pending w) s (disk w) (timers w) (fresh w) (log w).

Definition set_disk (d : option OpenAIAuth) (w : world) : world :=
  mkWorld (server w) (pending w) (oauthState w) d (timers w) (fresh w) (log w).

Definition set_timers (t : list nat) (w : world) : world :=
  mkWorld (server w) (pending w) (oauthState w) (disk w) t (fresh w) (log w).

Definition does (e : effect) (w : world) : world :=
  mkWorld (server w) (pending w) (oauthState w) (disk w) (timers w) (fresh w)
          (log w ++ [e]).

(** [clearTimeout(id)] *)
Definition clearTimeout (id : nat) (w : world) : world :=
  does (ClearTimeout id)
       (set_timers (filter (fun t => negb (Nat.eqb t id)) (timers w)) w).

(** [setTimeout(..., OAUTH_TIMEOUT_MS)]: the world with the new timer armed,
    and the timer. *)
Definition setTimeout (w : world) : world * nat :=
  let id := fresh w in
  (does (SetTimeout id)
        (mkWorld (server w) (pending w) (oauthState w) (disk w)
                 (timers w ++ [id]) (S id) (log w)),
   id).

Definition clearPending (w : world) : world :=
  let w :=
    match pending w with
    | Some p => clearTimeout (timeout p) w
    | None => w
    end in
  set_pending None w.

Definition stopOAuthServer (w : world) : world :=
  if server w then set_server false (does Close w) else w.

(** [readAuth]: the file is taken to hold an object of type [OpenAIAuth] or
    not to exist. *)
Definition readAuth (w : world) : option OpenAIAuth :=
  match disk w with
  | Some parsed =>
      if nonempty (access parsed) && nonempty (refresh parsed)
         && negb (Z.eqb (expires parsed) 0)
      then Some parsed
      else None
  | None => None
  end.

(** [writeAuth]: [wrote = None] when [mkdir] and [writeFile] went through,
    [Some (e, kept)] when one of them threw [e], leaving [kept] on disk. *)
Definition writeAuth (auth : OpenAIAuth)
    (wrote : option (thrown * option OpenAIAuth)) (w : world)
  : world * option thrown :=
  match wrote with
  | None => (set_disk (Some auth) (does (WriteAuth auth) w), None)
  | Some (e, kept) => (set_disk kept (does (WriteFailed auth) w), Some e)
  end.

(** [clearOpenAIAuth]; [unlinked] tells whether [fs.unlink] removed the
    file (when it throws, the [catch] swallows the error and the file stays
    as it is). *)
Definition clearOpenAIAuth (unlinked : bool) (w : world) : world :=
  let w := does Unlink w in
  let w := if unlinked then set_disk None w else w in
  set_oauthState (mkState idle None) w.

Section Claims.
Context {rt : Runtime}.

(** [a || b] *)
Definition or_else (a b : option json) : option json :=
  if truthy_opt a then a else b.

Definition parseJwtClaims (token : jsstring) : option json :=
  match split (js ".") token with
  | [_; payload; _] => JSON_parse (base64url_toString payload)
  | _ => None
  end.

Definition extractAccountIdFromClaims (claims : json) : option json :=
  or_else (get claims (js "chatgpt_account_id"))
    (or_else
       match get claims (js "https://api.openai.com/auth") with
       | Some auth => get auth (js "chatgpt_account_id")
       | None => None
       end
       match get claims (js "organizations") with
       | Some organizations =>
           match get0 organizations with
           | Some first => get first (js "id")
           | None => None
           end
       | None => None
       end).

Definition extractAccountId (tokens : TokenResponse) : option json :=
  let from_id_token :=
    if nonempty (id_token tokens) then
      match parseJwtClaims (id_token tokens) with
      | Some claims =>
          if truthy claims then extractAccountIdFromClaims claims else Some claims
      | None => None
      end
    else None in
  if truthy_opt from_id_token then from_id_token
  else if nonempty (access_token tokens) then
    match parseJwtClaims (access_token tokens) with
    | Some claims =>
        if truthy claims then extractAccountIdFromClaims claims else None
    | None => None
    end
  else None.

(** [...(accountId ? { accountId } : {})] *)
Definition spread (accountId : option json) : option json :=
  if truthy_opt accountId then accountId else None.

(** [Date.now() + (tokens.expires_in ?? 3600) * 1000] *)
Definition expiry (now : Z) (tokens : TokenResponse) : Z :=
  (now + match expires_in tokens with Some s => s | None => 3600 end * 1000)%Z.

End Claims.

(** What the issuer's token endpoint answered: [fetch] rejected, or a
    response with its status and what [response.json()] gave. *)
Inductive answer : Type :=
| NoAnswer (e : thrown)
| Answer (code : N) (body : thrown + TokenResponse).

Definition token_call (failure : jsstring) (a : answer) : thrown + TokenResponse :=
  match a with
  | NoAnswer e => inl e
  | Answer code body =>
      if N.leb 200 code && N.leb code 299 then body
      else inl (AnError (failure ++ of_N code))
  end.

Definition exchangeCodeForTokens : answer -> thrown + TokenResponse :=
  token_call (js "Token exchange failed: ").

Definition refreshAccessToken : answer -> thrown + TokenResponse :=
  token_call (js "Token refresh failed: ").

(** [url.searchParams.get(name)] for the four names [handleCallback] reads. *)
Record query : Type := mkQuery {
  q_code : option jsstring;
  q_state : option jsstring;
  q_error : option jsstring;
  q_error_description : option jsstring
}.

(** [Boolean(s)] for [s : string | null]. *)
Definition given (s : option jsstring) : bool :=
  match s with
  | Some s => nonempty s
  | None => false
  end.

(** [state !== pending.state] *)
Definition differs (state : option jsstring) (expected : jsstring) : bool :=
  match state with
  | Some s => negb (eqb s expected)
  | None => true
  end.

(** The lines every ending of an attempt shares:
    [oauthState = st; clearPending(); stopOAuthServer();
     res.writeHead(code, ...); res.end(body)]. *)
Definition settle (st : OAuthState) (code : N) (body : page) (w : world) : world :=
  does (Respond code body) (stopOAuthServer (clearPending (set_oauthState st w))).

Definition fail (message : jsstring) (code : N) (w : world) : world :=
  settle (mkState error_ (Some message)) code (HTML_ERROR message) w.

(** A call suspended at an [await]. *)
Inductive task : Type :=
| Starting (listening : bool)
  (** [startOpenAIAuthorize] at line 420; [listening] when [listen] was
      called and has not answered yet. *)
| Exchanging (code : jsstring) (pkce : PkceCodes)
  (** [handleCallback] at line 359. *)
| Writing (auth : OpenAIAuth)
  (** [handleCallback] at line 368. *).

(** [handleCallback], lines 323-359: up to the call of the issuer. *)
Definition handleCallback (url : query) (w : world) : world * option task :=
  if given (q_error url) then
    let message :=
      match q_error_description url, q_error url with
      | Some d, Some e => if nonempty d then d else e
      | None, Some e => e
      | _, None => []
      end in
    (fail message 400 w, None)
  else
    match q_code url with
    | Some ((_ :: _) as code) =>
        match pending w with
        | Some p =>
            if differs (q_state url) (state p)
            then (fail (js "Invalid state - potential CSRF attack") 400 w, None)
            else (does (ExchangeCode code (pkce p)) w,
                  Some (Exchanging code (pkce p)))
        | None => (fail (js "Invalid state - potential CSRF attack") 400 w, None)
        end
    | _ => (fail (js "Missing authorization code") 400 w, None)
    end.

(** The [catch] of lines 374-381. *)
Definition handleCallback_catch (err : thrown) (w : world) : world :=
  let message :=
    match err with
    | AnError m => m
    | NotAnError => js "Token exchange failed"
    end in
  fail message 500 w.

Section Handlers.
Context {rt : Runtime}.

(** Lines 359-368: the issuer has answered; [now] is [Date.now()]. *)
Definition handleCallback_exchanged (a : answer) (now : Z) (w : world)
  : world * option task :=
  match exchangeCodeForTokens a with
  | inr tokens =>
      let accountId := extractAccountId tokens in
      let auth := mkAuth (access_token tokens) (refresh_token tokens)
                         (expiry now tokens) (spread accountId) in
      (w, Some (Writing auth))
  | inl err => (handleCallback_catch err w, None)
  end.

(** Lines 368-373: [writeAuth(auth)] is over. *)
Definition handleCallback_written (auth : OpenAIAuth)
    (wrote : option (thrown * option OpenAIAuth)) (w : world) : world :=
  match writeAuth auth wrote w with
  | (w, None) => settle (mkState success None) 200 HTML_SUCCESS w
  | (w, Some err) => handleCallback_catch err w
  end.

(** [handleCallback] from the request to the response, when nothing else
    runs during its two awaits. *)
Definition handleCallback_whole (url : query) (a : answer) (now : Z)
    (wrote : option (thrown * option OpenAIAuth)) (w : world) : world :=
  match handleCallback url w with
  | (w, Some (Exchanging _ _)) =>
      match handleCallback_exchanged a now w with
      | (w, Some (Writing auth)) => handleCallback_written auth wrote w
      | (w, _) => w
      end
  | (w, _) => w
  end.

End Handlers.

Definition handleCancel (w : world) : world :=
  settle (mkState error_ (Some (js "Login cancelled"))) 200
         (Plain (js "Login cancelled")) w.

(** The callback given to [setTimeout] (lines 427-431). *)
Definition onTimeout (w : world) : world :=
  stopOAuthServer
    (clearPending
       (set_oauthState
          (mkState error_
             (Some (js "OAuth callback timeout - authorization took too long")))
          w)).

(** Timer [id] fires, if it is armed. *)
Definition fire (id : nat) (w : world) : world :=
  if existsb (Nat.eqb id) (timers w)
  then onTimeout (set_timers (filter (fun t => negb (Nat.eqb t id)) (timers w)) w)
  else w.

(** [startOAuthServer] up to its await: nothing when a server exists, else
    one is created and asked to listen. *)
Definition startOAuthServer (w : world) : world * task :=
  if server w then (w, Starting false)
  else (set_server true (does Listen w), Starting true).

(** [startOpenAIAuthorize], lines 421-433; [pkce] and [state] are what
    [generatePKCE()] and [generateState()] drew. *)
Definition startOpenAIAuthorize_record (pkce : PkceCodes) (state : jsstring)
    (w : world) : world :=
  let w := clearPending w in
  let '(w, id) := setTimeout w in
  let w := set_pending (Some (mkPending pkce state id)) w in
  set_oauthState (mkState pending_ None) w.

(** [startOpenAIAuthorize] from call to return, when nothing else runs during
    its awaits; [listened] tells whether [listen], if called, succeeded.  The
    result is [false] when the call throws. *)
Definition startOpenAIAuthorize (listened : bool) (pkce : PkceCodes)
    (state : jsstring) (w : world) : world * bool :=
  match startOAuthServer w with
  | (w, Starting true) =>
      if listened then (startOpenAIAuthorize_record pkce state w, true)
      else (w, false)
  | (w, _) => (startOpenAIAuthorize_record pkce state w, true)
  end.

(** What [ensureOpenAIAuth] ends with: [undefined], a credential, or a
    rejection. *)
Inductive ensured : Type :=
| NotConnected
| Credential (auth : OpenAIAuth)
| Rejected (e : thrown).

(** What [getOpenAIAuthStatus] returns. *)
Record report : Type := mkReport {
  r_status : Status;
  r_error : option jsstring;
  r_connected : bool;
  r_accountId : option json
}.

Definition getOpenAIAuthStatus (w : world) : report :=
  let auth := readAuth w in
  let status :=
    match auth, status (oauthState w) with
    | Some _, idle => success
    | _, s => s
    end in
  mkReport status (error (oauthState w))
           (match auth with Some _ => true | None => false end)
           (match auth with Some a => accountId a | None => None end).

(** *** Words for the properties of the session manager *)

(** The calls of the issuer. *)
Definition network (e : effect) : bool :=
  match e with
  | ExchangeCode _ _ | RefreshToken _ => true
  | _ => false
  end.

(** The writes of the credential file that went through. *)
Definition wrote_auth (e : effect) : bool :=
  match e with
  | WriteAuth _ => true
  | _ => false
  end.

(** The page of a successful authorization. *)
Definition success_page (e : effect) : bool :=
  match e with
  | Respond _ HTML_SUCCESS => true
  | _ => false
  end.

(** Credentials written, and attempts ended in success, so far. *)
Definition writes (w : world) : nat := List.length (filter wrote_auth (log w)).
Definition successes (w : world) : nat := List.length (filter success_page (log w)).

(** The only timer armed is the timer of the pending session. *)
Definition one_timer (w : world) : Prop :=
  timers w = match pending w with
             | Some p => [timeout p]
             | None => []
             end.

(** A piece of code that neither writes a credential nor ends an attempt in
    success, and keeps the timer discipline. *)
Definition quiet (w w' : world) : Prop :=
  successes w' = successes w
  /\ writes w' = writes w
  /\ (status (oauthState w') = success -> status (oauthState w) = success)
  /\ (one_timer w -> one_timer w').

(** What every reachable state satisfies. *)
Definition sound (w : world) : Prop := one_timer w /\ writes w = successes w.

Section Accessor.
Context {rt : Runtime}.

(** [ensureOpenAIAuth], when nothing else runs during its awaits.  [now] and
    [later] are the two readings of [Date.now()], [a] the issuer's answer to
    the refresh call, [wrote] how [writeAuth] went. *)
Definition ensureOpenAIAuth (now : Z) (a : answer) (later : Z)
    (wrote : option (thrown * option OpenAIAuth)) (w : world) : world * ensured :=
  match readAuth w with
  | None => (w, NotConnected)
  | Some auth =>
      if negb (nonempty (access auth)) || Z.ltb (expires auth) now then
        let w := does (RefreshToken (refresh auth)) w in
        match refreshAccessToken a with
        | inr tokens =>
            let accountId := or_else (extractAccountId tokens) (accountId auth) in
            let updated := mkAuth (access_token tokens) (refresh_token tokens)
                                  (expiry later tokens) (spread accountId) in
            match writeAuth updated wrote w with
            | (w, None) => (w, Credential updated)
            | (w, Some e) => (w, Rejected e)
            end
        | inl e => (w, Rejected e)
        end
      else (w, Credential auth)
  end.

(** The credential a refresh writes: every field but [accountId] comes from
    the new tokens, and [accountId] too when the tokens name one. *)
Definition refreshed (auth : OpenAIAuth) (tokens : TokenResponse) (later : Z)
  : OpenAIAuth :=
  mkAuth (access_token tokens) (refresh_token tokens)
         (later + match expires_in tokens with Some s => s | None => 3600 end * 1000)
         (if truthy_opt (extractAccountId tokens) then extractAccountId tokens
          else if truthy_opt (accountId auth) then accountId auth
          else None).

(** *** The module under interleaving

    Node runs one piece of code at a time and switches only at an [await].
    A [system] is the shared state together with the calls that are
    suspended; an [event] runs one piece to its next [await] or to its end. *)

Record system : Type := mkSystem {
  shared : world;
  tasks : list task
}.

Inductive event : Type :=
| Start
  (** [startOpenAIAuthorize()] is called. *)
| Started (i : nat) (listened : bool) (pkce : PkceCodes) (state : jsstring)
  (** The await of the [i]-th task, a [Starting], is over. *)
| Redirect (url : query)
  (** [GET /auth/callback] *)
| Exchanged (i : nat) (a : answer) (now : Z)
  (** The issuer answered the [i]-th task, an [Exchanging]. *)
| Written (i : nat) (wrote : option (thrown * option OpenAIAuth))
  (** The write of the [i]-th task, a [Writing], is over. *)
| Cancel
  (** [GET /cancel] *)
| Stray
  (** A request for any other path, or with no URL. *)
| Fire (id : nat)
  (** Timer [id] fires. *)
| Logout (unlinked : bool)
  (** [clearOpenAIAuth()] *).

Definition drop (i : nat) (ts : list task) : list task :=
  firstn i ts ++ skipn (S i) ts.

Definition suspended (t : option task) : list task :=
  match t with
  | Some t => [t]
  | None => []
  end.

Definition step (s : system) (e : event) : system :=
  let w := shared s in
  let ts := tasks s in
  match e with
  | Start =>
      let '(w, t) := startOAuthServer w in
      mkSystem w (ts ++ [t])
  | Started i listened pkce state =>
      match nth_error ts i with
      | Some (Starting listening) =>
          if listening && negb listened
          then mkSystem w (drop i ts)
          else mkSystem (startOpenAIAuthorize_record pkce state w) (drop i ts)
      | _ => s
      end
  | Redirect url =>
      let '(w, t) := handleCallback url w in
      mkSystem w (ts ++ suspended t)
  | Exchanged i a now =>
      match nth_error ts i with
      | Some (Exchanging _ _) =>
          let '(w, t) := handleCallback_exchanged a now w in
          mkSystem w (drop i ts ++ suspended t)
      | _ => s
      end
  | Written i wrote =>
      match nth_error ts i with
      | Some (Writing auth) =>
          mkSystem (handleCallback_written auth wrote w) (drop i ts)
      | _ => s
      end
  | Cancel => mkSystem (handleCancel w) ts
  | Stray => mkSystem (does (Respond 404 (Plain (js "Not found"))) w) ts
  | Fire id => mkSystem (fire id w) ts
  | Logout unlinked => mkSystem (clearOpenAIAuth unlinked w) ts
  end.

Definition run (events : list event) (s : system) : system :=
  fold_left step events s.

Definition boot : system := mkSystem initial [].

End Accessor.

End OAuth.

(** ** Scenarios

    The inputs the properties are tried on. *)

Module Scenarios.
Import Gateway OAuth.

(** The runtime the scenarios run on. *)
Definition node : Runtime :=
  Reference.runtime Reference.truthy_of_number Reference.string_of_number
                    Reference.string_of_base64url.

Definition A : jsstring := js "A".
Definition B : jsstring := js "B".

Definition answers (code : N) (text : string) (body : option stream) : fetched :=
  Fetched (mkResponse code (inl (js text)) body).

(** [A] answers 400; [B] answers 503, 429 and then 200 with no body. *)
Definition fetch_400_then_busy (c : jsstring) (n : nat) : fetched :=
  if eqb c A then answers 400 "unsupported model" None
  else if Nat.ltb n 2 then answers 503 "busy" None
  else if Nat.ltb n 3 then answers 429 "slow down" None
  else answers 200 "" None.

(** Every call is answered 500. *)
Definition fetch_500 (c : jsstring) (n : nat) : fetched :=
  answers 500 "boom" None.

(** Every call is answered 401. *)
Definition fetch_401 (c : jsstring) (n : nat) : fetched :=
  answers 401 "who are you" None.

(** The network is down: [fetch] rejects, with no status. *)
Definition fetch_down (c : jsstring) (n : nat) : fetched :=
  FetchThrew (mkError (js "fetch failed") None).

(** The stream of the specification's scenario. *)
Definition hello_body : jsstring :=
  jsq "data: {`type`:`response.output_text.delta`,`delta`:`Hel`}" ++ [LF; LF]
  ++ jsq "data: {`type`:`response.output_text.delta`,`delta`:`lo`}" ++ [LF; LF]
  ++ js "data: [DONE]" ++ [LF; LF].

Definition delta_event (delta : string) : json :=
  JObj [ (js "type", JStr (js "response.output_text.delta"));
         (js "delta", JStr (js delta)) ].

Definition done_event (text : string) : json :=
  JObj [ (js "type", JStr (js "response.output_text.done"));
         (js "text", JStr (js text)) ].

Definition completed_event (text : string) : json :=
  JObj [ (js "type", JStr (js "response.completed"));
         (js "response", JObj [ (js "output_text", JStr (js text)) ]) ].

(** A stream whose delta is U+00E9, two bytes in UTF-8. *)
Definition accent_head : list byte :=
  Reference.bytes (jsq "data: {`type`:`response.output_text.delta`,`delta`:`").

Definition accent_tail : list byte :=
  Reference.bytes (jsq "`}" ++ [LF; LF]).

Definition pkce0 : PkceCodes := mkPkce (js "verifier-0") (js "challenge-0").

(** A session is pending with state [expected]; timer 0 is armed. *)
Definition waiting : world :=
  mkWorld true (Some (mkPending pkce0 (js "expected") 0))
          (mkState pending_ None) None [0] 1 [Listen; SetTimeout 0].

Definition forged : query :=
  mkQuery (Some (js "c0de")) (Some (js "forged")) None None.

Definition expected_redirect : query :=
  mkQuery (Some (js "c0de")) (Some (js "expected")) None None.

(** A credential is stored and the module is idle, as after a restart. *)
Definition stored : OpenAIAuth :=
  mkAuth (js "access-1") (js "refresh-1") 1000 (Some (JStr (js "acct-1"))).

Definition restarted : world :=
  mkWorld false None (mkState idle None) (Some stored) [] 0 [].

(** Tokens of the issuer: [new_tokens] has an identity token whose payload
    is [{"chatgpt_account_id":"acct-2"}] and lives 60 seconds;
    [anonymous_tokens] names no account and gives no lifetime. *)
Definition new_tokens : TokenResponse :=
  mkTokens (js "eyJhbGciOiJub25lIn0.eyJjaGF0Z3B0X2FjY291bnRfaWQiOiJhY2N0LTIifQ.sig")
           (js "access-2") (js "refresh-2") (Some 60%Z).

Definition anonymous_tokens : TokenResponse :=
  mkTokens [] (js "access-3") (js "refresh-3") None.

(** Two calls of [Start], the redirect that answers the second, the issuer's
    tokens and the write. *)
Definition pkce1 : PkceCodes := mkPkce (js "verifier-1") (js "challenge-1").

Definition twice : list event :=
  [ Start; Started 0 true pkce0 (js "first");
    Start; Started 0 true pkce1 (js "second") ].

Definition completed : list event :=
  twice
  ++ [ Redirect (mkQuery (Some (js "c0de")) (Some (js "second")) None None);
       Exchanged 0 (Answer 200 (inr new_tokens)) 5000 ].

End Scenarios.

(** ** The request of [callCodex]: [messageText] and [buildResponseInput]
    ([src/unnamed/part_000], lines 14-67) *)

Module Request.

(** A [Message]: its [role] and its [content] ([None] when it has none). *)
Record Message : Type := mkMessage {
  role : jsstring;
  content : option json
}.

(** What [messageText] ends with: a string, [undefined] (what
    [JSON.stringify(undefined)] gives), or a [TypeError] (reading [text] off
    a part that is [null]). *)
Inductive text : Type :=
| Text (s : jsstring)
| Undefined
| TypeError.

(** [{ type: 'input_text', text }] *)
Record InputText : Type := mkInputText {
  part_type : jsstring;
  part_text : jsstring
}.

(** [{ type: 'message', role, content }] *)
Record Item : Type := mkItem {
  item_type : jsstring;
  item_role : jsstring;
  item_content : list InputText
}.

(** What [buildResponseInput] returns. *)
Record Payload : Type := mkPayload {
  input : list Item;
  instructions : jsstring
}.

Section Text.

(** [JSON.stringify(v)] for a value that is not [undefined]. *)
Variable JSON_stringify : json -> jsstring.

(** The callback of [content.map] (lines 21-26); [None] when it throws. *)
Definition text_of_part (part : json) : option jsstring :=
  match part with
  | JNull => None
  | _ =>
      match as_string (get part (js "text")) with
      | Some t => Some t
      | None => Some []
      end
  end.

(** [content.map(...)]: the callback on every part, in order. *)
Fixpoint texts_of_parts (parts : list json) : option (list jsstring) :=
  match parts with
  | [] => Some []
  | part :: rest =>
      match text_of_part part with
      | Some t =>
          match texts_of_parts rest with
          | Some ts => Some (t :: ts)
          | None => None
          end
      | None => None
      end
  end.

Definition messageText (message : Message) : text :=
  match content message with
  | Some (JStr s) => Text s
  | Some (JArr items) =>
      match texts_of_parts items with
      | Some mapped =>
          match filter nonempty mapped with
          | (_ :: _) as parts => Text (join [] parts)
          | [] => Text (JSON_stringify (JArr items))
          end
      | None => TypeError
      end
  | Some v => Text (JSON_stringify v)
  | None => Undefined
  end.

Definition user_turn (text : jsstring) : Item :=
  mkItem (js "message") (js "user") [mkInputText (js "input_text") text].

(** The callback of [messages.map] (lines 38-59) on one message: what
    [instructions] holds afterwards and what the callback returns ([None]
    for [undefined]).  The whole is [None] when [messageText(message).trim()]
    throws. *)
Definition on_message (instructions : list jsstring) (message : Message)
  : option (list jsstring * option Item) :=
  match messageText message with
  | Text s =>
      let text := trim s in
      if negb (nonempty text) then Some (instructions, None)
      else if eqb (role message) (js "system")
              || eqb (role message) (js "developer")
      then Some (instructions ++ [text], None)
      else if eqb (role message) (js "assistant")
      then Some (instructions, Some (user_turn (js "assistant: " ++ text)))
      else Some (instructions, Some (user_turn text))
  | Undefined | TypeError => None
  end.

(** [messages.map(...)] *)
Fixpoint map_messages (instructions : list jsstring) (messages : list Message)
  : option (list jsstring * list (option Item)) :=
  match messages with
  | [] => Some (instructions, [])
  | message :: rest =>
      match on_message instructions message with
      | Some (instructions, mapped) =>
          match map_messages instructions rest with
          | Some (instructions, others) => Some (instructions, mapped :: others)
          | None => None
          end
      | None => None
      end
  end.

(** [.filter(Boolean)] on an array of objects and [undefined]s. *)
Fixpoint defined (mapped : list (option Item)) : list Item :=
  match mapped with
  | [] => []
  | Some item :: rest => item :: defined rest
  | None :: rest => defined rest
  end.

(** [buildResponseInput]; [None] when it throws. *)
Definition buildResponseInput (messages : list Message) (isJson : bool)
  : option Payload :=
  match map_messages [js "You are a helpful assistant."] messages with
  | Some (instructions, mapped) =>
      let items := defined mapped in
      let instructions :=
        if isJson then instructions ++ [js "Return valid JSON only."]
        else instructions in
      Some (mkPayload items (join [LF; LF] instructions))
  | None => None
  end.

(** [formattedMessages] (lines 147-149): a prompt given as a string is the
    one message of a user. *)
Definition formattedMessages (messages : jsstring + list Message)
  : list Message :=
  match messages with
  | inl prompt => [mkMessage (js "user") (Some (JStr prompt))]
  | inr messages => messages
  end.

(** *** Words for the properties of the request *)

(** What a message says: its text, trimmed; nothing when it has no text. *)
Definition said (message : Message) : jsstring :=
  match messageText message with
  | Text s => trim s
  | Undefined | TypeError => []
  end.

Definition has_text (message : Message) : Prop :=
  exists s, messageText message = Text s.

(** The messages that become instructions, and those that become turns. *)
Definition instructs (message : Message) : bool :=
  nonempty (said message)
  && (eqb (role message) (js "system") || eqb (role message) (js "developer")).

Definition speaks (message : Message) : bool :=
  nonempty (said message)
  && negb (eqb (role message) (js "system") || eqb (role message) (js "developer")).

(** The turn a speaking message becomes. *)
Definition rendered (message : Message) : Item :=
  user_turn (if eqb (role message) (js "assistant")
             then js "assistant: " ++ said message
             else said message).

End Text.

End Request.

(** ** Words for the calls of [llm] and for the blocks of a stream *)

Module Trace.
Import Gateway.

Section Words.
Context {rt : Runtime}.
Variable fetch : jsstring -> nat -> fetched.

(** What line 211 throws. *)
Definition lastError_or_default (lastError : option JsError) : JsError :=
  match lastError with
  | Some e => e
  | None => mkError (js "Codex request failed") None
  end.

(** The call numbered [n], made for [c], failed in a way the loops go on
    after. *)
Definition went_on (c : jsstring) (n : nat) : Prop :=
  exists e, callCodex (fetch c n) = Threw e /\ fatal e = false.

(** [calls] are the calls of a run that began with call number [n] and ended
    with [out]: every call but the last went on, and [out] is how the last
    one ended. *)
Fixpoint traced (n : nat) (lastError : option JsError) (calls : list jsstring)
    (out : outcome) : Prop :=
  match calls with
  | [] => out = Threw (lastError_or_default lastError)
  | c :: later =>
      match later with
      | [] => out = callCodex (fetch c n)
      | _ :: _ =>
          exists e,
            callCodex (fetch c n) = Threw e /\ fatal e = false
            /\ traced (S n) (Some e) later out
      end
  end.

End Words.

(** [k] calls for each candidate in turn. *)
Fixpoint blocks (cs : list jsstring) (ks : list nat) : list jsstring :=
  match cs, ks with
  | c :: cs', k :: ks' => repeat c k ++ blocks cs' ks'
  | _, _ => []
  end.

(** The message of the error [callCodex] throws for a response that is not
    ok (line 91). *)
Definition status_message (code : N) (text : jsstring) : jsstring :=
  if nonempty text then of_N code ++ js " " ++ text else of_N code.

(** A line of a block that carries data (line 117), and what it carries
    (line 121). *)
Definition is_data (line : jsstring) : bool := startsWith (js "data:") line.

Definition carried (line : jsstring) : jsstring := trim (slice 5 line).

End Trace.

(** ** More of the runtime: [Buffer.toString("base64")], [URLSearchParams]
    and SHA-256 *)

Module Encoding.

(** The character of a sextet in the alphabet of base64 (RFC 4648). *)
Definition base64_char (v : N) : N :=
  (if v <? 26 then v + 65
   else if v <? 52 then v + 71
   else if v <? 62 then v - 4
   else if v =? 62 then 43
   else 47)%N.

(** [buffer.toString("base64")], on the octets of the buffer. *)
Fixpoint base64 (l : list N) : jsstring :=
  match l with
  | a :: b :: c :: l' =>
      base64_char (a / 4) :: base64_char ((a mod 4) * 16 + b / 16)
      :: base64_char ((b mod 16) * 4 + c / 64) :: base64_char (c mod 64)
      :: base64 l'
  | [a; b] =>
      [ base64_char (a / 4); base64_char ((a mod 4) * 16 + b / 16);
        base64_char ((b mod 16) * 4); 61 ]%N
  | [a] => [ base64_char (a / 4); base64_char ((a mod 4) * 16); 61; 61 ]%N
  | [] => []
  end.

(** [s.replace(/c/g, d)] for two characters [c] and [d]. *)
Definition replace_all (c d : N) (s : jsstring) : jsstring :=
  map (fun x => if N.eqb x c then d else x) s.

(** [s.replace(/c+$/, "")]: the characters [c] the text ends with are
    taken off. *)
Fixpoint strip_trailing (c : N) (s : jsstring) : jsstring :=
  match s with
  | [] => []
  | x :: s' =>
      match strip_trailing c s' with
      | [] => if N.eqb x c then [] else [x]
      | kept => x :: kept
      end
  end.

(** The scalar values of a string, as the conversion to a [USVString]
    reads them: a surrogate pair is one value, a surrogate on its own is
    U+FFFD. *)
Fixpoint scalar_values (s : jsstring) : list N :=
  match s with
  | [] => []
  | c :: s' =>
      if (55296 <=? c)%N && (c <=? 56319)%N then
        match s' with
        | d :: s'' =>
            if (56320 <=? d)%N && (d <=? 57343)%N
            then (65536 + (c - 55296) * 1024 + (d - 56320))%N :: scalar_values s''
            else 65533%N :: scalar_values s'
        | [] => [65533%N]
        end
      else if (56320 <=? c)%N && (c <=? 57343)%N then 65533%N :: scalar_values s'
      else c :: scalar_values s'
  end.

(** The octets of a scalar value in UTF-8. *)
Definition utf8_of_scalar (v : N) : list N :=
  (if v <? 128 then [v]
   else if v <? 2048 then [192 + v / 64; 128 + v mod 64]
   else if v <? 65536 then [224 + v / 4096; 128 + (v / 64) mod 64; 128 + v mod 64]
   else [240 + v / 262144; 128 + (v / 4096) mod 64; 128 + (v / 64) mod 64;
         128 + v mod 64])%N.

Definition utf8_encode (s : jsstring) : list N :=
  flat_map utf8_of_scalar (scalar_values s).

Definition hex_digit (v : N) : N :=
  nth (N.to_nat v) (js "0123456789ABCDEF") 48%N.

Definition is_alphanumeric (c : N) : bool :=
  ((48 <=? c) && (c <=? 57) || (65 <=? c) && (c <=? 90)
   || (97 <=? c) && (c <=? 122))%N.

(** One octet in the [application/x-www-form-urlencoded] serialisation of
    the URL Standard: a space is written [+], an alphanumeric and [*], [-],
    [.], [_] stay, every other octet is percent-encoded. *)
Definition urlencoded_octet (b : N) : jsstring :=
  if N.eqb b 32 then [43%N]
  else if is_alphanumeric b || existsb (N.eqb b) [42; 45; 46; 95]%N then [b]
  else [37%N; hex_digit (b / 16); hex_digit (b mod 16)].

Definition urlencoded (s : jsstring) : jsstring :=
  flat_map urlencoded_octet (utf8_encode s).

(** [new URLSearchParams(record).toString()] *)
Definition URLSearchParams_toString (params : list (jsstring * jsstring))
  : jsstring :=
  join (js "&")
       (map (fun p => urlencoded (fst p) ++ js "=" ++ urlencoded (snd p)) params).

(** *** SHA-256 (FIPS 180-4), for [crypto.createHash("sha256")] *)

Definition word (x : N) : N := N.land x 4294967295.

Definition rotr (n x : N) : N :=
  N.lor (N.shiftr x n) (word (N.shiftl x (32 - n))).

(** The first primes: the numbers from 2 to [n + 1] with no divisor of
    their own. *)
Definition is_prime (n : nat) : bool :=
  forallb (fun d => negb (Nat.eqb (Nat.modulo n d) 0)) (seq 2 (n - 2)).

Definition primes (n : nat) : list N :=
  map N.of_nat (filter is_prime (seq 2 n)).

(** The integer part of the cube root of [n], for [n < 2 ^ 108]. *)
Definition cube_root (n : N) : N :=
  fold_left
    (fun r i =>
       let r' := (r + N.shiftl 1 (N.of_nat i))%N in
       if (r' * r' * r' <=? n)%N then r' else r)
    (rev (seq 0 36)) 0%N.

(** The round constants: the first 32 bits of the fractional parts of the
    cube roots of the first 64 primes. *)
Definition K256 : list N :=
  Eval vm_compute in
    map (fun p => word (cube_root (N.shiftl p 96))) (primes 310).

(** The initial hash value: the first 32 bits of the fractional parts of the
    square roots of the first 8 primes. *)
Definition H256 : list N :=
  Eval vm_compute in
    map (fun p => word (N.sqrt (N.shiftl p 64))) (primes 18).

Definition lsigma0 (x : N) : N :=
  N.lxor (N.lxor (rotr 7 x) (rotr 18 x)) (N.shiftr x 3).

Definition lsigma1 (x : N) : N :=
  N.lxor (N.lxor (rotr 17 x) (rotr 19 x)) (N.shiftr x 10).

Definition usigma0 (x : N) : N :=
  N.lxor (N.lxor (rotr 2 x) (rotr 13 x)) (rotr 22 x).

Definition usigma1 (x : N) : N :=
  N.lxor (N.lxor (rotr 6 x) (rotr 11 x)) (rotr 25 x).

Definition choose (x y z : N) : N :=
  N.lxor (N.land x y) (N.land (N.lxor x 4294967295) z).

Definition majority (x y z : N) : N :=
  N.lxor (N.lxor (N.land x y) (N.land x z)) (N.land y z).

(** The message with its padding: a bit 1, zeros, and the length in bits
    on eight octets. *)
Definition padded (message : list N) : list N :=
  let len := List.length message in
  let zeros := (64 - (len + 9) mod 64) mod 64 in
  let bits := (N.of_nat len * 8)%N in
  message ++ [128%N] ++ repeat 0%N zeros
  ++ map (fun i => (N.shiftr bits (8 * N.of_nat (7 - i)) mod 256)%N) (seq 0 8).

(** The words of 32 bits of a list of octets, most significant first. *)
Fixpoint words (l : list N) : list N :=
  match l with
  | a :: b :: c :: d :: l' =>
      (a * 16777216 + b * 65536 + c * 256 + d)%N :: words l'
  | _ => []
  end.

(** The message schedule, latest word first: [n] more words are added. *)
Fixpoint schedule (n : nat) (w : list N) : list N :=
  match n with
  | O => w
  | S n' =>
      schedule n'
        (word (lsigma1 (nth 1 w 0) + nth 6 w 0 + lsigma0 (nth 14 w 0) + nth 15 w 0)%N
         :: w)
  end.

Definition round (s : list N) (kw : N * N) : list N :=
  match s with
  | [a; b; c; d; e; f; g; h] =>
      let t1 := (h + usigma1 e + choose e f g + fst kw + snd kw)%N in
      let t2 := (usigma0 a + majority a b c)%N in
      [word (t1 + t2); a; b; c; word (d + t1); e; f; g]
  | _ => s
  end.

Definition compress (h : list N) (block : list N) : list N :=
  let w := rev (schedule 48 (rev block)) in
  map (fun p => word (fst p + snd p))
      (combine h (fold_left round (combine K256 w) h)).

(** The blocks of sixteen words. *)
Fixpoint blocks_of (n : nat) (w : list N) : list (list N) :=
  match n with
  | O => []
  | S n' =>
      match w with
      | [] => []
      | _ :: _ => firstn 16 w :: blocks_of n' (skipn 16 w)
      end
  end.

Definition sha256_octets (message : list N) : list N :=
  let w := words (padded message) in
  flat_map (fun x => [ x / 16777216; (x / 65536) mod 256; (x / 256) mod 256;
                       x mod 256 ]%N)
           (fold_left compress (blocks_of (List.length w) w) H256).

Definition octet (n : N) : byte :=
  match Byte.of_N n with
  | Some b => b
  | None => x00
  end.

(** [crypto.createHash("sha256").update(text).digest()] *)
Definition sha256 (text : jsstring) : list byte :=
  map octet (sha256_octets (utf8_encode text)).

(** *** [JSON.stringify]

    Strings are quoted as ECMAScript quotes them; a number prints as it is
    written and the members of an object in the order of the text (exact for
    an object whose member names are neither repeated nor indices). *)

Definition hex_lower (v : N) : N :=
  nth (N.to_nat v) (js "0123456789abcdef") 48%N.

Definition unicode_escape (c : N) : jsstring :=
  [ 92; 117; hex_lower (c / 4096); hex_lower ((c / 256) mod 16);
    hex_lower ((c / 16) mod 16); hex_lower (c mod 16) ]%N.

Definition escaped (c : N) : jsstring :=
  (if c =? 34 then [92; 34]
   else if c =? 92 then [92; 92]
   else if c =? 8 then [92; 98]
   else if c =? 12 then [92; 102]
   else if c =? 10 then [92; 110]
   else if c =? 13 then [92; 114]
   else if c =? 9 then [92; 116]
   else if c <? 32 then unicode_escape c
   else [c])%N.

Fixpoint quoted_body (s : jsstring) : jsstring :=
  match s with
  | [] => []
  | c :: s' =>
      if (55296 <=? c)%N && (c <=? 56319)%N then
        match s' with
        | d :: s'' =>
            if (56320 <=? d)%N && (d <=? 57343)%N
            then c :: d :: quoted_body s''
            else unicode_escape c ++ quoted_body s'
        | [] => unicode_escape c
        end
      else if (56320 <=? c)%N && (c <=? 57343)%N
      then unicode_escape c ++ quoted_body s'
      else escaped c ++ quoted_body s'
  end.

Definition quoted (s : jsstring) : jsstring := 34%N :: quoted_body s ++ [34%N].

Fixpoint stringify (v : json) : jsstring :=
  match v with
  | JNull => js "null"
  | JBool true => js "true"
  | JBool false => js "false"
  | JNum n => n
  | JStr s => quoted s
  | JArr items => js "[" ++ join (js ",") (map stringify items) ++ js "]"
  | JObj members =>
      js "{"
      ++ join (js ",")
           (map (fun m => quoted (fst m) ++ js ":" ++ stringify (snd m)) members)
      ++ js "}"
  end.

End Encoding.

(** ** PKCE codes, the state token and the requests of the issuer
    ([src/www/app/services/openaiOAuth.ts], lines 52-93 and 135-162) *)

Module Authorize.
Import OAuth Encoding.

Definition OPENAI_OAUTH_CLIENT_ID : jsstring := js "app_EMoamEEZ73f0CkXaXp7hrann".
Definition OPENAI_ISSUER : jsstring := js "https://auth.openai.com".

(** [`http://localhost:${OPENAI_OAUTH_PORT}/auth/callback`] *)
Definition redirect_uri : jsstring :=
  js "http://localhost:" ++ of_N 1455 ++ js "/auth/callback".

Definition base64UrlEncode (buffer : list byte) : jsstring :=
  strip_trailing 61
    (replace_all 47 95 (replace_all 43 45 (base64 (map Byte.to_N buffer)))).

Definition chars : jsstring :=
  js "ABCDEFGHIJKLMNOPQRSTUVWXYZabcdefghijklmnopqrstuvwxyz0123456789-._~".

(** [generateRandomString(length)]; [bytes] is what
    [crypto.randomBytes(length)] drew.  An index out of the string would read
    [undefined], which [join] prints as nothing. *)
Definition generateRandomString (bytes : list byte) : jsstring :=
  flat_map
    (fun b =>
       match nth_error chars (N.to_nat (Byte.to_N b) mod List.length chars) with
       | Some c => [c]
       | None => []
       end)
    bytes.

Section Pkce.

(** [crypto.createHash("sha256").update(text).digest()] *)
Variable digest : jsstring -> list byte.

(** [generatePKCE()]; [bytes] is what [crypto.randomBytes(43)] drew. *)
Definition generatePKCE (bytes : list byte) : PkceCodes :=
  let verifier := generateRandomString bytes in
  let hash := digest verifier in
  let challenge := base64UrlEncode hash in
  mkPkce verifier challenge.

End Pkce.

(** [generateState()]; [bytes] is what [crypto.randomBytes(32)] drew. *)
Definition generateState (bytes : list byte) : jsstring := base64UrlEncode bytes.

Definition buildAuthorizeUrl (redirectUri : jsstring) (pkce : PkceCodes)
    (state : jsstring) : jsstring :=
  let params :=
    URLSearchParams_toString
      [ (js "response_type", js "code");
        (js "client_id", OPENAI_OAUTH_CLIENT_ID);
        (js "redirect_uri", redirectUri);
        (js "scope", js "openid profile email offline_access");
        (js "code_challenge", challenge pkce);
        (js "code_challenge_method", js "S256");
        (js "id_token_add_organizations", js "true");
        (js "codex_cli_simplified_flow", js "true");
        (js "state", state) ] in
  OPENAI_ISSUER ++ js "/oauth/authorize?" ++ params.

(** The [url] of what [startOpenAIAuthorize] returns (line 435). *)
Definition authorization_url (pkce : PkceCodes) (state : jsstring) : jsstring :=
  buildAuthorizeUrl redirect_uri pkce state.

(** The body [exchangeCodeForTokens] posts (lines 139-145). *)
Definition exchange_body (code redirectUri : jsstring) (pkce : PkceCodes)
  : jsstring :=
  URLSearchParams_toString
    [ (js "grant_type", js "authorization_code");
      (js "code", code);
      (js "redirect_uri", redirectUri);
      (js "client_id", OPENAI_OAUTH_CLIENT_ID);
      (js "code_verifier", verifier pkce) ].

(** The body [refreshAccessToken] posts (lines 157-161). *)
Definition refresh_body (refreshToken : jsstring) : jsstring :=
  URLSearchParams_toString
    [ (js "grant_type", js "refresh_token");
      (js "refresh_token", refreshToken);
      (js "client_id", OPENAI_OAUTH_CLIENT_ID) ].

(** *** Words for the properties of the codes *)

(** The alphabet of base64url. *)
Definition url_safe (c : N) : bool :=
  is_alphanumeric c || N.eqb c 45 || N.eqb c 95.

(** The unreserved characters of RFC 3986, of which RFC 7636 makes a code
    verifier. *)
Definition unreserved (c : N) : bool :=
  is_alphanumeric c || existsb (N.eqb c) [45; 46; 95; 126]%N.

(** The characters that give a query its structure: [&], [=], [#], [?]
    and the space. *)
Definition structural (c : N) : bool := existsb (N.eqb c) [38; 61; 35; 63; 32]%N.

(** The characters the serialisation of [URLSearchParams] leaves as they
    are. *)
Definition plain (c : N) : bool :=
  is_alphanumeric c || existsb (N.eqb c) [42; 45; 46; 95]%N.

(** The character of a sextet, as [base64UrlEncode] leaves it. *)
Definition url_char (v : N) : N :=
  let x := base64_char v in
  let x := if N.eqb x 43 then 45%N else x in
  if N.eqb x 47 then 95%N else x.

(** [base64UrlEncode] on the octets of the buffer. *)
Definition encoded (l : list N) : jsstring :=
  strip_trailing 61 (replace_all 47 95 (replace_all 43 45 (base64 l))).

(** How many [&] a text has. *)
Definition ampersands (s : jsstring) : nat := count_occ N.eq_dec s 38%N.

End Authorize.

(** ** Words for the endings of an authorization *)

Module Session.
Import OAuth.

Definition is_response (e : effect) : bool :=
  match e with
  | Respond _ _ => true
  | _ => false
  end.

(** What [clearPending(); stopOAuthServer()] do to the outside world. *)
Definition teardown (w : world) : list effect :=
  match pending w with
  | Some p => [ClearTimeout (timeout p)]
  | None => []
  end
  ++ (if server w then [Close] else []).

(** [errorDescription || error], for a redirect that carries an error. *)
Definition provider_message (url : query) : jsstring :=
  match q_error_description url, q_error url with
  | Some d, Some e => if nonempty d then d else e
  | None, Some e => e
  | _, None => []
  end.

(** A redirect that answers the session [p]: no error, a code, and the
    state of [p]. *)
Definition answers_session (url : query) (p : PendingOAuth) : Prop :=
  given (q_error url) = false /\ given (q_code url) = true
  /\ q_state url = Some (state p).

(** Every timer that is armed was handed out by [setTimeout]. *)
Definition timely (w : world) : Prop :=
  forall id, In id (timers w) -> id < fresh w.

(** [Boolean(auth)] for what [readAuth] makes of a credential on disk. *)
Definition usable (auth : OpenAIAuth) : bool :=
  nonempty (access auth) && nonempty (refresh auth)
  && negb (Z.eqb (expires auth) 0).

End Session.

(** ** The request handler of the listener
    ([src/www/app/services/openaiOAuth.ts], lines 394-411) *)

Module Listener.
Import OAuth.



Section Serve.
Context {rt : Runtime}.


End Serve.

End Listener.

(** ** More scenarios *)

Module Cases.
Import Gateway OAuth Request Encoding Authorize Scenarios.

Definition says (role text : string) : Message :=
  mkMessage (js role) (Some (JStr (js text))).

(** The content of a message in parts: two texts around an image. *)
Definition in_parts : json :=
  JArr [ JObj [ (js "type", JStr (js "text")); (js "text", JStr (js "Use ")) ];
         JObj [ (js "type", JStr (js "image_url")) ];
         JObj [ (js "type", JStr (js "text")); (js "text", JStr (js "JSON")) ] ].

Definition conversation : list Message :=
  [ says "system" "Be terse.";
    says "user" "  Hi ";
    says "assistant" "Hello";
    says "user" "   ";
    mkMessage (js "developer") (Some in_parts) ].

(** A stream whose last event has not been closed by a blank line. *)
Definition closed_event : list byte :=
  Reference.bytes
    (jsq "data: {`type`:`response.output_text.delta`,`delta`:`Hel`}" ++ [LF; LF]).

Definition open_event : list byte :=
  Reference.bytes (jsq "data: {`type`:`response.output_text.delta`,`delta`:`lo`}").

(** The lines of a block: a comment, the name of the event, and a payload
    on two data lines. *)
Definition block_lines : list jsstring :=
  [ js ": keep-alive"; js "event: message"; jsq "data: {`type`:";
    jsq "data:`none`}" ].

(** A stream that breaks after its first event. *)
Definition cut_off : JsError := mkError (js "terminated") None.

(** The octets that draw the verifier of RFC 7636, appendix B. *)
Definition rfc_octets : list byte :=
  [ x1d; x01; x23; x1f; x2d; x09; x1e; x19; x38; x02; x15; x0f; x3e; x26; x01;
    x3d; x36; x0a; x36; x3b; x2e; x21; x1b; x14; x09; x14; x35; x29; x35; x2b;
    x40; x30; x16; x35; x20; x05; x16; x05; x0e; x04; x23; x17; x24 ].

Definition rfc_verifier : jsstring :=
  js "dBjftJeZ4CVP-mB92K27uhbUJU1p1r_wW1gFWFOEjXk".

Definition rfc_challenge : jsstring :=
  js "E9Melhoa2OwvFrEMTJguCHaoeK1t8URWbuGJSstw-cM".

Definition zero_state : jsstring :=
  js "AAAAAAAAAAAAAAAAAAAAAAAAAAAAAAAAAAAAAAAAAAA".

(** A redirect that carries an error of the provider beside a code and the
    right state. *)
Definition denied : query :=
  mkQuery (Some (js "c0de")) (Some (js "expected")) (Some (js "access_denied"))
          (Some (js "The user said no")).

(** The world after the redirect [expected_redirect] has been handled to
    its end in [waiting], the issuer having answered [new_tokens] at time
    5000. *)
Definition logged_in : world :=
  mkWorld false None (mkState success None)
    (Some (mkAuth (js "access-2") (js "refresh-2") 65000
                  (Some (JStr (js "acct-2"))))) [] 1
    [ Listen; SetTimeout 0; ExchangeCode (js "c0de") pkce0;
      WriteAuth (mkAuth (js "access-2") (js "refresh-2") 65000
                        (Some (JStr (js "acct-2"))));
      ClearTimeout 0; Close; Respond 200 HTML_SUCCESS ].

End Cases.

(* ================================================================== *)
(** * Properties                                                       *)
(* ================================================================== *)

(** ** Strings *)

Module JsFacts.

Lemma eqb_eq (a b : jsstring) : eqb a b = true <-> a = b.
Proof.
  revert b; induction a as [|x a IH]; destruct b as [|y b]; simpl;
    try (split; congruence).
  rewrite andb_true_iff, N.eqb_eq, IH. split.
  - intros [-> ->]; reflexivity.
  - intros H; inversion H; auto.
Qed.

Lemma eqb_refl (a : jsstring) : eqb a a = true.
Proof. apply eqb_eq; reflexivity. Qed.

Lemma eqb_neq (a b : jsstring) : eqb a b = false <-> a <> b.
Proof.
  rewrite <- eqb_eq. destruct (eqb a b); split; congruence.
Qed.

(** *** [split] *)

Lemma split_go_cur sep s cur skip :
  split_go sep s cur skip = cons_first cur (split_go sep s [] skip).
Proof.
  revert cur skip; induction s as [|c s IH]; intros cur skip; simpl.
  - rewrite app_nil_r. reflexivity.
  - destruct skip as [|k]; [|apply IH].
    destruct (startsWith sep (c :: s)).
    + simpl. rewrite app_nil_r. reflexivity.
    + rewrite (IH (cur ++ [c])), (IH [c]).
      destruct (split_go sep s [] 0); simpl; [reflexivity|].
      rewrite <- app_assoc. reflexivity.
Qed.

Lemma split_go_skip sep s cur k :
  split_go sep s cur k = split_go sep (skipn k s) cur 0.
Proof.
  revert k; induction s as [|c s IH]; intros k.
  - destruct k; reflexivity.
  - destruct k as [|k]; [reflexivity|]. simpl skipn. simpl split_go at 1. apply IH.
Qed.

Lemma split_nil sep : split sep [] = [[]].
Proof. reflexivity. Qed.

Lemma split_match sep c s :
  sep <> [] -> startsWith sep (c :: s) = true ->
  split sep (c :: s) = [] :: split sep (skipn (List.length sep) (c :: s)).
Proof.
  intros Hsep H. unfold split. simpl split_go. rewrite H.
  rewrite split_go_skip. destruct sep as [|x sep]; [congruence|]. reflexivity.
Qed.

Lemma split_pass sep c s :
  startsWith sep (c :: s) = false ->
  split sep (c :: s) = cons_first [c] (split sep s).
Proof.
  intros H. unfold split. simpl split_go. rewrite H.
  apply split_go_cur.
Qed.

Lemma startsWith_app sep s t :
  startsWith sep s = true -> startsWith sep (s ++ t) = true.
Proof.
  revert s; induction sep as [|x sep IH]; intros s H; [reflexivity|].
  destruct s as [|y s]; [discriminate|]. simpl in *.
  apply andb_true_iff in H. destruct H as [-> H]. simpl. apply IH, H.
Qed.

Lemma startsWith_length sep s :
  startsWith sep s = true -> List.length sep <= List.length s.
Proof.
  revert s; induction sep as [|x sep IH]; intros s H; simpl; [lia|].
  destruct s as [|y s]; [discriminate|]. simpl in *.
  apply andb_true_iff in H. destruct H as [_ H]. apply IH in H. lia.
Qed.

(** A text shorter than the separator is one piece. *)
Lemma split_short sep s :
  List.length s < List.length sep -> split sep s = [s].
Proof.
  induction s as [|c s IH]; intros L; [reflexivity|].
  rewrite split_pass.
  - rewrite IH by (simpl in L; lia). reflexivity.
  - destruct (startsWith sep (c :: s)) eqn:E; [|reflexivity].
    apply startsWith_length in E. lia.
Qed.

Lemma split_nonempty sep s : split sep s <> [].
Proof.
  unfold split. generalize (@nil N) as cur, 0 as skip.
  induction s as [|c s IH]; intros cur skip; simpl; [discriminate|].
  destruct skip; [|apply IH].
  destruct (startsWith sep (c :: s)); [discriminate | apply IH].
Qed.

(** A text with no separator in it is the only piece it splits into. *)
Lemma split_single sep s p :
  sep <> [] -> split sep s = [p] -> p = s.
Proof.
  intros Hsep. revert p; induction s as [|c s IH]; intros p H.
  - rewrite split_nil in H. congruence.
  - destruct (startsWith sep (c :: s)) eqn:E.
    + rewrite split_match in H by assumption.
      inversion H as [[H1 H2]]. exfalso. revert H2. apply split_nonempty.
    + rewrite split_pass in H by assumption.
      destruct (split sep s) as [|q qs] eqn:Q; [discriminate|].
      simpl in H. inversion H; subst. f_equal. apply IH. reflexivity.
Qed.

(** Splitting a text that grows: the pieces that were closed stay, and the
    piece that was open is split again with what was added. *)
Lemma split_app sep s t :
  sep <> [] ->
  split sep (s ++ t)
  = removelast (split sep s) ++ split sep (last (split sep s) [] ++ t).
Proof.
  intros Hsep.
  remember (List.length s) as n eqn:Hn. revert s Hn t.
  induction n as [n IH] using lt_wf_ind. intros s Hn t.
  destruct s as [|c s]; [reflexivity|].
  destruct (startsWith sep (c :: s)) eqn:E.
  - (* a separator starts here *)
    pose proof (startsWith_length _ _ E) as L.
    assert (Lsep : 0 < List.length sep) by (destruct sep; [congruence | simpl; lia]).
    rewrite (split_match sep c s Hsep E).
    change ((c :: s) ++ t) with (c :: (s ++ t)).
    rewrite split_match; [|assumption|apply (startsWith_app _ _ t E)].
    change (c :: (s ++ t)) with ((c :: s) ++ t).
    rewrite skipn_app.
    replace (List.length sep - List.length (c :: s)) with 0 by lia.
    simpl (skipn 0 t).
    rewrite (IH (List.length (skipn (List.length sep) (c :: s))));
      [| rewrite length_skipn; subst n; lia | reflexivity].
    pose proof (split_nonempty sep (skipn (List.length sep) (c :: s))) as NE.
    destruct (split sep (skipn (List.length sep) (c :: s))) as [|q qs];
      [congruence|]. reflexivity.
  - destruct (startsWith sep ((c :: s) ++ t)) eqn:E'.
    + (* a separator starts here, and ends in what was added *)
      assert (L : List.length (c :: s) < List.length sep).
      { destruct (Nat.lt_ge_cases (List.length (c :: s)) (List.length sep)) as [H|H];
          [exact H|].
        exfalso.
        assert (X : forall p a b, List.length p <= List.length a ->
                      startsWith p (a ++ b) = startsWith p a).
        { induction p as [|x p IHp]; intros a b Hl; [reflexivity|].
          destruct a as [|y a]; [simpl in Hl; lia|].
          simpl. rewrite IHp by (simpl in Hl; lia). reflexivity. }
        rewrite X in E' by assumption. congruence. }
      rewrite (split_short sep _ L). reflexivity.
    + change ((c :: s) ++ t) with (c :: (s ++ t)) in E' |- *.
      rewrite (split_pass sep _ _ E'), (split_pass sep _ _ E).
      rewrite (IH (List.length s)); [| subst n; simpl; lia | reflexivity].
      destruct (split sep s) as [|p ps] eqn:P;
        [exfalso; revert P; apply split_nonempty|].
      destruct ps as [|q ps].
      * (* no separator in [s] *)
        apply (split_single sep _ _ Hsep) in P. subst p. simpl.
        rewrite split_pass; [reflexivity|]. exact E'.
      * simpl. reflexivity.
Qed.

End JsFacts.

(** ** The fallback chain and the retry policy *)

Module GatewayFacts.
Import Gateway JsFacts Scenarios.

Lemma existsb_eqb_In (x : jsstring) (l : list jsstring) :
  existsb (eqb x) l = true <-> In x l.
Proof.
  rewrite existsb_exists. split.
  - intros (y & Hy & E). apply eqb_eq in E. subst; assumption.
  - intros H. exists x. split; [assumption | apply eqb_refl].
Qed.

(** A [Set] hands back nothing it has seen, only what it was given, and
    nothing twice. *)
Lemma set_from_spec (items seen : list jsstring) :
  NoDup (set_from seen items)
  /\ forall x, In x (set_from seen items) <-> In x items /\ ~ In x seen.
Proof.
  revert seen; induction items as [|y items IH]; intros seen; simpl.
  - split; [constructor | intros x; tauto].
  - destruct (existsb (eqb y) seen) eqn:E.
    + destruct (IH seen) as [ND M]. split; [exact ND|].
      apply existsb_eqb_In in E.
      intros x. rewrite M. split; [tauto|].
      intros [[->|H] Hn]; [contradiction | tauto].
    + assert (Hy : ~ In y seen).
      { intros H. apply existsb_eqb_In in H. congruence. }
      destruct (IH (seen ++ [y])) as [ND M]. split.
      * constructor; [|exact ND].
        rewrite M, in_app_iff. simpl. tauto.
      * intros x. simpl. rewrite M, in_app_iff. simpl.
        destruct (jsstring_dec y x) as [->|Hne]; tauto.
Qed.

(** On items that are already distinct a [Set] only filters. *)
Lemma set_from_filter (items seen : list jsstring) :
  NoDup items ->
  set_from seen items = filter (fun x => negb (existsb (eqb x) seen)) items.
Proof.
  revert seen; induction items as [|y items IH]; intros seen ND; simpl.
  - reflexivity.
  - inversion ND as [|? ? Hy ND']; subst.
    destruct (existsb (eqb y) seen); simpl; [apply IH; assumption|].
    f_equal. rewrite IH by assumption.
    apply filter_ext_in. intros x Hx.
    rewrite existsb_app. simpl. rewrite orb_false_r.
    assert (E : eqb x y = false) by (apply eqb_neq; congruence).
    rewrite E, orb_false_r. reflexivity.
Qed.

Lemma priority_NoDup : NoDup priority.
Proof.
  unfold priority.
  repeat (constructor; [simpl; intros H;
    repeat (destruct H as [H|H]; [apply eqb_eq in H; discriminate H|]);
    exact H|]).
  constructor.
Qed.

(** C6: the chain starts with the requested model, goes on with the
    priority list in its order, less the requested model if it is there,
    and holds nothing twice. *)
Theorem fallback_chain (model : jsstring) :
  hd_error (fallbackModels model) = Some model
  /\ fallbackModels model
     = model :: filter (fun m => negb (eqb m model)) priority
  /\ NoDup (fallbackModels model)
  /\ (forall m, In m (fallbackModels model) <-> m = model \/ In m priority)
  /\ (In model priority ->
      exists before after,
        priority = before ++ model :: after
        /\ fallbackModels model = model :: before ++ after).
Proof.
  assert (E : fallbackModels model
              = model :: filter (fun m => negb (eqb m model)) priority).
  { unfold fallbackModels.
    change (set_from [] (model :: priority))
      with (model :: set_from [model] priority).
    f_equal. rewrite set_from_filter by apply priority_NoDup.
    apply filter_ext. intros x. simpl. rewrite orb_false_r. reflexivity. }
  split; [rewrite E; reflexivity|].
  split; [exact E|].
  split; [apply set_from_spec|].
  split.
  - intros m. unfold fallbackModels.
    destruct (set_from_spec (model :: priority) []) as [_ M].
    rewrite M. simpl. intuition congruence.
  - intros Hin. apply in_split in Hin. destruct Hin as (before & after & P).
    exists before, after. split; [exact P|].
    rewrite E. f_equal.
    pose proof priority_NoDup as ND. rewrite P in ND |- *.
    apply NoDup_remove_2 in ND. rewrite in_app_iff in ND.
    rewrite filter_app. simpl. rewrite eqb_refl. simpl.
    f_equal; apply forallb_filter_id; rewrite forallb_forall; intros x Hx;
      apply negb_true_iff, eqb_neq; intros ->; tauto.
Qed.

Section Policy.
Context {rt : Runtime}.
Variable fetch : jsstring -> nat -> fetched.

Lemma candidates_cons c rest n last :
  candidates fetch (c :: rest) n last = resume fetch c 3 rest n last.
Proof. reflexivity. Qed.

Lemma resume_done c rest n last :
  resume fetch c 0 rest n last = candidates fetch rest n last.
Proof. reflexivity. Qed.

Lemma resume_returned c k rest n last v :
  callCodex (fetch c n) = Returned v ->
  resume fetch c (S k) rest n last = (Returned v, [c]).
Proof. intros E. unfold resume. simpl. rewrite E. reflexivity. Qed.

Lemma resume_fatal c k rest n last e :
  callCodex (fetch c n) = Threw e -> fatal e = true ->
  resume fetch c (S k) rest n last = (Threw e, [c]).
Proof. intros E F. unfold resume. simpl. rewrite E, F. reflexivity. Qed.

Lemma resume_bad_request c k rest n last e :
  callCodex (fetch c n) = Threw e -> fatal e = false -> bad_request e = true ->
  resume fetch c (S k) rest n last = called c (candidates fetch rest (S n) (Some e)).
Proof. intros E F B. unfold resume. simpl. rewrite E, F, B. reflexivity. Qed.

Lemma resume_retry c k rest n last e :
  callCodex (fetch c n) = Threw e -> fatal e = false -> bad_request e = false ->
  resume fetch c (S k) rest n last = called c (resume fetch c k rest (S n) (Some e)).
Proof. intros E F B. unfold resume. simpl. rewrite E, F, B. reflexivity. Qed.

(** How the line-201 and line-204 tests read a status. *)
Lemma status_400 e : status e = Some 400%N -> fatal e = false /\ bad_request e = true.
Proof. unfold fatal, bad_request. intros ->. split; reflexivity. Qed.

Lemma status_transient e s :
  status e = Some s -> s = 429%N \/ s = 500%N \/ s = 503%N ->
  fatal e = false /\ bad_request e = false.
Proof.
  unfold fatal, bad_request. intros -> [->|[->| ->]]; split; reflexivity.
Qed.

Lemma status_other e s :
  status e = Some s ->
  s <> 0%N -> s <> 400%N -> s <> 429%N -> s <> 500%N -> s <> 503%N ->
  fatal e = true.
Proof.
  unfold fatal. intros -> H0 H1 H2 H3 H4.
  apply N.eqb_neq in H0, H1, H2, H3, H4.
  rewrite H0, H1, H2, H3, H4. reflexivity.
Qed.

Lemma status_none e : status e = None -> fatal e = false /\ bad_request e = false.
Proof. unfold fatal, bad_request. intros ->. split; reflexivity. Qed.

(** A response that is not [ok] and whose text can be read is thrown with
    its status. *)
Lemma callCodex_not_ok r text :
  ok r = false -> resp_text r = inl text ->
  exists m, callCodex (Fetched r) = Threw (mkError m (Some (resp_status r))).
Proof.
  intros O T. unfold callCodex. rewrite O, T. simpl. eexists. reflexivity.
Qed.

Lemma calls_for_called c c' r :
  calls_for c (called c' r)
  = (if jsstring_dec c' c then 1 else 0) + calls_for c r.
Proof.
  unfold calls_for, called. simpl. destruct (jsstring_dec c' c); reflexivity.
Qed.

Lemma resume_cap c' k rest n last c :
  (forall n last, calls_for c (candidates fetch rest n last)
                  <= 3 * count_occ jsstring_dec rest c) ->
  calls_for c (resume fetch c' k rest n last)
  <= (if jsstring_dec c' c then k else 0) + 3 * count_occ jsstring_dec rest c.
Proof.
  intros IH. revert n last. induction k as [|k IHk]; intros n last.
  - rewrite resume_done. specialize (IH n last). destruct (jsstring_dec c' c); lia.
  - destruct (callCodex (fetch c' n)) as [v|e] eqn:E.
    + rewrite (@resume_returned c' k rest n last v E).
      unfold calls_for. simpl. destruct (jsstring_dec c' c); lia.
    + destruct (fatal e) eqn:F.
      * rewrite (@resume_fatal c' k rest n last e E F).
        unfold calls_for. simpl. destruct (jsstring_dec c' c); lia.
      * destruct (bad_request e) eqn:B.
        -- rewrite (@resume_bad_request c' k rest n last e E F B), calls_for_called.
           specialize (IH (S n) (Some e)). destruct (jsstring_dec c' c); lia.
        -- rewrite (@resume_retry c' k rest n last e E F B), calls_for_called.
           specialize (IHk (S n) (Some e)). destruct (jsstring_dec c' c); lia.
Qed.

(** No candidate is called more than three times for each place it has in
    the chain. *)
Lemma candidates_cap cs c n last :
  calls_for c (candidates fetch cs n last) <= 3 * count_occ jsstring_dec cs c.
Proof.
  revert n last. induction cs as [|c' rest IH]; intros n last.
  - simpl. destruct last; unfold calls_for; simpl; lia.
  - rewrite candidates_cons.
    pose proof (@resume_cap c' 3 rest n last c IH) as H.
    simpl count_occ. destruct (jsstring_dec c' c); lia.
Qed.

Lemma throws_last_called c n e r :
  callCodex (fetch c n) = Threw e ->
  throws_last fetch (S n) (Some e) r ->
  forall last, throws_last fetch n last (called c r).
Proof.
  intros E H last. unfold throws_last, called in *.
  destruct r as [out calls]. simpl in *.
  destruct calls as [|c' calls].
  - exists e. rewrite Nat.add_0_r. auto.
  - destruct H as (e' & H1 & H2). exists e'. split; [exact H1|].
    simpl List.length. rewrite Nat.add_succ_r. exact H2.
Qed.

Lemma resume_exhausted c k rest n last :
  all_fail fetch ->
  (forall n last, throws_last fetch n last (candidates fetch rest n last)) ->
  throws_last fetch n last (resume fetch c k rest n last).
Proof.
  intros A IH. revert n last. induction k as [|k IHk]; intros n last.
  - rewrite resume_done. apply IH.
  - destruct (A c n) as (e & E & F).
    destruct (bad_request e) eqn:B.
    + rewrite (@resume_bad_request c k rest n last e E F B).
      apply throws_last_called with (e := e); [exact E | apply IH].
    + rewrite (@resume_retry c k rest n last e E F B).
      apply throws_last_called with (e := e); [exact E | apply IHk].
Qed.

Lemma candidates_exhausted cs n last :
  all_fail fetch -> throws_last fetch n last (candidates fetch cs n last).
Proof.
  intros A. revert n last. induction cs as [|c rest IH]; intros n last.
  - unfold throws_last. simpl. destruct last; reflexivity.
  - rewrite candidates_cons. apply resume_exhausted; assumption.
Qed.

Lemma candidates_cap_NoDup cs c n last :
  NoDup cs -> calls_for c (candidates fetch cs n last) <= 3.
Proof.
  intros ND. pose proof (candidates_cap cs c n last) as H.
  pose proof (proj1 (NoDup_count_occ jsstring_dec cs) ND c). lia.
Qed.

(** C2: each candidate of the chain is called at most three times; a
    failure with status 400 ends the attempts on that candidate and moves
    to the next one; 429, 500 and 503 are tried again on the same
    candidate while attempts remain; any other status that is not 2xx is
    thrown at once, with no further call; and when every attempt has failed
    without such a stop, the error of the last call is thrown. *)
Theorem fallback_policy :
  (forall cs n last c,
      calls_for c (candidates fetch cs n last) <= 3 * count_occ jsstring_dec cs c)
  /\ (forall cs n last c,
         NoDup cs -> calls_for c (candidates fetch cs n last) <= 3)
  /\ (forall (T : Type) (auth : option T) model c,
         calls_for c (llm fetch T auth model) <= 3)
  /\ (forall c rest n last,
         candidates fetch (c :: rest) n last = resume fetch c 3 rest n last
         /\ resume fetch c 0 rest n last = candidates fetch rest n last)
  /\ (forall r text,
         ok r = false -> resp_text r = inl text ->
         exists m, callCodex (Fetched r) = Threw (mkError m (Some (resp_status r))))
  /\ (forall c k rest n last e,
         callCodex (fetch c n) = Threw e -> status e = Some 400%N ->
         resume fetch c (S k) rest n last
         = called c (candidates fetch rest (S n) (Some e)))
  /\ (forall c k rest n last e s,
         callCodex (fetch c n) = Threw e -> status e = Some s ->
         s = 429%N \/ s = 500%N \/ s = 503%N ->
         resume fetch c (S k) rest n last
         = called c (resume fetch c k rest (S n) (Some e)))
  /\ (forall c k rest n last e s,
         callCodex (fetch c n) = Threw e -> status e = Some s ->
         s <> 0%N -> s <> 400%N -> s <> 429%N -> s <> 500%N -> s <> 503%N ->
         resume fetch c (S k) rest n last = (Threw e, [c]))
  /\ (all_fail fetch ->
      forall cs n last, throws_last fetch n last (candidates fetch cs n last)).
Proof.
  split; [intros; apply candidates_cap|].
  split.
  { intros cs n last c ND. apply candidates_cap_NoDup, ND. }
  split.
  { intros T [auth|] model c; unfold llm; [|unfold calls_for; cbn; lia].
    apply candidates_cap_NoDup, set_from_spec. }
  split; [intros; split; reflexivity|].
  split; [intros r text; apply callCodex_not_ok|].
  split.
  { intros c k rest n last e E St. destruct (status_400 e St) as [F B].
    apply resume_bad_request; assumption. }
  split.
  { intros c k rest n last e s E St Hs.
    destruct (status_transient e s St Hs) as [F B].
    apply resume_retry; assumption. }
  split.
  { intros c k rest n last e s E St H0 H1 H2 H3 H4.
    apply resume_fatal; [assumption|].
    apply (status_other e s St); assumption. }
  intros A cs n last. apply candidates_exhausted; assumption.
Qed.

(** C10: a failure that carries no status is not fatal: the same candidate
    is tried again while attempts remain, after the third such failure the
    next candidate is tried, and the error is thrown only when no candidate
    remains. *)
Theorem statusless_failure_is_retried c n e :
  callCodex (fetch c n) = Threw e -> status e = None ->
  fatal e = false
  /\ (forall k rest last,
         resume fetch c (S k) rest n last
         = called c (resume fetch c k rest (S n) (Some e)))
  /\ (forall rest last e1 e2,
         callCodex (fetch c (1 + n)) = Threw e1 -> status e1 = None ->
         callCodex (fetch c (2 + n)) = Threw e2 -> status e2 = None ->
         candidates fetch (c :: rest) n last
         = called c (called c (called c
             (candidates fetch rest (3 + n) (Some e2)))))
  /\ (forall m, candidates fetch [] m (Some e) = (Threw e, [])).
Proof.
  intros E St. destruct (status_none e St) as [F B].
  split; [exact F|].
  split; [intros; apply resume_retry; assumption|].
  split; [|reflexivity].
  intros rest last e1 e2 E1 S1 E2 S2.
  destruct (status_none e1 S1) as [F1 B1].
  destruct (status_none e2 S2) as [F2 B2].
  rewrite candidates_cons.
  rewrite (@resume_retry c 2 rest n last e E F B).
  rewrite (@resume_retry c 1 rest (S n) (Some e) e1 E1 F1 B1).
  rewrite (@resume_retry c 0 rest (S (S n)) (Some e1) e2 E2 F2 B2).
  reflexivity.
Qed.

End Policy.

Section Stream.
Context {rt : Runtime}.

Lemma last_app_r (A : Type) (x y : list A) (d : A) :
  y <> [] -> last (x ++ y) d = last y d.
Proof.
  intros Hy. induction x as [|a x IH]; [reflexivity|].
  simpl. rewrite IH. destruct (x ++ y) eqn:E; [|reflexivity].
  apply app_eq_nil in E. tauto.
Qed.

(** Decoding is driven by the bytes alone, whatever the reads that brought
    them. *)
Lemma decode_app d v1 v2 :
  decode d (v1 ++ v2)
  = let '(d1, s1) := decode d v1 in
    let '(d2, s2) := decode d1 v2 in
    (d2, s1 ++ s2).
Proof.
  revert d; induction v1 as [|b v1 IH]; intros d; simpl.
  - destruct (decode d v2). reflexivity.
  - destruct (decoder_step d b) as [d1 s1]. rewrite IH.
    destruct (decode d1 v1) as [d2 s2]. destruct (decode d2 v2) as [d3 s3].
    rewrite app_assoc. reflexivity.
Qed.

(** Two reads do to decoder, buffer and output what one read of the joined
    bytes does. *)
Lemma on_chunk_app st v1 v2 :
  on_chunk (on_chunk st v1) v2 = on_chunk st (v1 ++ v2).
Proof.
  destruct st as [[d buffer] output]. unfold on_chunk.
  rewrite decode_app.
  destruct (decode d v1) as [d1 s1]. destruct (decode d1 v2) as [d2 s2].
  rewrite (app_assoc buffer s1 s2).
  rewrite (split_app [LF; LF] (buffer ++ s1) s2) by discriminate.
  pose proof (split_nonempty [LF; LF]
                (last (split [LF; LF] (buffer ++ s1)) [] ++ s2)) as NE.
  rewrite last_app_r by exact NE.
  rewrite removelast_app by exact NE.
  rewrite fold_left_app. reflexivity.
Qed.

Lemma read_loop_joined value rest broken st :
  read_loop (value :: rest) broken st
  = read_loop [value ++ List.concat rest] broken st.
Proof.
  revert value st; induction rest as [|v rest IH]; intros value st.
  - simpl List.concat. rewrite app_nil_r. reflexivity.
  - change (read_loop (value :: v :: rest) broken st)
      with (read_loop (v :: rest) broken (on_chunk st value)).
    rewrite IH. simpl. rewrite on_chunk_app. reflexivity.
Qed.

Lemma read_loop_concat values broken :
  read_loop values broken (decoder_new, [], JStr [])
  = read_loop [List.concat values] broken (decoder_new, [], JStr []).
Proof.
  destruct values as [|value rest]; [|apply read_loop_joined].
  reflexivity.
Qed.

(** C4: however the body is cut into the values the reader yields, in the
    middle of a line, of a block or of a character, the loop ends as on the
    body read in one piece, with the output the blocks of the whole body
    give. *)
Theorem chunking_is_invisible (body : list byte) (values : list (list byte))
    (broken : option JsError) :
  List.concat values = body ->
  read_loop values broken (decoder_new, [], JStr [])
  = read_loop [body] broken (decoder_new, [], JStr [])
  /\ read_stream (mkStream values broken) = read_stream (mkStream [body] broken)
  /\ read_stream (mkStream values None) = Returned (whole_body_output body)
  /\ forall code text,
       callCodex (Fetched (mkResponse code text (Some (mkStream values broken))))
       = callCodex (Fetched (mkResponse code text (Some (mkStream [body] broken)))).
Proof.
  intros <-.
  assert (E : read_stream (mkStream values broken)
              = read_stream (mkStream [List.concat values] broken))
    by apply read_loop_concat.
  split; [apply read_loop_concat|].
  split; [exact E|].
  split.
  { unfold read_stream. cbn [Gateway.chunks Gateway.broken].
    rewrite read_loop_concat.
    unfold whole_body_output. cbn [read_loop on_chunk app].
    destruct (decode decoder_new (List.concat values)) as [d text].
    reflexivity. }
  intros code text. unfold callCodex. simpl. rewrite E. reflexivity.
Qed.

Lemma append_delta_eq output event :
  append_delta output event
  = match delta_of event with
    | Some delta => plus_string output delta
    | None => output
    end.
Proof.
  unfold append_delta, delta_of.
  destruct (is_string _ (get event (js "type"))); reflexivity.
Qed.

Lemma take_done_eq output event :
  take_done output event
  = if truthy output then output
    else match done_of event with
         | Some text => JStr text
         | None => output
         end.
Proof.
  unfold take_done, done_of. destruct (truthy output); simpl; [reflexivity|].
  destruct (is_string _ (get event (js "type"))); reflexivity.
Qed.

Lemma take_response_eq output event :
  take_response output event
  = if truthy output then output
    else match response_output_text event with
         | Some v => if truthy v then v else output
         | None => output
         end.
Proof.
  unfold take_response. destruct (truthy output); simpl; [reflexivity|].
  destruct (response_output_text event) as [v|]; simpl; reflexivity.
Qed.

(** Once the output is not empty, the event has no further say. *)
Lemma on_event_settled output event :
  truthy (append_delta output event) = true ->
  on_event output event = append_delta output event.
Proof.
  intros T. unfold on_event.
  rewrite take_done_eq, T, take_response_eq, T. reflexivity.
Qed.

Lemma on_event_delta o event delta :
  delta_of event = Some delta -> nonempty (o ++ delta) = true ->
  on_event (JStr o) event = JStr (o ++ delta).
Proof.
  intros D NE.
  assert (E : append_delta (JStr o) event = JStr (o ++ delta)).
  { rewrite append_delta_eq, D. reflexivity. }
  rewrite on_event_settled; rewrite E; [reflexivity | exact NE].
Qed.

Lemma on_event_ignored output event :
  delta_of event = None -> truthy output = true ->
  on_event output event = output.
Proof.
  intros D T.
  assert (E : append_delta output event = output).
  { rewrite append_delta_eq, D. reflexivity. }
  rewrite on_event_settled; rewrite E; [reflexivity | exact T].
Qed.

Lemma on_event_done output event text :
  truthy (append_delta output event) = false ->
  done_of event = Some text -> nonempty text = true ->
  on_event output event = JStr text.
Proof.
  intros F D NE. unfold on_event.
  rewrite take_done_eq, F, D, take_response_eq. simpl. rewrite NE. reflexivity.
Qed.

Lemma on_event_response output event v :
  truthy (append_delta output event) = false ->
  done_of event = None \/ done_of event = Some [] ->
  response_output_text event = Some v -> truthy v = true ->
  on_event output event = v.
Proof.
  intros F D R T. unfold on_event. rewrite take_done_eq, F.
  destruct D as [D|D]; rewrite D, take_response_eq.
  - rewrite F, R, T. reflexivity.
  - simpl. rewrite R, T. reflexivity.
Qed.

Lemma on_event_nothing output event :
  truthy (append_delta output event) = false ->
  done_of event = None \/ done_of event = Some [] ->
  truthy_opt (response_output_text event) = false ->
  truthy (on_event output event) = false.
Proof.
  intros F D R. unfold on_event. rewrite take_done_eq, F.
  destruct D as [D|D]; rewrite D, take_response_eq.
  - rewrite F. destruct (response_output_text event) as [v|]; [|exact F].
    simpl in R. rewrite R. exact F.
  - simpl. destruct (response_output_text event) as [v|]; [|reflexivity].
    simpl in R. rewrite R. reflexivity.
Qed.

Lemma on_part_skipped output part : skipped part -> on_part output part = output.
Proof.
  unfold on_part. intros [H|[H|[H|(data & H & P)]]]; rewrite H; try reflexivity.
  rewrite P. destruct (negb (nonempty data) || eqb data (js "[DONE]")); reflexivity.
Qed.

Lemma fold_on_part_skipped before part after output :
  skipped part ->
  fold_left on_part (before ++ part :: after) output
  = fold_left on_part (before ++ after) output.
Proof.
  intros S. rewrite !fold_left_app. simpl. rewrite on_part_skipped by exact S.
  reflexivity.
Qed.

(** An incremental event is not a terminal one. *)
Lemma delta_is_not_done event delta :
  delta_of event = Some delta -> done_of event = None.
Proof.
  unfold delta_of, done_of, is_string.
  destruct (get event (js "type")) as [[| | |s| |]|]; try discriminate.
  destruct (eqb s (js "response.output_text.delta")) eqn:E; [|discriminate].
  apply eqb_eq in E. subst s. reflexivity.
Qed.

(** An event that is only incremental appends its delta, whatever the
    output was. *)
Lemma on_event_plain_delta o event delta :
  delta_of event = Some delta ->
  truthy_opt (response_output_text event) = false ->
  on_event (JStr o) event = JStr (o ++ delta).
Proof.
  intros D R. unfold on_event.
  rewrite append_delta_eq, D, take_done_eq, (delta_is_not_done event delta D).
  change (plus_string (JStr o) delta) with (JStr (o ++ delta)).
  cbn [truthy]. destruct (nonempty (o ++ delta)) eqn:NE.
  - rewrite take_response_eq. cbn [truthy]. rewrite NE. reflexivity.
  - rewrite take_response_eq. cbn [truthy]. rewrite NE.
    destruct (response_output_text event) as [v|]; [|reflexivity].
    cbn in R. rewrite R. reflexivity.
Qed.

(** A sequence of such events leaves the deltas joined in order. *)
Lemma fold_on_event_deltas events deltas o :
  Forall2 (fun event delta =>
             delta_of event = Some delta
             /\ truthy_opt (response_output_text event) = false)
          events deltas ->
  fold_left on_event events (JStr o) = JStr (o ++ List.concat deltas).
Proof.
  intros H. revert o. induction H as [|event delta events deltas [D R] _ IH];
    intros o; cbn [fold_left List.concat].
  - rewrite app_nil_r. reflexivity.
  - rewrite (on_event_plain_delta o event delta D R), IH, app_assoc. reflexivity.
Qed.

(** The loop ends by returning whenever the reader reports [done]. *)
Lemma read_loop_returns values st :
  exists output, read_loop values None st = Returned output.
Proof.
  revert st; induction values as [|v values IH]; intros st; simpl.
  - eexists; reflexivity.
  - apply IH.
Qed.

Lemma callCodex_no_body r :
  ok r = true -> resp_body r = None -> callCodex (Fetched r) = Returned (JStr []).
Proof. intros O B. unfold callCodex. rewrite O, B. reflexivity. Qed.

Lemma read_loop_empty values :
  List.concat values = [] ->
  read_loop values None (decoder_new, [], JStr []) = Returned (JStr []).
Proof.
  intros E. rewrite read_loop_concat, E. reflexivity.
Qed.

End Stream.

(** C3: an incremental event appends its delta, and a sequence of them
    leaves their deltas joined; the text of a terminal event, or else the
    response-level text, becomes the output only while the output is empty,
    the first of them that is not empty winning, and neither is looked at
    once the output is not empty;
    blocks without payload, with an empty payload, with [[DONE]] or with
    a payload that does not parse are passed over and the loop goes on; no
    body and an empty body give the empty string; and the scenario's stream
    gives ["Hello"], however it is read. *)
Theorem stream_accumulation :
  (forall rt : Runtime,
      (forall output event,
          append_delta output event
          = match delta_of event with
            | Some delta => plus_string output delta
            | None => output
            end)
      /\ (forall o event delta,
             delta_of event = Some delta -> nonempty (o ++ delta) = true ->
             on_event (JStr o) event = JStr (o ++ delta))
      /\ (forall events deltas o,
             Forall2 (fun event delta =>
                        delta_of event = Some delta
                        /\ truthy_opt (response_output_text event) = false)
                     events deltas ->
             fold_left on_event events (JStr o) = JStr (o ++ List.concat deltas))
      /\ (forall output event,
             truthy (append_delta output event) = true ->
             on_event output event = append_delta output event)
      /\ (forall output event,
             delta_of event = None -> truthy output = true ->
             on_event output event = output)
      /\ (forall output event text,
             truthy (append_delta output event) = false ->
             done_of event = Some text -> nonempty text = true ->
             on_event output event = JStr text)
      /\ (forall output event v,
             truthy (append_delta output event) = false ->
             done_of event = None \/ done_of event = Some [] ->
             response_output_text event = Some v -> truthy v = true ->
             on_event output event = v)
      /\ (forall output event,
             truthy (append_delta output event) = false ->
             done_of event = None \/ done_of event = Some [] ->
             truthy_opt (response_output_text event) = false ->
             truthy (on_event output event) = false)
      /\ (forall output part, skipped part -> on_part output part = output)
      /\ (forall before part after output,
             skipped part ->
             fold_left on_part (before ++ part :: after) output
             = fold_left on_part (before ++ after) output)
      /\ (forall values st,
             exists output, read_loop values None st = Returned output)
      /\ (forall r,
             ok r = true -> resp_body r = None ->
             callCodex (Fetched r) = Returned (JStr []))
      /\ (forall values,
             List.concat values = [] ->
             read_stream (mkStream values None) = Returned (JStr [])))
  /\ (forall truthy_of_number string_of_number string_of_base64url values,
         List.concat values = Reference.bytes hello_body ->
         @read_stream
           (Reference.runtime truthy_of_number string_of_number string_of_base64url)
           (mkStream values None)
         = Returned (JStr (js "Hello"))).
Proof.
  split.
  - intros rt.
    split; [apply append_delta_eq|].
    split; [apply on_event_delta|].
    split; [apply fold_on_event_deltas|].
    split; [apply on_event_settled|].
    split; [apply on_event_ignored|].
    split; [apply on_event_done|].
    split; [apply on_event_response|].
    split; [apply on_event_nothing|].
    split; [apply on_part_skipped|].
    split; [apply fold_on_part_skipped|].
    split; [apply read_loop_returns|].
    split; [apply callCodex_no_body|].
    apply read_loop_empty.
  - intros nt ns b64 values E. unfold read_stream. simpl chunks. simpl broken.
    rewrite read_loop_concat, E. vm_compute. reflexivity.
Qed.

(** *** Scenarios *)

(** Scenario of the specification: chain [[A; B]], [A] answers 400 on its
    first attempt; [B] is tried next with three attempts of its own and [A]
    is not tried again. *)
Example scenario_400_moves_on :
  @candidates node fetch_400_then_busy [A; B] 0 None
  = (Returned (JStr []), [A; B; B; B]).
Proof. reflexivity. Qed.

Lemma fallback_policy_witness :
  calls_for A (@candidates node fetch_500 [A; B] 0 None) <= 3
  /\ @resume node fetch_400_then_busy A 3 [B] 0 None
     = called A (@candidates node fetch_400_then_busy [B] 1
                   (Some (mkError (js "400 unsupported model") (Some 400%N))))
  /\ @resume node fetch_500 A 3 [B] 0 None
     = called A (@resume node fetch_500 A 2 [B] 1
                   (Some (mkError (js "500 boom") (Some 500%N))))
  /\ @resume node fetch_401 A 3 [B] 0 None
     = (Threw (mkError (js "401 who are you") (Some 401%N)), [A])
  /\ @throws_last node fetch_500 0 None (@candidates node fetch_500 [A; B] 0 None).
Proof.
  destruct (@fallback_policy node fetch_500)
    as (_ & Cap & _ & _ & _ & _ & Retry & _ & Last).
  destruct (@fallback_policy node fetch_400_then_busy)
    as (_ & _ & _ & _ & _ & Bad & _).
  destruct (@fallback_policy node fetch_401)
    as (_ & _ & _ & _ & _ & _ & _ & Fatal & _).
  split.
  { apply Cap. repeat constructor; simpl; intuition discriminate. }
  split.
  { apply Bad; reflexivity. }
  split.
  { apply Retry with (s := 500%N); [reflexivity | reflexivity | tauto]. }
  split.
  { apply Fatal with (s := 401%N); (reflexivity || discriminate). }
  apply Last. intros c n. eexists. split; reflexivity.
Defined.

Lemma statusless_failure_is_retried_witness :
  fatal (mkError (js "fetch failed") None) = false
  /\ @candidates node fetch_down [A; B] 0 None
     = called A (called A (called A
         (@candidates node fetch_down [B] 3
            (Some (mkError (js "fetch failed") None))))).
Proof.
  destruct (@statusless_failure_is_retried node fetch_down A 0
              (mkError (js "fetch failed") None) eq_refl eq_refl)
    as (F & _ & Three & _).
  split; [exact F|].
  apply (Three [B] None (mkError (js "fetch failed") None)
               (mkError (js "fetch failed") None));
    reflexivity.
Defined.

Lemma fallback_chain_witness :
  fallbackModels (js "gpt-5.1-codex")
  = [ js "gpt-5.1-codex"; js "gpt-5.3-codex"; js "gpt-5.2-codex";
      js "gpt-5.1-codex-mini"; js "gpt-5.1-codex-max" ]
  /\ NoDup (fallbackModels (js "gpt-5.1-codex")).
Proof.
  destruct (fallback_chain (js "gpt-5.1-codex")) as (_ & E & ND & _).
  split; [rewrite E; reflexivity | exact ND].
Defined.

Lemma stream_accumulation_witness :
  @on_event node (JStr (js "Hel")) (delta_event "lo") = JStr (js "Hello")
  /\ fold_left (@on_event node) [delta_event "Hel"; delta_event "lo"] (JStr [])
     = JStr (js "Hello")
  /\ @on_event node (JStr (js "Hel")) (done_event "Hi") = JStr (js "Hel")
  /\ @on_event node (JStr []) (done_event "Hi") = JStr (js "Hi")
  /\ @on_event node (JStr []) (completed_event "Hey") = JStr (js "Hey")
  /\ @truthy node (@on_event node (JStr []) (done_event "")) = false
  /\ @on_part node (JStr (js "Hel")) (js "data: [DONE]") = JStr (js "Hel")
  /\ @on_part node (JStr (js "Hel")) (js "data: {oops") = JStr (js "Hel")
  /\ @on_part node (JStr (js "Hel")) (js ": keep-alive") = JStr (js "Hel")
  /\ @callCodex node (answers 200 "" None) = Returned (JStr [])
  /\ @read_stream node (mkStream [[]; []] None) = Returned (JStr [])
  /\ @read_stream node
       (mkStream [ firstn 30 (Reference.bytes hello_body);
                   skipn 30 (Reference.bytes hello_body) ] None)
     = Returned (JStr (js "Hello")).
Proof.
  destruct stream_accumulation as [General Hello].
  destruct (General node)
    as (_ & Delta & Deltas & _ & Ignored & Done & Response & Nothing & Skip
        & _ & _ & NoBody & Empty).
  split; [apply (Delta (js "Hel") (delta_event "lo") (js "lo")); reflexivity|].
  split.
  { apply (Deltas [delta_event "Hel"; delta_event "lo"] [js "Hel"; js "lo"] []).
    repeat constructor. }
  split; [apply (Ignored (JStr (js "Hel")) (done_event "Hi")); reflexivity|].
  split; [apply (Done (JStr []) (done_event "Hi") (js "Hi")); reflexivity|].
  split.
  { apply (Response (JStr []) (completed_event "Hey") (JStr (js "Hey")));
      [reflexivity | left; reflexivity | reflexivity | reflexivity]. }
  split.
  { apply (Nothing (JStr []) (done_event ""));
      [reflexivity | right; reflexivity | reflexivity]. }
  split; [apply Skip; right; right; left; reflexivity|].
  split.
  { apply Skip. right; right; right. exists (js "{oops"). split; reflexivity. }
  split; [apply Skip; left; reflexivity|].
  split; [apply NoBody; reflexivity|].
  split; [apply Empty; reflexivity|].
  apply Hello. vm_compute. reflexivity.
Defined.

(** The stream is read in two values, cut between the two bytes of the
    character. *)
Lemma chunking_is_invisible_witness :
  @read_stream node (mkStream [accent_head ++ [xc3]; xa9 :: accent_tail] None)
  = @read_stream node (mkStream [accent_head ++ xc3 :: xa9 :: accent_tail] None)
  /\ @read_stream node (mkStream [accent_head ++ xc3 :: xa9 :: accent_tail] None)
     = Returned (JStr [233%N]).
Proof.
  split; [|vm_compute; reflexivity].
  apply (@chunking_is_invisible node
           (accent_head ++ xc3 :: xa9 :: accent_tail)
           [accent_head ++ [xc3]; xa9 :: accent_tail] None).
  vm_compute. reflexivity.
Defined.

End GatewayFacts.

(** ** The OAuth session manager *)

Module OAuthFacts.
Import OAuth JsFacts Scenarios.

Arguments js : simpl never.
Arguments of_N : simpl never.

(** Runs the handlers on a world given by its fields. *)
Ltac handlers :=
  cbv beta iota zeta delta
    [ handleCallback_written handleCallback_catch handleCancel onTimeout
      fail settle startOpenAIAuthorize_record startOAuthServer
      stopOAuthServer clearPending clearTimeout setTimeout writeAuth
      clearOpenAIAuth set_server set_pending set_oauthState set_disk
      set_timers does server pending oauthState disk timers fresh log
      fst snd ] in *.

Lemma differs_true st expected :
  st <> Some expected -> differs st expected = true.
Proof.
  unfold differs. destruct st as [s|]; [|reflexivity].
  intros H. apply negb_true_iff, eqb_neq. congruence.
Qed.

Lemma differs_false st expected :
  differs st expected = false -> st = Some expected.
Proof.
  unfold differs. destruct st as [s|]; [|discriminate].
  intros H. apply negb_false_iff, eqb_eq in H. congruence.
Qed.

(** What ending an attempt with an error does. *)
Lemma fail_spec message code w :
  let w' := fail message code w in
  oauthState w' = mkState error_ (Some message)
  /\ pending w' = None /\ server w' = false /\ disk w' = disk w
  /\ exists effects,
       log w' = log w ++ effects
       /\ forallb (fun e => negb (network e) && negb (wrote_auth e)) effects = true
       /\ In (Respond code (HTML_ERROR message)) effects.
Proof.
  destruct w as [sv [p|] os dk tm fr lg]; destruct sv; handlers; cbn;
    repeat split; try reflexivity;
    rewrite <- ?app_assoc; eexists; (split; [reflexivity|]); cbn; auto 10.
Qed.

(** The issuer is called only for a redirect that carries the state of the
    pending session, and the call is then the one thing the handler has
    done. *)
Lemma exchange_needs_matching_state url w w' code pk :
  handleCallback url w = (w', Some (Exchanging code pk)) ->
  exists p,
    pending w = Some p /\ q_state url = Some (state p) /\ pk = pkce p
    /\ q_code url = Some code
    /\ log w' = log w ++ [ExchangeCode code pk].
Proof.
  unfold handleCallback. destruct (given (q_error url)); [discriminate|].
  destruct (q_code url) as [[|c cs]|]; try discriminate.
  destruct (pending w) as [p|]; [|discriminate].
  destruct (differs (q_state url) (state p)) eqn:D; [discriminate|].
  intros H. inversion H; subst. exists p.
  split; [reflexivity|]. split; [apply differs_false, D|].
  repeat split; reflexivity.
Qed.

(** A handler that suspends nothing has ended with an error page and has not
    called the issuer. *)
Lemma no_exchange_without_task url w w' :
  handleCallback url w = (w', None) ->
  exists effects,
    log w' = log w ++ effects
    /\ forallb (fun e => negb (network e) && negb (wrote_auth e)) effects = true.
Proof.
  unfold handleCallback.
  destruct (given (q_error url));
    [| destruct (q_code url) as [[|c cs]|];
       [| destruct (pending w) as [p|];
          [destruct (differs (q_state url) (state p))|] |] ];
    intros H; inversion H; subst; clear H;
    match goal with
    | |- context [fail ?m ?c w] =>
        destruct (fail_spec m c w) as (_ & _ & _ & _ & effects & L & F & _);
        exists effects; split; assumption
    end.
Qed.

(** C1: a redirect without error and with a code, whose state is not the
    state of the pending session, or that finds no session pending, ends
    the attempt with the CSRF error; the handler is over at once, and the
    issuer is not called, whatever it would have answered.  The handler
    calls the issuer only after it has found the state of the redirect equal
    to the state of the pending session, and has called nothing before. *)
Theorem state_mismatch_is_rejected (url : query) (w : world) :
  (given (q_error url) = false ->
   given (q_code url) = true ->
   (forall p, pending w = Some p -> q_state url <> Some (state p)) ->
   let w' := fst (handleCallback url w) in
   snd (handleCallback url w) = None
   /\ oauthState w'
      = mkState error_ (Some (js "Invalid state - potential CSRF attack"))
   /\ pending w' = None /\ server w' = false /\ disk w' = disk w
   /\ (exists effects,
          log w' = log w ++ effects
          /\ forallb (fun e => negb (network e) && negb (wrote_auth e)) effects = true
          /\ In (Respond 400 (HTML_ERROR (js "Invalid state - potential CSRF attack")))
                effects)
   /\ (forall (rt : Runtime) a now wrote,
          handleCallback_whole url a now wrote w = w')
   /\ (forall (rt : Runtime) s,
          shared s = w -> tasks (step s (Redirect url)) = tasks s))
  /\ (forall w' code pk,
         handleCallback url w = (w', Some (Exchanging code pk)) ->
         exists p,
           pending w = Some p /\ q_state url = Some (state p) /\ pk = pkce p
           /\ q_code url = Some code
           /\ log w' = log w ++ [ExchangeCode code pk])
  /\ (forall w',
         handleCallback url w = (w', None) ->
         exists effects,
           log w' = log w ++ effects
           /\ forallb (fun e => negb (network e) && negb (wrote_auth e)) effects
              = true).
Proof.
  split; [|split; [apply exchange_needs_matching_state
                  | apply no_exchange_without_task]].
  intros E C M.
  assert (H : handleCallback url w
              = (fail (js "Invalid state - potential CSRF attack") 400 w, None)).
  { unfold handleCallback. rewrite E.
    destruct (q_code url) as [[|c cs]|]; try discriminate.
    destruct (pending w) as [p|]; [|reflexivity].
    rewrite differs_true by (apply M; reflexivity). reflexivity. }
  rewrite H. cbn [fst snd].
  pose proof (fail_spec (js "Invalid state - potential CSRF attack") 400 w)
    as (H1 & H2 & H3 & H4 & H5).
  repeat (split; [first [reflexivity | assumption]|]).
  split.
  - intros rt a now wrote. unfold handleCallback_whole. rewrite H. reflexivity.
  - intros rt s <-. unfold step. rewrite H. cbn. apply app_nil_r.
Qed.

Lemma state_mismatch_is_rejected_witness :
  handleCallback forged waiting
  = (mkWorld false None
       (mkState error_ (Some (js "Invalid state - potential CSRF attack")))
       None [] 1
       [ Listen; SetTimeout 0; ClearTimeout 0; Close;
         Respond 400 (HTML_ERROR (js "Invalid state - potential CSRF attack")) ],
     None)
  /\ oauthState (fst (handleCallback forged waiting))
     = mkState error_ (Some (js "Invalid state - potential CSRF attack"))
  /\ (exists p,
         pending waiting = Some p /\ q_state expected_redirect = Some (state p)
         /\ pkce0 = pkce p
         /\ q_code expected_redirect = Some (js "c0de")
         /\ log (fst (handleCallback expected_redirect waiting))
            = log waiting ++ [ExchangeCode (js "c0de") pkce0]).
Proof.
  destruct (state_mismatch_is_rejected forged waiting) as (Rejected & _).
  destruct (state_mismatch_is_rejected expected_redirect waiting)
    as (_ & Called & _).
  split; [reflexivity|].
  split.
  - apply Rejected; [reflexivity | reflexivity |].
    intros p H. inversion H; subst. discriminate.
  - apply (Called (fst (handleCallback expected_redirect waiting))). reflexivity.
Defined.

(** What recording a session does. *)
Lemma record_spec pk st w :
  let w' := startOpenAIAuthorize_record pk st w in
  oauthState w' = mkState pending_ None
  /\ pending w' = Some (mkPending pk st (fresh w))
  /\ server w' = server w /\ disk w' = disk w
  /\ fresh w' = S (fresh w)
  /\ log w'
     = log w
       ++ match pending w with
          | Some p => [ClearTimeout (timeout p)]
          | None => []
          end
       ++ [SetTimeout (fresh w)].
Proof.
  destruct w as [sv [p|] os dk tm fr lg]; handlers;
    repeat split; rewrite <- ?app_assoc; reflexivity.
Qed.

(** A call of [startOpenAIAuthorize] that returns leaves a server. *)
Lemma started_spec listened pk st w w1 :
  startOpenAIAuthorize listened pk st w = (w1, true) ->
  server w1 = true /\ disk w1 = disk w
  /\ pending w1 = Some (mkPending pk st (fresh w))
  /\ oauthState w1 = mkState pending_ None
  /\ exists effects,
       log w1 = log w ++ effects
       /\ forallb (fun e => negb (network e) && negb (wrote_auth e)) effects = true.
Proof.
  destruct w as [sv pd os dk tm fr lg]. unfold startOpenAIAuthorize.
  destruct sv, listened, pd as [p|]; handlers; intros H; inversion H; subst;
    clear H; handlers;
    (repeat (split; [reflexivity|]));
    eexists; (split; [rewrite <- ?app_assoc; reflexivity | reflexivity]).
Qed.

(** C8, as the code has it: after a [Start] that returned and a [Cancel]
    before any redirect, the status is [error] with the message
    ["Login cancelled"], no session is pending, the timer of the session is
    cleared, the listener is closed, and the credential file is as it was:
    nothing was written. *)
Theorem start_then_cancel (listened : bool) (pk : PkceCodes) (st : jsstring)
    (w w1 : world) :
  startOpenAIAuthorize listened pk st w = (w1, true) ->
  let w2 := handleCancel w1 in
  oauthState w2 = mkState error_ (Some (js "Login cancelled"))
  /\ pending w2 = None
  /\ server w2 = false
  /\ disk w2 = disk w
  /\ ~ In (fresh w) (timers w2)
  /\ exists started cancelled,
       log w1 = log w ++ started
       /\ log w2 = log w1 ++ cancelled
       /\ forallb (fun e => negb (network e) && negb (wrote_auth e))
                  (started ++ cancelled) = true
       /\ cancelled = [ ClearTimeout (fresh w); Close;
                        Respond 200 (Plain (js "Login cancelled")) ].
Proof.
  intros H. apply started_spec in H.
  destruct H as (S & D & P & O & effects & L & F).
  destruct w as [sv pd os dk tm fr lg], w1 as [sv1 pd1 os1 dk1 tm1 fr1 lg1].
  handlers. subst.
  repeat (split; [reflexivity|]).
  split.
  { rewrite filter_In, Nat.eqb_refl. cbn. intros [_ X]. discriminate. }
  exists effects. eexists. split; [reflexivity|].
  rewrite <- !app_assoc. split; [reflexivity|]. split; [|reflexivity].
  rewrite forallb_app, F. reflexivity.
Qed.

Lemma start_then_cancel_witness :
  let w1 := fst (startOpenAIAuthorize true pkce0 (js "expected") initial) in
  handleCancel w1
  = mkWorld false None (mkState error_ (Some (js "Login cancelled"))) None [] 1
      [ Listen; SetTimeout 0; ClearTimeout 0; Close;
        Respond 200 (Plain (js "Login cancelled")) ]
  /\ disk (handleCancel w1) = disk initial.
Proof.
  split; [reflexivity|].
  apply (start_then_cancel true pkce0 (js "expected") initial
           (fst (startOpenAIAuthorize true pkce0 (js "expected") initial))).
  reflexivity.
Defined.

(** The message of a cancelled login starts with a capital letter. *)
Lemma cancel_message_is_not_lower_case :
  let w1 := fst (startOpenAIAuthorize true pkce0 (js "expected") initial) in
  let w2 := handleCancel w1 in
  ~ (oauthState w2 = mkState error_ (Some (js "login cancelled"))
     /\ pending w2 = None /\ server w2 = false /\ disk w2 = disk initial).
Proof.
  cbv zeta. intros [H _]. vm_compute in H. discriminate H.
Qed.

(** [readAuth] hands out what the file holds when its [access] and
    [refresh] are not empty and its [expires] is not zero. *)
Lemma readAuth_spec w auth :
  readAuth w = Some auth
  <-> disk w = Some auth
      /\ nonempty (access auth) = true /\ nonempty (refresh auth) = true
      /\ expires auth <> 0%Z.
Proof.
  unfold readAuth.
  destruct (disk w) as [parsed|];
    [| split; [discriminate | intros [H _]; discriminate]].
  destruct (nonempty (access parsed)) eqn:A,
           (nonempty (refresh parsed)) eqn:R,
           (Z.eqb_spec (expires parsed) 0) as [X|X];
    cbn; split; try discriminate;
    try (intros H; inversion H; subst; auto; fail);
    intros (H & H1 & H2 & H3); inversion H; subst; congruence.
Qed.

(** C9: the status query answers [success] for an idle module that has a
    credential and the module's own status otherwise; [connected] tells
    whether [readAuth] found a credential, and [accountId] is the one of
    that credential. *)
Theorem status_query (w : world) :
  let r := getOpenAIAuthStatus w in
  (readAuth w <> None -> status (oauthState w) = idle -> r_status r = success)
  /\ (readAuth w = None \/ status (oauthState w) <> idle ->
      r_status r = status (oauthState w))
  /\ r_error r = error (oauthState w)
  /\ (r_connected r = true <-> exists auth, readAuth w = Some auth)
  /\ (forall auth, readAuth w = Some auth -> r_accountId r = accountId auth)
  /\ (readAuth w = None -> r_accountId r = None)
  /\ (forall auth,
         readAuth w = Some auth
         <-> disk w = Some auth
             /\ nonempty (access auth) = true /\ nonempty (refresh auth) = true
             /\ expires auth <> 0%Z).
Proof.
  cbv zeta.
  assert (H : forall P Q : Prop, P -> Q -> P /\ Q) by tauto.
  repeat rewrite <- and_assoc. apply H; [|apply readAuth_spec]. clear H.
  repeat rewrite and_assoc.
  unfold getOpenAIAuthStatus. cbn.
  destruct (readAuth w) as [auth|]; destruct (status (oauthState w)) eqn:S; cbn;
    repeat split; try congruence; try tauto;
    try (intros [H|H]; congruence);
    try (intros _; eexists; reflexivity);
    try (intros [a H]; discriminate).
Qed.

Lemma status_query_witness :
  getOpenAIAuthStatus restarted
  = mkReport success None true (Some (JStr (js "acct-1")))
  /\ r_status (getOpenAIAuthStatus restarted) = success
  /\ r_status (getOpenAIAuthStatus waiting) = pending_
  /\ r_accountId (getOpenAIAuthStatus restarted) = accountId stored.
Proof.
  destruct (status_query restarted) as (Coerced & _ & _ & _ & Account & _).
  destruct (status_query waiting) as (_ & Kept & _).
  split; [reflexivity|].
  split; [apply Coerced; [discriminate | reflexivity]|].
  split; [apply Kept; left; reflexivity|].
  apply Account. reflexivity.
Defined.

Section Refresh.
Context {rt : Runtime}.

Lemma ensure_fresh now a later wrote w auth :
  readAuth w = Some auth -> (now <= expires auth)%Z ->
  ensureOpenAIAuth now a later wrote w = (w, Credential auth).
Proof.
  intros R E. unfold ensureOpenAIAuth. rewrite R.
  apply readAuth_spec in R. destruct R as (_ & A & _).
  rewrite A. cbn. destruct (Z.ltb_spec (expires auth) now); [lia | reflexivity].
Qed.

Lemma ensure_refreshed now a later w auth tokens :
  readAuth w = Some auth -> (expires auth < now)%Z ->
  refreshAccessToken a = inr tokens ->
  ensureOpenAIAuth now a later None w
  = (set_disk (Some (refreshed auth tokens later))
       (does (WriteAuth (refreshed auth tokens later))
          (does (RefreshToken (refresh auth)) w)),
     Credential (refreshed auth tokens later)).
Proof.
  intros R E T. unfold ensureOpenAIAuth. rewrite R, T.
  apply Z.ltb_lt in E. rewrite E, orb_true_r.
  unfold writeAuth, refreshed, expiry, spread, or_else.
  destruct (truthy_opt (extractAccountId tokens)) eqn:X; rewrite ?X; reflexivity.
Qed.

Lemma ensure_rejected now a later wrote w auth e :
  readAuth w = Some auth -> (expires auth < now)%Z ->
  refreshAccessToken a = inl e ->
  ensureOpenAIAuth now a later wrote w
  = (does (RefreshToken (refresh auth)) w, Rejected e).
Proof.
  intros R E T. unfold ensureOpenAIAuth. rewrite R, T.
  apply Z.ltb_lt in E. rewrite E, orb_true_r. reflexivity.
Qed.

(** C5: a stored credential that is not expired is returned as it is, and
    nothing is done; a refresh that goes through writes one credential made
    of the new tokens, which replaces the stored one and is returned; a
    refresh the issuer refuses is rejected with the issuer's error, the
    stale credential is not returned, and the file is not touched. *)
Theorem credential_accessor (w : world) (auth : OpenAIAuth) :
  readAuth w = Some auth ->
  nonempty (access auth) = true
  /\ (forall now a later wrote,
         (now <= expires auth)%Z ->
         ensureOpenAIAuth now a later wrote w = (w, Credential auth))
  /\ (forall now a later tokens,
         (expires auth < now)%Z -> refreshAccessToken a = inr tokens ->
         let '(w', result) := ensureOpenAIAuth now a later None w in
         result = Credential (refreshed auth tokens later)
         /\ disk w' = Some (refreshed auth tokens later)
         /\ log w' = log w ++ [ RefreshToken (refresh auth);
                                WriteAuth (refreshed auth tokens later) ])
  /\ (forall now a later wrote e,
         (expires auth < now)%Z -> refreshAccessToken a = inl e ->
         let '(w', result) := ensureOpenAIAuth now a later wrote w in
         result = Rejected e
         /\ disk w' = disk w
         /\ log w' = log w ++ [RefreshToken (refresh auth)])
  /\ (forall code body,
         (code < 200 \/ 299 < code)%N ->
         refreshAccessToken (Answer code body)
         = inl (AnError (js "Token refresh failed: " ++ of_N code))).
Proof.
  intros R.
  split; [apply readAuth_spec in R; tauto|].
  split; [intros; apply ensure_fresh; assumption|].
  split.
  { intros now a later tokens E T.
    rewrite (ensure_refreshed now a later w auth tokens R E T).
    cbn. rewrite <- app_assoc. auto. }
  split.
  { intros now a later wrote e E T.
    rewrite (ensure_rejected now a later wrote w auth e R E T). cbn. auto. }
  intros code body H. unfold refreshAccessToken, token_call.
  destruct (N.leb_spec 200 code); destruct (N.leb_spec code 299);
    cbn; try reflexivity; lia.
Qed.

End Refresh.

Lemma credential_accessor_witness :
  @ensureOpenAIAuth node 900 (NoAnswer NotAnError) 900 None restarted
  = (restarted, Credential stored)
  /\ (let '(w', result) :=
         @ensureOpenAIAuth node 5000 (Answer 200 (inr new_tokens)) 5001 None
                           restarted in
       result = Credential (mkAuth (js "access-2") (js "refresh-2") 65001
                                   (Some (JStr (js "acct-2"))))
       /\ disk w' = Some (mkAuth (js "access-2") (js "refresh-2") 65001
                                 (Some (JStr (js "acct-2"))))
       /\ log w' = [ RefreshToken (js "refresh-1");
                     WriteAuth (mkAuth (js "access-2") (js "refresh-2") 65001
                                       (Some (JStr (js "acct-2")))) ])
  /\ (let '(w', result) :=
         @ensureOpenAIAuth node 5000 (Answer 200 (inr anonymous_tokens)) 5001
                           None restarted in
       result = Credential (mkAuth (js "access-3") (js "refresh-3") 3605001
                                   (Some (JStr (js "acct-1"))))
       /\ disk w' = Some (mkAuth (js "access-3") (js "refresh-3") 3605001
                                 (Some (JStr (js "acct-1"))))
       /\ log w' = [ RefreshToken (js "refresh-1");
                     WriteAuth (mkAuth (js "access-3") (js "refresh-3") 3605001
                                       (Some (JStr (js "acct-1")))) ])
  /\ (let '(w', result) :=
         @ensureOpenAIAuth node 5000 (Answer 401 (inl NotAnError)) 5001 None
                           restarted in
       result = Rejected (AnError (js "Token refresh failed: 401"))
       /\ disk w' = Some stored
       /\ log w' = [RefreshToken (js "refresh-1")]).
Proof.
  destruct (@credential_accessor node restarted stored eq_refl)
    as (_ & Fresh & Refreshed & Rejects & Refused).
  split; [apply Fresh; vm_compute; discriminate|].
  split.
  { exact (Refreshed 5000%Z (Answer 200 (inr new_tokens)) 5001%Z new_tokens
                     eq_refl eq_refl). }
  split.
  { exact (Refreshed 5000%Z (Answer 200 (inr anonymous_tokens)) 5001%Z
                     anonymous_tokens eq_refl eq_refl). }
  exact (Rejects 5000%Z (Answer 401 (inl NotAnError)) 5001%Z None
                 (AnError (js "Token refresh failed: 401"))
                 eq_refl (Refused 401%N (inl NotAnError) (or_intror eq_refl))).
Defined.

(** *** One session, one timer, one write for each success *)

(** Runs the handlers and counts what they logged. *)
Ltac counts :=
  unfold quiet, one_timer, writes, successes in *; handlers;
  rewrite ?filter_app, ?length_app; cbn [filter wrote_auth success_page
    List.length app negb Nat.eqb status timeout].

Lemma quiet_refl w : quiet w w.
Proof. unfold quiet. tauto. Qed.

Lemma quiet_trans w1 w2 w3 : quiet w1 w2 -> quiet w2 w3 -> quiet w1 w3.
Proof. unfold quiet. intuition congruence. Qed.

Lemma quiet_clearPending w : quiet w (clearPending w).
Proof.
  destruct w as [sv [p|] os dk tm fr lg]; counts;
    repeat split; auto; try lia.
  intros ->. cbn. rewrite Nat.eqb_refl. reflexivity.
Qed.

Lemma quiet_stopOAuthServer w : quiet w (stopOAuthServer w).
Proof.
  destruct w as [[|] pd os dk tm fr lg]; counts; repeat split; auto; lia.
Qed.

Lemma quiet_set_oauthState st w :
  status st <> success -> quiet w (set_oauthState st w).
Proof.
  intros H. destruct w as [sv pd os dk tm fr lg]; counts.
  repeat split; auto. intros X. congruence.
Qed.

Lemma quiet_respond code body w :
  success_page (Respond code body) = false -> quiet w (does (Respond code body) w).
Proof.
  intros H. destruct w as [sv pd os dk tm fr lg]; counts.
  cbn in H. rewrite H. cbn. repeat split; auto; lia.
Qed.

Lemma quiet_settle st code body w :
  status st <> success -> success_page (Respond code body) = false ->
  quiet w (settle st code body w).
Proof.
  intros H1 H2. unfold settle.
  eapply quiet_trans; [apply (quiet_set_oauthState st w H1)|].
  eapply quiet_trans; [apply quiet_clearPending|].
  eapply quiet_trans; [apply quiet_stopOAuthServer|].
  apply quiet_respond, H2.
Qed.

Lemma quiet_fail message code w : quiet w (fail message code w).
Proof. apply quiet_settle; [cbn; discriminate | reflexivity]. Qed.

Lemma quiet_handleCancel w : quiet w (handleCancel w).
Proof. apply quiet_settle; [cbn; discriminate | reflexivity]. Qed.

(** A timer that fires was the only one armed. *)
Lemma quiet_fire id w : quiet w (fire id w).
Proof.
  destruct w as [sv pd os dk tm fr lg]. unfold fire. cbn [timers].
  destruct (existsb (Nat.eqb id) tm) eqn:E; [|apply quiet_refl].
  destruct sv, pd as [p|]; counts; repeat split; auto; try lia;
    try (intros X; discriminate X);
    intros ->; cbn in E |- *; try discriminate E;
    rewrite orb_false_r in E; apply Nat.eqb_eq in E; subst id;
    rewrite Nat.eqb_refl; reflexivity.
Qed.

Lemma quiet_handleCallback url w : quiet w (fst (handleCallback url w)).
Proof.
  unfold handleCallback.
  destruct (given (q_error url)); [apply quiet_fail|].
  destruct (q_code url) as [[|c cs]|]; try apply quiet_fail.
  destruct (pending w) as [p|] eqn:P; [|apply quiet_fail].
  destruct (differs (q_state url) (state p)); [apply quiet_fail|].
  cbn [fst]. clear P. destruct w as [sv pd os dk tm fr lg]; counts.
  repeat split; auto; lia.
Qed.

Lemma quiet_startOAuthServer w : quiet w (fst (startOAuthServer w)).
Proof.
  destruct w as [[|] pd os dk tm fr lg]; counts; repeat split; auto; lia.
Qed.

Lemma quiet_record pk st w : quiet w (startOpenAIAuthorize_record pk st w).
Proof.
  destruct w as [sv [p|] os dk tm fr lg]; counts;
    repeat split; auto; try lia;
    first [ intros X; discriminate X
          | intros ->; cbn; rewrite ?Nat.eqb_refl; reflexivity ].
Qed.

Lemma quiet_clearOpenAIAuth unlinked w : quiet w (clearOpenAIAuth unlinked w).
Proof.
  destruct w as [sv pd os dk tm fr lg], unlinked; counts;
    repeat split; auto; try lia; intros X; discriminate X.
Qed.

Section Continuations.
Context {rt : Runtime}.

Lemma quiet_exchanged a now w : quiet w (fst (handleCallback_exchanged a now w)).
Proof.
  unfold handleCallback_exchanged.
  destruct (exchangeCodeForTokens a); [apply quiet_fail | apply quiet_refl].
Qed.

Lemma quiet_write_failed auth e kept w :
  quiet w (handleCallback_written auth (Some (e, kept)) w).
Proof.
  unfold handleCallback_written, writeAuth.
  eapply quiet_trans; [|apply quiet_fail].
  destruct w as [sv pd os dk tm fr lg]; counts. repeat split; auto; lia.
Qed.

(** The one piece of code that ends an attempt in success: it has written
    one credential. *)
Lemma written_spec auth w :
  let w' := handleCallback_written auth None w in
  successes w' = S (successes w)
  /\ writes w' = S (writes w)
  /\ oauthState w' = mkState success None
  /\ disk w' = Some auth
  /\ pending w' = None /\ server w' = false
  /\ (exists effects, log w' = log w ++ WriteAuth auth :: effects
                      /\ filter wrote_auth effects = [])
  /\ (one_timer w -> one_timer w').
Proof.
  destruct w as [sv pd os dk tm fr lg]; destruct sv, pd as [p|]; counts;
    (repeat split; try reflexivity; try lia;
     [ rewrite <- ?app_assoc; eexists; split; reflexivity
     | intros H; try rewrite H; cbn; rewrite ?Nat.eqb_refl; reflexivity ]).
Qed.

(** What one event does to the counts, the status and the timers. *)
Lemma step_spec s e :
  let w := shared s in
  let w' := shared (step s e) in
  (quiet w w'
   \/ exists i auth,
        e = Written i None
        /\ nth_error (tasks s) i = Some (Writing auth)
        /\ w' = handleCallback_written auth None w).
Proof.
  cbn zeta. destruct e as [|i listened pk st|url|i a now|i wrote| | |id|unlinked]; cbn.
  - left. pose proof (quiet_startOAuthServer (shared s)) as Q.
    destruct (startOAuthServer (shared s)). exact Q.
  - left. destruct (nth_error (tasks s) i) as [[listening| |]|];
      try apply quiet_refl.
    destruct (listening && negb listened); [apply quiet_refl | apply quiet_record].
  - left. pose proof (quiet_handleCallback url (shared s)) as Q.
    destruct (handleCallback url (shared s)). exact Q.
  - left. destruct (nth_error (tasks s) i) as [[| |]|]; try apply quiet_refl.
    pose proof (quiet_exchanged a now (shared s)) as Q.
    destruct (handleCallback_exchanged a now (shared s)). exact Q.
  - destruct (nth_error (tasks s) i) as [[| |auth]|] eqn:T;
      try (left; apply quiet_refl).
    destruct wrote as [[err kept]|].
    + left. apply quiet_write_failed.
    + right. exists i, auth. auto.
  - left. apply quiet_handleCancel.
  - left. apply quiet_respond. reflexivity.
  - left. apply quiet_fire.
  - left. apply quiet_clearOpenAIAuth.
Qed.

Lemma step_sound s e : sound (shared s) -> sound (shared (step s e)).
Proof.
  intros [T B]. destruct (step_spec s e) as [(Q1 & Q2 & _ & Q4)|(i & auth & _ & _ & E)].
  - split; [auto | congruence].
  - rewrite E.
    pose proof (written_spec auth (shared s)) as (H1 & H2 & _ & _ & _ & _ & _ & H8).
    split; [auto | congruence].
Qed.

Lemma run_sound events s : sound (shared s) -> sound (shared (run events s)).
Proof.
  revert s; induction events as [|e events IH]; intros s H; [exact H|].
  cbn. apply IH, step_sound, H.
Qed.

Lemma boot_sound : sound (shared boot).
Proof. split; reflexivity. Qed.

(** C7: whatever the order of calls, redirects, answers, timer firings and
    cancellations, the only timer armed is that of the one session that may
    be pending; a [Start] that finds a session pending clears its timer and
    replaces it; and an attempt ends in success only by the piece of code
    that has just written one credential, so that as many credentials were
    written as attempts ended in success. *)
Theorem single_session (events : list event) :
  let s := run events boot in
  let w := shared s in
  one_timer w
  /\ List.length (timers w) <= 1
  /\ (forall i listening listened pk st,
         nth_error (tasks s) i = Some (Starting listening) ->
         listening && negb listened = false ->
         let w' := shared (step s (Started i listened pk st)) in
         pending w' = Some (mkPending pk st (fresh w))
         /\ timers w' = [fresh w]
         /\ oauthState w' = mkState pending_ None
         /\ log w'
            = log w
              ++ match pending w with
                 | Some p => [ClearTimeout (timeout p)]
                 | None => []
                 end
              ++ [SetTimeout (fresh w)])
  /\ writes w = successes w
  /\ (forall e,
         let w' := shared (step s e) in
         (successes w' = successes w
          /\ writes w' = writes w
          /\ (status (oauthState w') = success -> status (oauthState w) = success))
         \/ (successes w' = S (successes w)
             /\ writes w' = S (writes w)
             /\ oauthState w' = mkState success None
             /\ exists auth effects,
                  disk w' = Some auth
                  /\ log w' = log w ++ WriteAuth auth :: effects
                  /\ filter wrote_auth effects = [])).
Proof.
  cbv zeta.
  pose proof (run_sound events boot boot_sound) as [T B].
  set (s := run events boot) in *.
  split; [exact T|].
  split.
  { rewrite T. destruct (pending (shared s)); cbn; lia. }
  split.
  { intros i listening listened pk st N L. cbn. rewrite N, L. cbn [shared].
    pose proof (record_spec pk st (shared s)) as (H1 & H2 & _ & _ & _ & H6).
    pose proof (quiet_record pk st (shared s)) as (_ & _ & _ & Q).
    specialize (Q T). unfold one_timer in Q. rewrite H2 in Q. cbn in Q.
    auto. }
  split; [exact B|].
  intros e. destruct (step_spec s e) as [(Q1 & Q2 & Q3 & _)|(i & auth & _ & _ & E)].
  - left. auto.
  - right. rewrite E.
    pose proof (written_spec auth (shared s))
      as (H1 & H2 & H3 & H4 & _ & _ & (effects & H7 & H8) & _).
    repeat (split; [assumption|]). exists auth, effects. auto.
Qed.

End Continuations.

Lemma single_session_witness :
  (let s := @run node [Start; Started 0 true pkce0 (js "first"); Start] boot in
   let w' := shared (@step node s (Started 0 true pkce1 (js "second"))) in
   pending w' = Some (mkPending pkce1 (js "second") 1)
   /\ timers w' = [1]
   /\ oauthState w' = mkState pending_ None
   /\ log w' = [Listen; SetTimeout 0; ClearTimeout 0; SetTimeout 1])
  /\ one_timer (shared (@run node twice boot))
  /\ shared (@run node (completed ++ [Written 0 None]) boot)
     = mkWorld false None (mkState success None)
         (Some (mkAuth (js "access-2") (js "refresh-2") 65000
                       (Some (JStr (js "acct-2"))))) [] 2
         [ Listen; SetTimeout 0; ClearTimeout 0; SetTimeout 1;
           ExchangeCode (js "c0de") pkce1;
           WriteAuth (mkAuth (js "access-2") (js "refresh-2") 65000
                             (Some (JStr (js "acct-2"))));
           ClearTimeout 1; Close; Respond 200 HTML_SUCCESS ]
  /\ writes (shared (@run node (completed ++ [Written 0 None]) boot)) = 1
  /\ successes (shared (@run node (completed ++ [Written 0 None]) boot)) = 1.
Proof.
  destruct (@single_session node [Start; Started 0 true pkce0 (js "first"); Start])
    as (_ & _ & Supersede & _).
  destruct (@single_session node twice) as (Timer & _).
  destruct (@single_session node (completed ++ [Written 0 None]))
    as (_ & _ & _ & Balance & _).
  split; [exact (Supersede 0 false true pkce1 (js "second") eq_refl eq_refl)|].
  split; [exact Timer|].
  split; [vm_compute; reflexivity|].
  split; [rewrite Balance|]; vm_compute; reflexivity.
Defined.

End OAuthFacts.

(** ** More on [split] and [join] *)

Module TextFacts.
Import JsFacts.

(** A separator of one character cuts a text into one piece more than it
    occurs. *)
Lemma split_count (c : N) (s : jsstring) :
  List.length (split [c] s) = S (count_occ N.eq_dec s c).
Proof.
  induction s as [|x s IH]; [reflexivity|].
  cbn [count_occ]. destruct (N.eq_dec x c) as [->|D].
  - rewrite split_match; [|discriminate|cbn; rewrite N.eqb_refl; reflexivity].
    cbn [List.length skipn]. rewrite IH. reflexivity.
  - rewrite split_pass.
    + rewrite <- IH. pose proof (split_nonempty [c] s) as NE.
      destruct (split [c] s); [congruence | reflexivity].
    + cbn. destruct (N.eqb_spec c x) as [->|]; [congruence | reflexivity].
Qed.

Lemma split_segment (c : N) (line s : jsstring) :
  ~ In c line -> split [c] (line ++ c :: s) = line :: split [c] s.
Proof.
  intros H. induction line as [|x line IH].
  - cbn [app]. rewrite split_match; [reflexivity | discriminate |].
    cbn. rewrite N.eqb_refl. reflexivity.
  - cbn [app]. rewrite split_pass.
    + rewrite IH by (intros X; apply H; right; exact X). reflexivity.
    + cbn. destruct (N.eqb_spec c x) as [->|]; [|reflexivity].
      exfalso. apply H. left. reflexivity.
Qed.

Lemma split_whole (c : N) (line : jsstring) :
  ~ In c line -> split [c] line = [line].
Proof.
  intros H. induction line as [|x line IH]; [reflexivity|].
  rewrite split_pass.
  - rewrite IH by (intros X; apply H; right; exact X). reflexivity.
  - cbn. destruct (N.eqb_spec c x) as [->|]; [|reflexivity].
    exfalso. apply H. left. reflexivity.
Qed.

(** Lines without a line feed, joined by line feeds and split again, are
    the lines. *)
Lemma split_join (c : N) (lines : list jsstring) :
  lines <> [] -> Forall (fun line => ~ In c line) lines ->
  split [c] (join [c] lines) = lines.
Proof.
  induction lines as [|line rest IH]; intros NE F; [congruence|].
  inversion F; subst.
  destruct rest as [|next rest].
  - cbn [join]. apply split_whole. assumption.
  - change (join [c] (line :: next :: rest))
      with (line ++ c :: join [c] (next :: rest)).
    rewrite split_segment by assumption.
    rewrite IH; [reflexivity|discriminate|assumption].
Qed.

(** The pieces of a text, joined again, are the text. *)
Lemma join_split (c : N) (s : jsstring) : join [c] (split [c] s) = s.
Proof.
  induction s as [|x s IH]; [reflexivity|].
  pose proof (split_nonempty [c] s) as NE.
  destruct (N.eqb_spec c x) as [<-|D].
  - rewrite split_match; [|discriminate|cbn; rewrite N.eqb_refl; reflexivity].
    cbn [skipn List.length].
    destruct (split [c] s) as [|p ps] eqn:P; [congruence|].
    change (join [c] ([] :: p :: ps)) with (c :: join [c] (p :: ps)).
    rewrite IH. reflexivity.
  - rewrite split_pass.
    + destruct (split [c] s) as [|p ps] eqn:P; [congruence|].
      cbn [cons_first]. rewrite <- IH. destruct ps; reflexivity.
    + cbn [startsWith]. destruct (N.eqb_spec c x); [congruence | reflexivity].
Qed.

End TextFacts.

(** ** The request of [callCodex] *)

Module RequestFacts.
Import Request JsFacts.

Section Text.
Variable JSON_stringify : json -> jsstring.

Lemma join_nonempty (l : list jsstring) :
  join [] (filter nonempty l) = List.concat l.
Proof.
  induction l as [|s l IH]; [reflexivity|].
  destruct s as [|c s]; simpl filter; [exact IH|].
  change (List.concat ((c :: s) :: l)) with ((c :: s) ++ List.concat l).
  rewrite <- IH.
  destruct (filter nonempty l) as [|p ps]; simpl.
  - rewrite app_nil_r. reflexivity.
  - reflexivity.
Qed.

Lemma filter_nonempty_nil (l : list jsstring) :
  filter nonempty l = [] <-> List.concat l = [].
Proof.
  induction l as [|s l IH]; [split; reflexivity|].
  destruct s as [|c s]; simpl; [exact IH|].
  split; discriminate.
Qed.

Lemma on_message_spec instructions m :
  has_text JSON_stringify m ->
  on_message JSON_stringify instructions m
  = Some (if instructs JSON_stringify m
          then instructions ++ [said JSON_stringify m] else instructions,
          if speaks JSON_stringify m
          then Some (rendered JSON_stringify m) else None).
Proof.
  intros [s Hs].
  unfold on_message, instructs, speaks, rendered, said. rewrite Hs.
  destruct (nonempty (trim s)); cbn [negb andb]; [|reflexivity].
  destruct (eqb (role m) (js "system") || eqb (role m) (js "developer"));
    cbn [negb]; [reflexivity|].
  destruct (eqb (role m) (js "assistant")); reflexivity.
Qed.

Lemma map_messages_spec messages : forall instructions,
  Forall (has_text JSON_stringify) messages ->
  map_messages JSON_stringify instructions messages
  = Some (instructions
            ++ map (said JSON_stringify)
                   (filter (instructs JSON_stringify) messages),
          map (fun m => if speaks JSON_stringify m
                        then Some (rendered JSON_stringify m) else None)
              messages).
Proof.
  induction messages as [|m rest IH]; intros instructions H.
  - simpl. rewrite app_nil_r. reflexivity.
  - inversion H as [|? ? Hm Hrest]; subst.
    cbn [map_messages filter map]. rewrite (on_message_spec _ _ Hm).
    rewrite IH by assumption.
    destruct (instructs JSON_stringify m); cbn [map];
      rewrite <- ?app_assoc; reflexivity.
Qed.

Lemma map_messages_throws messages : forall instructions,
  Exists (fun m => ~ has_text JSON_stringify m) messages ->
  map_messages JSON_stringify instructions messages = None.
Proof.
  induction messages as [|m rest IH]; intros instructions H;
    inversion H as [? ? Hm|? ? Hrest]; subst; cbn [map_messages].
  - unfold on_message. destruct (messageText JSON_stringify m) eqn:E;
      try reflexivity.
    exfalso. apply Hm. exists s. exact E.
  - destruct (on_message JSON_stringify instructions m) as [[i r]|];
      [|reflexivity].
    rewrite IH by assumption. reflexivity.
Qed.

Lemma defined_speaks messages :
  defined (map (fun m => if speaks JSON_stringify m
                         then Some (rendered JSON_stringify m) else None)
               messages)
  = map (rendered JSON_stringify) (filter (speaks JSON_stringify) messages).
Proof.
  induction messages as [|m rest IH]; [reflexivity|].
  cbn [map filter defined]. destruct (speaks JSON_stringify m); cbn [defined map];
    rewrite IH; reflexivity.
Qed.

Lemma has_text_dec m :
  has_text JSON_stringify m \/ ~ has_text JSON_stringify m.
Proof.
  unfold has_text. destruct (messageText JSON_stringify m) as [s| |].
  - left. exists s. reflexivity.
  - right. intros [s H]. discriminate H.
  - right. intros [s H]. discriminate H.
Qed.

(** X1: The text of a message: a string is its own text; an array of parts
    reads as the [text] fields that are strings, joined in order, and as the
    JSON of the array when they are all empty or missing; a [null] part
    throws; any other content reads as its JSON, and an absent content as
    [undefined].  Dropping the empty texts before joining changes nothing. *)
Theorem message_text (r : jsstring) :
  (forall s, messageText JSON_stringify (mkMessage r (Some (JStr s))) = Text s)
  /\ (forall items mapped,
         texts_of_parts items = Some mapped ->
         messageText JSON_stringify (mkMessage r (Some (JArr items)))
         = Text (if nonempty (List.concat mapped) then List.concat mapped
                 else JSON_stringify (JArr items)))
  /\ (forall items,
         In JNull items <-> texts_of_parts items = None)
  /\ (forall items,
         In JNull items ->
         messageText JSON_stringify (mkMessage r (Some (JArr items))) = TypeError)
  /\ (forall items,
         ~ In JNull items ->
         texts_of_parts items
         = Some (map (fun part =>
                        match as_string (get part (js "text")) with
                        | Some t => t
                        | None => []
                        end) items))
  /\ messageText JSON_stringify (mkMessage r None) = Undefined.
Proof.
  assert (Null : forall items, In JNull items <-> texts_of_parts items = None).
  { induction items as [|p items IH]; cbn [texts_of_parts In].
    - split; [tauto | discriminate].
    - destruct (text_of_part p) as [t|] eqn:Ep.
      + assert (Np : JNull <> p) by (intros <-; discriminate Ep).
        destruct (texts_of_parts items) as [ts|].
        * split; [intros [X|X]; [congruence | apply IH in X; discriminate X]
                 | discriminate].
        * split; [reflexivity | intros _; right; apply IH; reflexivity].
      + split; [reflexivity|]. intros _. left.
        destruct p; try reflexivity; cbn [text_of_part] in Ep;
          destruct (as_string _); discriminate Ep. }
  split; [reflexivity|]. split; [|split; [exact Null|split; [|split]]].
  - intros items mapped H. unfold messageText. cbn [content]. rewrite H.
    rewrite <- join_nonempty.
    destruct (filter nonempty mapped) as [|p ps] eqn:E.
    + reflexivity.
    + replace (nonempty (join [] (p :: ps))) with true; [reflexivity|].
      assert (Hp : In p (filter nonempty mapped)) by (rewrite E; left; reflexivity).
      apply filter_In in Hp. destruct Hp as [_ Hp].
      destruct p as [|c p]; [discriminate Hp|].
      destruct ps; reflexivity.
  - intros items H. apply Null in H. unfold messageText. cbn [content].
    rewrite H. reflexivity.
  - induction items as [|p items IH]; intros H; [reflexivity|].
    cbn [texts_of_parts map]. rewrite IH by (intros X; apply H; right; exact X).
    destruct p; try reflexivity; cbn [text_of_part];
      try (destruct (as_string _); reflexivity).
    exfalso. apply H. left. reflexivity.
  - reflexivity.
Qed.

(** X2: [buildResponseInput] throws exactly when some message has no text.
    Otherwise the instructions are the baseline, then what the system and
    developer messages say, in order, then the JSON directive when asked for,
    joined by blank lines; the input is the other messages that say
    something, in order, each as a turn of the user (an assistant's turn with
    the prefix [assistant: ]).  Messages that say nothing are dropped, so no
    turn is empty; a prompt given as a string is one turn, or none when it is
    blank. *)
Theorem request_shape (messages : list Message) (isJson : bool) :
  (Forall (has_text JSON_stringify) messages ->
   buildResponseInput JSON_stringify messages isJson
   = Some (mkPayload
             (map (rendered JSON_stringify)
                  (filter (speaks JSON_stringify) messages))
             (join [LF; LF]
                (js "You are a helpful assistant."
                 :: map (said JSON_stringify)
                        (filter (instructs JSON_stringify) messages)
                 ++ (if isJson then [js "Return valid JSON only."] else [])))))
  /\ (buildResponseInput JSON_stringify messages isJson = None
      <-> Exists (fun m => ~ has_text JSON_stringify m) messages)
  /\ (forall payload,
         buildResponseInput JSON_stringify messages isJson = Some payload ->
         List.length (input payload) <= List.length messages
         /\ Forall (fun item =>
                      item_type item = js "message"
                      /\ item_role item = js "user"
                      /\ exists text,
                           item_content item = [mkInputText (js "input_text") text]
                           /\ nonempty text = true)
                   (input payload))
  /\ (forall prompt,
         buildResponseInput JSON_stringify (formattedMessages (inl prompt)) isJson
         = Some (mkPayload
                   (if nonempty (trim prompt) then [user_turn (trim prompt)]
                    else [])
                   (join [LF; LF]
                      (js "You are a helpful assistant."
                       :: (if isJson then [js "Return valid JSON only."]
                           else []))))).
Proof.
  assert (Shape : Forall (has_text JSON_stringify) messages ->
   buildResponseInput JSON_stringify messages isJson
   = Some (mkPayload
             (map (rendered JSON_stringify)
                  (filter (speaks JSON_stringify) messages))
             (join [LF; LF]
                (js "You are a helpful assistant."
                 :: map (said JSON_stringify)
                        (filter (instructs JSON_stringify) messages)
                 ++ (if isJson then [js "Return valid JSON only."] else []))))).
  { intros H. unfold buildResponseInput.
    rewrite (map_messages_spec messages _ H), defined_speaks.
    destruct isJson.
    - reflexivity.
    - rewrite app_nil_r. reflexivity. }
  assert (Throws : buildResponseInput JSON_stringify messages isJson = None
      <-> Exists (fun m => ~ has_text JSON_stringify m) messages).
  { split.
    - intros H.
      destruct (Forall_Exists_dec (has_text JSON_stringify)) with (l := messages)
        as [F|E].
      + intros m. destruct (messageText JSON_stringify m) as [s| |] eqn:E.
        * left. exists s. exact E.
        * right. intros [s X]. rewrite E in X. discriminate X.
        * right. intros [s X]. rewrite E in X. discriminate X.
      + rewrite (Shape F) in H. discriminate H.
      + exact E.
    - intros H. unfold buildResponseInput.
      rewrite (map_messages_throws messages _ H). reflexivity. }
  split; [exact Shape|]. split; [exact Throws|]. split.
  2:{ intros prompt. unfold buildResponseInput. cbn [formattedMessages map_messages].
      unfold on_message. cbn [messageText content role].
      destruct (nonempty (trim prompt)); destruct isJson; reflexivity. }
  intros payload H.
  assert (F : Forall (has_text JSON_stringify) messages).
  { apply Forall_forall. intros m Hm.
    destruct (has_text_dec m) as [Y|N]; [exact Y|].
    exfalso.
    assert (E : Exists (fun m => ~ has_text JSON_stringify m) messages)
      by (apply Exists_exists; exists m; split; assumption).
    apply Throws in E. rewrite E in H. discriminate H. }
  rewrite (Shape F) in H. inversion H; subst payload; clear H. cbn [input].
  split.
  - rewrite length_map. apply filter_length_le.
  - apply Forall_forall. intros item Hi.
    apply in_map_iff in Hi. destruct Hi as [m [<- Hm]].
    apply filter_In in Hm. destruct Hm as [_ Hm].
    unfold speaks in Hm. apply andb_true_iff in Hm. destruct Hm as [Hs _].
    unfold rendered, user_turn. cbn [item_type item_role item_content].
    split; [reflexivity|]. split; [reflexivity|].
    eexists. split; [reflexivity|].
    destruct (eqb (role m) (js "assistant")); [reflexivity | exact Hs].
Qed.

End Text.

Lemma message_text_witness :
  messageText Encoding.stringify (mkMessage (js "developer") (Some Cases.in_parts))
  = Text (js "Use JSON")
  /\ messageText Encoding.stringify
       (mkMessage (js "user") (Some (JArr [JObj [(js "type", JStr (js "image_url"))]])))
     = Text (jsq "[{`type`:`image_url`}]")
  /\ messageText Encoding.stringify (mkMessage (js "user") (Some (JArr [JNull])))
     = TypeError.
Proof.
  destruct (message_text Encoding.stringify (js "developer"))
    as (_ & H2 & _ & _ & H5 & _).
  destruct (message_text Encoding.stringify (js "user"))
    as (_ & K2 & _ & K4 & K5 & _).
  split; [|split].
  - unfold Cases.in_parts. erewrite H2 by reflexivity. vm_compute. reflexivity.
  - erewrite K2 by reflexivity. vm_compute. reflexivity.
  - apply K4. left. reflexivity.
Defined.

Lemma request_shape_witness :
  buildResponseInput Encoding.stringify Cases.conversation true
  = Some (mkPayload
            [ user_turn (js "Hi"); user_turn (js "assistant: Hello") ]
            (js "You are a helpful assistant." ++ [LF; LF] ++ js "Be terse."
             ++ [LF; LF] ++ js "Use JSON" ++ [LF; LF]
             ++ js "Return valid JSON only."))
  /\ buildResponseInput Encoding.stringify
       [mkMessage (js "assistant") None] false = None
  /\ buildResponseInput Encoding.stringify
       (formattedMessages (inl (js "  2 + 2?  "))) false
     = Some (mkPayload [user_turn (js "2 + 2?")]
                       (js "You are a helpful assistant.")).
Proof.
  split; [|split].
  - destruct (request_shape Encoding.stringify Cases.conversation true)
      as (H1 & _).
    rewrite H1; [vm_compute; reflexivity|].
    repeat (constructor; [eexists; reflexivity|]). constructor.
  - destruct (request_shape Encoding.stringify
                [mkMessage (js "assistant") None] false) as (_ & H2 & _).
    apply H2. constructor. intros [s H]. discriminate H.
  - destruct (request_shape Encoding.stringify [] false) as (_ & _ & _ & H4).
    rewrite H4. vm_compute. reflexivity.
Defined.

End RequestFacts.

(** ** The calls of [llm] and the blocks of a stream *)

Module TraceFacts.
Import Gateway JsFacts GatewayFacts Trace TextFacts Scenarios.

Section Calls.
Context {rt : Runtime}.
Variable fetch : jsstring -> nat -> fetched.

Lemma traced_called c n last e r :
  callCodex (fetch c n) = Threw e -> fatal e = false ->
  traced fetch (S n) (Some e) (snd r) (fst r) ->
  traced fetch n last (snd (called c r)) (fst (called c r)).
Proof.
  intros C F T. destruct r as [out calls]. cbn [called fst snd] in *.
  destruct calls as [|c' calls].
  - cbn [traced lastError_or_default] in *. rewrite C. exact T.
  - cbn [traced]. exists e. auto.
Qed.

Lemma traced_resume c k rest n last :
  (forall n last,
      traced fetch n last (snd (candidates fetch rest n last))
             (fst (candidates fetch rest n last))) ->
  traced fetch n last (snd (resume fetch c k rest n last))
         (fst (resume fetch c k rest n last)).
Proof.
  intros Hrest. revert n last; induction k as [|k IH]; intros n last.
  - rewrite resume_done. apply Hrest.
  - destruct (callCodex (fetch c n)) as [v|e] eqn:C.
    + rewrite (resume_returned fetch c k rest n last v C). cbn. congruence.
    + destruct (fatal e) eqn:F.
      * rewrite (resume_fatal fetch c k rest n last e C F). cbn. congruence.
      * destruct (bad_request e) eqn:B.
        -- rewrite (resume_bad_request fetch c k rest n last e C F B).
           apply (traced_called c n last e _ C F), Hrest.
        -- rewrite (resume_retry fetch c k rest n last e C F B).
           apply (traced_called c n last e _ C F), IH.
Qed.

Lemma traced_candidates cs n last :
  traced fetch n last (snd (candidates fetch cs n last))
         (fst (candidates fetch cs n last)).
Proof.
  revert n last; induction cs as [|c rest IH]; intros n last.
  - destruct last; reflexivity.
  - rewrite candidates_cons. apply traced_resume, IH.
Qed.

Lemma traced_last calls : forall n last out before c,
  traced fetch n last calls out -> calls = before ++ [c] ->
  out = callCodex (fetch c (n + List.length before)).
Proof.
  induction calls as [|c0 later IH]; intros n last out before c T E.
  - destruct before; discriminate E.
  - destruct before as [|b before]; cbn [app] in E; inversion E; subst.
    + cbn [traced] in T. rewrite Nat.add_0_r. exact T.
    + cbn [traced] in T.
      destruct (before ++ [c]) as [|x l] eqn:El;
        [destruct before; discriminate El|].
      destruct T as [e [_ [_ T]]].
      rewrite (IH (S n) (Some e) out before c T (eq_sym El)).
      cbn [List.length]. f_equal. f_equal. lia.
Qed.

Lemma traced_earlier calls : forall n last out before c after,
  traced fetch n last calls out -> calls = before ++ c :: after ->
  after <> [] -> went_on fetch c (n + List.length before).
Proof.
  induction calls as [|c0 later IH]; intros n last out before c after T E NE.
  - destruct before; discriminate E.
  - destruct before as [|b before]; cbn [app] in E; inversion E; subst.
    + cbn [traced] in T. destruct after as [|a after]; [congruence|].
      destruct T as [e [C [F _]]]. rewrite Nat.add_0_r. exists e. auto.
    + cbn [traced] in T.
      destruct (before ++ c :: after) as [|x l] eqn:El;
        [destruct before; discriminate El|].
      destruct T as [e [_ [_ T]]].
      pose proof (IH (S n) (Some e) out before c after T (eq_sym El) NE) as W.
      cbn [List.length]. replace (n + S (List.length before))
        with (S n + List.length before) by lia. exact W.
Qed.

Lemma calls_nonempty c rest n last :
  snd (candidates fetch (c :: rest) n last) <> [].
Proof.
  rewrite candidates_cons.
  destruct (callCodex (fetch c n)) as [v|e] eqn:C.
  - rewrite (resume_returned fetch c 2 rest n last v C). discriminate.
  - destruct (fatal e) eqn:F.
    + rewrite (resume_fatal fetch c 2 rest n last e C F). discriminate.
    + destruct (bad_request e) eqn:B.
      * rewrite (resume_bad_request fetch c 2 rest n last e C F B). discriminate.
      * rewrite (resume_retry fetch c 2 rest n last e C F B). discriminate.
Qed.

(** X3: What [llm] ends with is what its last call ended with, and every
    call before the last one threw an error the loops go on after (no
    status, 400, 429, 500 or 503): a value is returned by the first call
    that returns, an error of an earlier call is thrown only if no call came
    after it.  Without a candidate the last error known, or
    [Codex request failed], is thrown. *)
Theorem outcome_is_the_last_call (cs : list jsstring) (n : nat)
    (last : option JsError) :
  let r := candidates fetch cs n last in
  (forall before c,
      snd r = before ++ [c] ->
      fst r = callCodex (fetch c (n + List.length before)))
  /\ (forall before c after,
         snd r = before ++ c :: after -> after <> [] ->
         exists e,
           callCodex (fetch c (n + List.length before)) = Threw e
           /\ fatal e = false)
  /\ (snd r = [] <-> cs = [])
  /\ (cs = [] -> fst r = Threw (lastError_or_default last)).
Proof.
  intros r. pose proof (traced_candidates cs n last) as T. fold r in T.
  split; [|split; [|split]].
  - intros before c E. exact (traced_last _ _ _ _ _ _ T E).
  - intros before c after E NE. exact (traced_earlier _ _ _ _ _ _ _ T E NE).
  - split.
    + intros E. destruct cs as [|c rest]; [reflexivity|].
      exfalso. exact (calls_nonempty c rest n last E).
    + intros ->. subst r. destruct last; reflexivity.
  - intros ->. subst r. destruct last; reflexivity.
Qed.

Lemma blocks_resume c k rest n last :
  (forall n last, exists ks,
      List.length ks = List.length rest /\ Forall (fun j => j <= 3) ks
      /\ snd (candidates fetch rest n last) = blocks rest ks) ->
  exists j ks,
    j <= k /\ List.length ks = List.length rest /\ Forall (fun j => j <= 3) ks
    /\ snd (resume fetch c k rest n last) = repeat c j ++ blocks rest ks.
Proof.
  intros Hrest. revert n last; induction k as [|k IH]; intros n last.
  - rewrite resume_done. destruct (Hrest n last) as [ks [L [F E]]].
    exists 0, ks. repeat split; auto.
  - assert (Z : exists ks : list nat,
               List.length ks = List.length rest
               /\ Forall (fun j => j <= 3) ks /\ blocks rest ks = []).
    { exists (repeat 0 (List.length rest)). split; [apply repeat_length|].
      split; [apply Forall_forall; intros x Hx; apply repeat_spec in Hx; lia|].
      clear. induction rest as [|c rest IH]; [reflexivity | exact IH]. }
    destruct (callCodex (fetch c n)) as [v|e] eqn:C.
    + rewrite (resume_returned fetch c k rest n last v C).
      destruct Z as [ks [L [F E]]]. exists 1, ks. rewrite E.
      repeat split; auto; lia.
    + destruct (fatal e) eqn:F.
      * rewrite (resume_fatal fetch c k rest n last e C F).
        destruct Z as [ks [L [F' E]]]. exists 1, ks. rewrite E.
        repeat split; auto; lia.
      * destruct (bad_request e) eqn:B.
        -- rewrite (resume_bad_request fetch c k rest n last e C F B).
           destruct (Hrest (S n) (Some e)) as [ks [L [F' E]]].
           exists 1, ks. cbn [called snd]. rewrite E.
           repeat split; auto; lia.
        -- rewrite (resume_retry fetch c k rest n last e C F B).
           destruct (IH (S n) (Some e)) as [j [ks [J [L [F' E]]]]].
           exists (S j), ks. cbn [called snd]. rewrite E.
           repeat split; auto; lia.
Qed.

Lemma blocks_candidates cs : forall n last,
  exists ks,
    List.length ks = List.length cs /\ Forall (fun j => j <= 3) ks
    /\ snd (candidates fetch cs n last) = blocks cs ks.
Proof.
  induction cs as [|c rest IH]; intros n last.
  - exists []. destruct last; repeat split; constructor.
  - rewrite candidates_cons.
    destruct (blocks_resume c 3 rest n last IH) as [j [ks [J [L [F E]]]]].
    exists (j :: ks). cbn [List.length blocks]. rewrite L.
    repeat split; auto.
Qed.

Lemma blocks_length cs : forall ks,
  Forall (fun j => j <= 3) ks -> List.length (blocks cs ks) <= 3 * List.length cs.
Proof.
  induction cs as [|c cs IH]; intros ks F; [cbn; lia|].
  destruct ks as [|k ks]; [cbn; lia|].
  inversion F; subst. cbn [blocks]. rewrite length_app, repeat_length.
  specialize (IH ks H2). cbn [List.length]. lia.
Qed.

Lemma fallbackModels_length model : List.length (fallbackModels model) <= 6.
Proof.
  unfold fallbackModels.
  assert (G : forall items seen,
             List.length (set_from seen items) <= List.length items).
  { induction items as [|x items IH]; intros seen; cbn [set_from]; [lia|].
    destruct (existsb (eqb x) seen); cbn [List.length];
      [specialize (IH seen) | specialize (IH (seen ++ [x]))]; lia. }
  apply (G (model :: priority) []).
Qed.

(** X4: The calls of a request go through the chain once, front to back:
    at most three calls in a row for a candidate, then calls for later
    candidates only, never again for an earlier one.  A request makes at most
    three calls per candidate of the chain, so at most eighteen, and none at
    all when no credential is connected. *)
Theorem calls_follow_the_chain :
  (forall cs n last,
      exists ks,
        List.length ks = List.length cs /\ Forall (fun j => j <= 3) ks
        /\ snd (candidates fetch cs n last) = blocks cs ks)
  /\ (forall cs n last,
         List.length (snd (candidates fetch cs n last)) <= 3 * List.length cs)
  /\ (forall (T : Type) (auth : option T) model,
         List.length (snd (llm fetch T auth model)) <= 18)
  /\ (forall (T : Type) model, snd (llm fetch T None model) = []).
Proof.
  split; [exact blocks_candidates|]. split; [|split].
  - intros cs n last. destruct (blocks_candidates cs n last) as [ks [L [F E]]].
    rewrite E. apply blocks_length, F.
  - intros T auth model. destruct auth as [a|]; [|cbn; lia].
    cbn [llm].
    destruct (blocks_candidates (fallbackModels model) 0 None) as [ks [L [F E]]].
    rewrite E. pose proof (blocks_length (fallbackModels model) ks F).
    pose proof (fallbackModels_length model). lia.
  - reflexivity.
Qed.

End Calls.

Section Reading.
Context {rt : Runtime}.

Lemma read_loop_broken values e st : read_loop values (Some e) st = Threw e.
Proof.
  revert st; induction values as [|v values IH]; intros st; [reflexivity|].
  apply IH.
Qed.

(** X5: [callCodex] throws in three cases only: [fetch] rejected, the
    response is not ok (the error then carries the status, and its message is
    the status followed by the body when there is one), or a read of the body
    rejected, in which case what was decoded so far is lost.  A response
    that is ok and whose body ends is never an error, whatever it holds. *)
Theorem callCodex_throws (f : fetched) (e : JsError) :
  callCodex f = Threw e
  <-> f = FetchThrew e
      \/ (exists r,
             f = Fetched r /\ ok r = false
             /\ (resp_text r = inr e
                 \/ exists text,
                      resp_text r = inl text
                      /\ e = mkError (status_message (resp_status r) text)
                                     (Some (resp_status r))))
      \/ (exists r values,
             f = Fetched r /\ ok r = true
             /\ resp_body r = Some (mkStream values (Some e))).
Proof.
  split.
  - destruct f as [e0|r]; cbn [callCodex].
    + intros H. left. congruence.
    + destruct (ok r) eqn:O; cbn [negb].
      * destruct (resp_body r) as [[values [e0|]]|] eqn:B.
        -- unfold read_stream. cbn [chunks broken]. rewrite read_loop_broken.
           intros H. right. right. exists r, values. split; [reflexivity|].
           split; [exact O|]. congruence.
        -- unfold read_stream. cbn [chunks broken].
           destruct (read_loop_returns values (decoder_new, [], JStr []))
             as [output ->]. discriminate.
        -- discriminate.
      * destruct (resp_text r) as [text|e0] eqn:T.
        -- intros H. right. left. exists r. split; [reflexivity|].
           split; [exact O|]. right. exists text. split; [exact T|].
           unfold status_message. congruence.
        -- intros H. right. left. exists r. split; [reflexivity|].
           split; [exact O|]. left. congruence.
  - intros [->|[[r [-> [O [T|[text [T ->]]]]]]|[r [values [-> [O B]]]]]];
      cbn [callCodex].
    + reflexivity.
    + rewrite O, T. reflexivity.
    + rewrite O, T. reflexivity.
    + rewrite O, B. unfold read_stream. cbn [negb chunks broken].
      apply read_loop_broken.
Qed.

Lemma read_loop_app v1 v2 broken st :
  read_loop (v1 ++ v2) broken st = read_loop v2 broken (fold_left on_chunk v1 st).
Proof.
  revert st; induction v1 as [|v v1 IH]; intros st; [reflexivity|].
  cbn [app read_loop fold_left]. apply IH.
Qed.

Lemma on_chunk_nil : on_chunk (decoder_new, [], JStr []) [] = (decoder_new, [], JStr []).
Proof. reflexivity. Qed.

Lemma fold_on_chunk_seen values : forall st seen,
  fold_left on_chunk values (on_chunk st seen)
  = on_chunk st (seen ++ List.concat values).
Proof.
  induction values as [|v values IH]; intros st seen.
  - cbn [fold_left List.concat]. rewrite app_nil_r. reflexivity.
  - cbn [fold_left List.concat]. rewrite on_chunk_app, IH, app_assoc.
    reflexivity.
Qed.

Lemma fold_on_chunk values :
  fold_left on_chunk values (decoder_new, [], JStr [])
  = on_chunk (decoder_new, [], JStr []) (List.concat values).
Proof.
  rewrite <- on_chunk_nil at 1. apply fold_on_chunk_seen.
Qed.

(** X6: A block is acted on only once the blank line that ends it has
    arrived.  When the last read brings no blank line (the text it adds to
    what was left open has none), the result is the one the earlier reads
    gave: what stands after the last blank line of a body is dropped. *)
Theorem unterminated_block_is_dropped (values : list (list byte))
    (tail : list byte) :
  let seen := decode decoder_new (List.concat values) in
  let left_open := last (split [LF; LF] (snd seen)) [] in
  List.length (split [LF; LF] (left_open ++ snd (decode (fst seen) tail))) = 1 ->
  read_stream (mkStream (values ++ [tail]) None)
  = read_stream (mkStream values None).
Proof.
  intros seen left_open H. subst left_open seen.
  unfold read_stream. cbn [chunks broken].
  rewrite read_loop_app. cbn [read_loop].
  rewrite <- (app_nil_r values) at 2. rewrite read_loop_app. cbn [read_loop].
  f_equal. rewrite fold_on_chunk.
  unfold on_chunk. cbn [app].
  destruct (decode decoder_new (List.concat values)) as [d1 s1].
  cbn [fst snd] in *.
  destruct (decode d1 tail) as [d2 s2]. cbn [fst snd] in *.
  destruct (split [LF; LF] (last (split [LF; LF] s1) [] ++ s2)) as [|p [|q ps]];
    try discriminate H.
  reflexivity.
Qed.

(** X7: The payload of a block is made of its data lines alone: the lines
    that start with [data:] are kept in order, each without these five
    characters and trimmed, and joined by line feeds; every other line (a
    comment, [event:], [id:]) is ignored, and a block with no data line has
    no payload and leaves the output as it is. *)
Theorem payload_of_a_block (lines : list jsstring) :
  lines <> [] -> Forall (fun line => ~ In LF line) lines ->
  data_of (join [LF] lines)
  = match filter is_data lines with
    | [] => None
    | _ :: _ => Some (join [LF] (map carried (filter is_data lines)))
    end
  /\ (filter is_data lines <> [] ->
      data_of (join [LF] lines) = data_of (join [LF] (filter is_data lines)))
  /\ (filter is_data lines = [] ->
      forall output, on_part output (join [LF] lines) = output).
Proof.
  intros NE F.
  assert (E : data_of (join [LF] lines)
              = match filter is_data lines with
                | [] => None
                | _ :: _ => Some (join [LF] (map carried (filter is_data lines)))
                end).
  { unfold data_of. rewrite (split_join LF lines NE F). reflexivity. }
  split; [exact E|]. split.
  - intros ND. rewrite E.
    destruct (filter is_data lines) as [|d ds] eqn:D; [congruence|].
    unfold data_of. rewrite split_join.
    + rewrite <- D.
      assert (I : forall l : list jsstring, filter is_data (filter is_data l) = filter is_data l).
      { induction l as [|x l IH]; [reflexivity|]. cbn [filter].
        destruct (is_data x) eqn:X; cbn [filter]; rewrite ?X, IH; reflexivity. }
      fold is_data. rewrite I, D. reflexivity.
    + discriminate.
    + rewrite <- D. apply Forall_forall. intros x Hx.
      apply filter_In in Hx. destruct Hx as [Hx _].
      rewrite Forall_forall in F. apply F, Hx.
  - intros D output. unfold on_part. rewrite E, D. reflexivity.
Qed.

End Reading.

Lemma outcome_is_the_last_call_witness :
  snd (@candidates node fetch_400_then_busy [A; B] 0 None) = [A; B; B; B]
  /\ fst (@candidates node fetch_400_then_busy [A; B] 0 None)
     = @callCodex node (fetch_400_then_busy B 3)
  /\ (exists e,
         @callCodex node (fetch_400_then_busy B 2) = Threw e /\ fatal e = false)
  /\ fst (@candidates node fetch_500 [] 7 None)
     = Threw (mkError (js "Codex request failed") None).
Proof.
  destruct (@outcome_is_the_last_call node fetch_400_then_busy [A; B] 0 None)
    as (H1 & H2 & _).
  destruct (@outcome_is_the_last_call node fetch_500 [] 7 None)
    as (_ & _ & _ & K4).
  split; [reflexivity|]. split; [|split].
  - exact (H1 [A; B; B] B eq_refl).
  - exact (H2 [A; B] B [B] eq_refl ltac:(discriminate)).
  - exact (K4 eq_refl).
Defined.

Lemma calls_follow_the_chain_witness :
  snd (@candidates node fetch_500 [A; B] 0 None) = blocks [A; B] [3; 3]
  /\ snd (@candidates node fetch_400_then_busy [A; B] 0 None) = blocks [A; B] [1; 3]
  /\ List.length (snd (@llm node fetch_500 unit (Some tt) (js "gpt-5.1-codex")))
     <= 18
  /\ snd (@llm node fetch_500 unit None (js "gpt-5.1-codex")) = [].
Proof.
  destruct (@calls_follow_the_chain node fetch_500) as (_ & _ & H3 & H4).
  split; [reflexivity|]. split; [reflexivity|]. split.
  - apply H3.
  - apply H4.
Defined.

Lemma callCodex_throws_witness :
  @callCodex node (answers 500 "boom" None)
  = Threw (mkError (js "500 boom") (Some 500%N))
  /\ @callCodex node
       (Fetched (mkResponse 200 (inl [])
                   (Some (mkStream [Cases.closed_event] (Some Cases.cut_off)))))
     = Threw Cases.cut_off.
Proof.
  split.
  - apply (@callCodex_throws node). right. left. eexists.
    split; [reflexivity|]. split; [reflexivity|]. right. eexists.
    split; reflexivity.
  - apply (@callCodex_throws node). right. right. eexists. eexists.
    split; [reflexivity|]. split; reflexivity.
Defined.

Lemma unterminated_block_is_dropped_witness :
  @read_stream node (mkStream [Cases.closed_event; Cases.open_event] None)
  = @read_stream node (mkStream [Cases.closed_event] None)
  /\ @read_stream node (mkStream [Cases.closed_event] None)
     = Returned (JStr (js "Hel"))
  /\ @read_stream node (mkStream [Cases.open_event] None) = Returned (JStr []).
Proof.
  split; [|split].
  - apply (@unterminated_block_is_dropped node [Cases.closed_event]
             Cases.open_event).
    vm_compute. reflexivity.
  - vm_compute. reflexivity.
  - refine (eq_trans
              (@unterminated_block_is_dropped node [] Cases.open_event _) _);
      vm_compute; reflexivity.
Defined.

Lemma payload_of_a_block_witness :
  @data_of (join [LF] Cases.block_lines)
  = Some (jsq "{`type`:" ++ [LF] ++ jsq "`none`}")
  /\ @data_of (js ": keep-alive" ++ [LF] ++ js "event: message") = None.
Proof.
  split.
  - destruct (@payload_of_a_block node Cases.block_lines) as (H1 & _).
    + discriminate.
    + repeat (constructor; [vm_compute; intuition discriminate|]). constructor.
    + rewrite H1. vm_compute. reflexivity.
  - destruct (@payload_of_a_block node [js ": keep-alive"; js "event: message"])
      as (H1 & _).
    + discriminate.
    + repeat (constructor; [vm_compute; intuition discriminate|]). constructor.
    + exact H1.
Defined.

End TraceFacts.

(** ** PKCE codes, the state token and the requests of the issuer *)

Module EncodingFacts.
Import OAuth Encoding Authorize JsFacts.

Ltac euclid := zify; Z.to_euclidean_division_equations; lia.

Lemma below_64 (v : N) : (v < 64)%N -> In v (map N.of_nat (seq 0 64)).
Proof.
  intros H. apply in_map_iff. exists (N.to_nat v). split; [apply N2Nat.id|].
  apply in_seq. lia.
Qed.

Lemma url_char_spec (v : N) :
  (v < 64)%N ->
  Reference.sextet (url_char v) = Some v
  /\ N.eqb (url_char v) 61 = false
  /\ url_safe (url_char v) = true.
Proof.
  intros H. apply below_64 in H. revert v H. apply Forall_forall.
  repeat (constructor; [vm_compute; repeat split; reflexivity|]). constructor.
Qed.

Lemma strip_trailing_cons (c x : N) (s : jsstring) :
  N.eqb x c = false -> strip_trailing c (x :: s) = x :: strip_trailing c s.
Proof.
  intros H. cbn [strip_trailing]. rewrite H.
  destruct (strip_trailing c s); reflexivity.
Qed.

Lemma encoded_3 a b c l :
  (a < 256)%N -> (b < 256)%N -> (c < 256)%N ->
  encoded (a :: b :: c :: l)
  = url_char (a / 4) :: url_char ((a mod 4) * 16 + b / 16)
    :: url_char ((b mod 16) * 4 + c / 64) :: url_char (c mod 64) :: encoded l.
Proof.
  intros A B C. unfold encoded. cbn [base64 replace_all map].
  fold (url_char (a / 4)) (url_char ((a mod 4) * 16 + b / 16))
       (url_char ((b mod 16) * 4 + c / 64)) (url_char (c mod 64)).
  do 4 (rewrite strip_trailing_cons by (apply url_char_spec; euclid)).
  reflexivity.
Qed.

Lemma encoded_2 a b :
  (a < 256)%N -> (b < 256)%N ->
  encoded [a; b]
  = [ url_char (a / 4); url_char ((a mod 4) * 16 + b / 16);
      url_char ((b mod 16) * 4) ].
Proof.
  intros A B. unfold encoded. cbn [base64 replace_all map].
  fold (url_char (a / 4)) (url_char ((a mod 4) * 16 + b / 16))
       (url_char ((b mod 16) * 4)).
  do 3 (rewrite strip_trailing_cons by (apply url_char_spec; euclid)).
  reflexivity.
Qed.

Lemma encoded_1 a :
  (a < 256)%N -> encoded [a] = [ url_char (a / 4); url_char ((a mod 4) * 16) ].
Proof.
  intros A. unfold encoded. cbn [base64 replace_all map].
  fold (url_char (a / 4)) (url_char ((a mod 4) * 16)).
  do 2 (rewrite strip_trailing_cons by (apply url_char_spec; euclid)).
  reflexivity.
Qed.

(** Induction three octets at a time. *)
Lemma by_threes (P : list N -> Prop) :
  P [] -> (forall a, P [a]) -> (forall a b, P [a; b]) ->
  (forall a b c l, P l -> P (a :: b :: c :: l)) ->
  forall l, P l.
Proof.
  intros P0 P1 P2 P3 l.
  assert (H : P l /\ (forall a, P (a :: l)) /\ (forall a b, P (a :: b :: l))).
  { induction l as [|c l [IH0 [IH1 IH2]]]; [auto|].
    split; [apply IH1|]. split; [intros a; apply IH2|].
    intros a b. apply P3, IH0. }
  apply H.
Qed.

Lemma sextets_cons v s :
  (v < 64)%N ->
  Reference.sextets (url_char v :: s) = v :: Reference.sextets s.
Proof.
  intros H. destruct (url_char_spec v H) as [S [E _]].
  cbn [Reference.sextets]. rewrite E, S. reflexivity.
Qed.

Lemma encoded_spec (l : list N) :
  Forall (fun a => (a < 256)%N) l ->
  Forall (fun c => url_safe c = true) (encoded l)
  /\ List.length (encoded l) = (4 * List.length l + 2) / 3
  /\ Reference.octets (Reference.sextets (encoded l)) = l.
Proof.
  induction l as [| a | a b | a b c l IH] using by_threes; intros F.
  - repeat split; constructor.
  - inversion F as [|? ? A _]; subst. rewrite (encoded_1 a A).
    split; [|split].
    + repeat constructor; apply url_char_spec; euclid.
    + reflexivity.
    + rewrite !sextets_cons by euclid. cbn [Reference.sextets Reference.octets].
      f_equal. euclid.
  - inversion F as [|? ? A F1]; subst. inversion F1 as [|? ? B _]; subst.
    rewrite (encoded_2 a b A B). split; [|split].
    + repeat constructor; apply url_char_spec; euclid.
    + reflexivity.
    + rewrite !sextets_cons by euclid. cbn [Reference.sextets Reference.octets].
      f_equal; [euclid|]. f_equal. euclid.
  - inversion F as [|? ? A F1]; subst. inversion F1 as [|? ? B F2]; subst.
    inversion F2 as [|? ? C F3]; subst.
    destruct (IH F3) as [Safe [L R]].
    rewrite (encoded_3 a b c l A B C). split; [|split].
    + repeat (constructor; [apply url_char_spec; euclid|]). exact Safe.
    + cbn [List.length]. rewrite L.
      replace (4 * S (S (S (List.length l))) + 2)
        with (4 * List.length l + 2 + 4 * 3) by lia.
      rewrite Nat.div_add by lia. lia.
    + rewrite !sextets_cons by euclid. cbn [Reference.octets]. rewrite R.
      f_equal; [euclid|]. f_equal; [euclid|]. f_equal. euclid.
Qed.

Lemma octets_bounded (buffer : list byte) :
  Forall (fun a => (a < 256)%N) (map Byte.to_N buffer).
Proof.
  apply Forall_forall. intros a H. apply in_map_iff in H.
  destruct H as [b [<- _]]. pose proof (Byte.to_N_bounded b). lia.
Qed.

(** X8: [base64UrlEncode] writes a buffer of [n] octets as
    [ceil(4n/3)] characters of the alphabet of base64url (letters, digits,
    [-] and [_]; no [+], [/] or [=]), and decoding that text as base64url
    gives the buffer back. *)
Theorem base64url_round_trip (buffer : list byte) :
  Forall (fun c => url_safe c = true) (base64UrlEncode buffer)
  /\ List.length (base64UrlEncode buffer) = (4 * List.length buffer + 2) / 3
  /\ Reference.octets (Reference.sextets (base64UrlEncode buffer))
     = map Byte.to_N buffer.
Proof.
  change (base64UrlEncode buffer) with (encoded (map Byte.to_N buffer)).
  destruct (encoded_spec (map Byte.to_N buffer) (octets_bounded buffer))
    as [Safe [L R]].
  rewrite length_map in L. split; [exact Safe|]. split; [exact L | exact R].
Qed.

Lemma chars_length : List.length chars = 66.
Proof. reflexivity. Qed.

Lemma chars_unreserved : Forall (fun c => unreserved c = true) chars.
Proof. repeat (constructor; [reflexivity|]). constructor. Qed.

Lemma unreserved_in_chars c : unreserved c = true -> In c chars.
Proof.
  intros H.
  assert (B : (c < 127)%N).
  { unfold unreserved, is_alphanumeric in H.
    rewrite !orb_true_iff, !andb_true_iff, !N.leb_le in H. cbn [existsb] in H.
    rewrite !orb_true_iff, !N.eqb_eq in H. lia. }
  assert (I : In c (map N.of_nat (seq 0 127))).
  { apply in_map_iff. exists (N.to_nat c). split; [apply N2Nat.id|].
    apply in_seq. lia. }
  clear B. revert c I H.
  apply (proj1 (Forall_forall
                  (fun c => unreserved c = true -> In c chars)
                  (map N.of_nat (seq 0 127)))).
  repeat (constructor;
          [ first [ intros X; discriminate X
                  | intros _; vm_compute; tauto ] |]).
  constructor.
Qed.

Lemma random_char (b : byte) :
  exists c,
    nth_error chars (N.to_nat (Byte.to_N b) mod List.length chars) = Some c
    /\ In c chars /\ unreserved c = true.
Proof.
  destruct (nth_error chars (N.to_nat (Byte.to_N b) mod List.length chars))
    as [c|] eqn:E.
  - exists c. split; [reflexivity|].
    pose proof (nth_error_In _ _ E) as I. split; [exact I|].
    pose proof chars_unreserved as U. rewrite Forall_forall in U. apply U, I.
  - apply nth_error_None in E. rewrite chars_length in E.
    pose proof (Nat.mod_upper_bound (N.to_nat (Byte.to_N b)) 66). lia.
Qed.

Lemma generateRandomString_length (bytes : list byte) :
  List.length (generateRandomString bytes) = List.length bytes.
Proof.
  unfold generateRandomString. induction bytes as [|b bytes IH]; [reflexivity|].
  cbn [flat_map]. destruct (random_char b) as [c [-> _]]. cbn.
  rewrite IH. reflexivity.
Qed.

Lemma generateRandomString_chars (bytes : list byte) :
  Forall (fun c => In c chars /\ unreserved c = true)
         (generateRandomString bytes).
Proof.
  unfold generateRandomString. induction bytes as [|b bytes IH]; [constructor|].
  cbn [flat_map]. destruct (random_char b) as [c [-> I]].
  constructor; assumption.
Qed.

(** X9: [generateRandomString] gives one character for each random octet,
    so a string of the length asked for, and every character is one of the
    66 unreserved characters (letters, digits, [-], [.], [_], [~]): the index
    [b % 66] never leaves the alphabet.  Every unreserved character can
    come out. *)
Theorem random_string_alphabet (bytes : list byte) :
  List.length (generateRandomString bytes) = List.length bytes
  /\ Forall (fun c => In c chars /\ unreserved c = true)
            (generateRandomString bytes)
  /\ (forall c, unreserved c = true ->
        exists b, generateRandomString [b] = [c]).
Proof.
  split; [apply generateRandomString_length|].
  split; [apply generateRandomString_chars|].
  intros c U. apply unreserved_in_chars in U.
  apply In_nth_error in U. destruct U as [n E].
  assert (L : n < 66).
  { rewrite <- chars_length. apply nth_error_Some. congruence. }
  assert (B : (N.of_nat n < 256)%N) by lia.
  destruct (Byte.of_N (N.of_nat n)) as [b|] eqn:Eb.
  - exists b. unfold generateRandomString. cbn [flat_map].
    apply Byte.to_of_N in Eb. rewrite Eb, Nat2N.id, chars_length.
    rewrite Nat.mod_small by exact L. rewrite E. reflexivity.
  - apply Byte.of_N_None_iff in Eb. lia.
Qed.

Section Pkce.
Variable digest : jsstring -> list byte.

(** X10: The codes of an authorization have the form RFC 7636 asks for:
    drawn from 43 random octets the verifier has 43 unreserved characters;
    the challenge is the base64url text of the digest of the verifier, 43
    characters when the digest has 32 octets, and decodes back to that
    digest; the state token drawn from 32 octets has 43 characters of the
    base64url alphabet. *)
Theorem pkce_codes_are_well_formed (bytes : list byte) :
  List.length bytes = 43 ->
  List.length (digest (generateRandomString bytes)) = 32 ->
  let codes := generatePKCE digest bytes in
  List.length (verifier codes) = 43
  /\ Forall (fun c => unreserved c = true) (verifier codes)
  /\ List.length (challenge codes) = 43
  /\ Forall (fun c => url_safe c = true) (challenge codes)
  /\ Reference.octets (Reference.sextets (challenge codes))
     = map Byte.to_N (digest (verifier codes))
  /\ (forall random,
         List.length random = 32 ->
         List.length (generateState random) = 43
         /\ Forall (fun c => url_safe c = true) (generateState random)).
Proof.
  intros L D codes. subst codes. unfold generatePKCE. cbn [verifier challenge].
  pose proof (generateRandomString_length bytes) as Lv.
  pose proof (generateRandomString_chars bytes) as Fv.
  change (base64UrlEncode (digest (generateRandomString bytes)))
    with (encoded (map Byte.to_N (digest (generateRandomString bytes)))).
  destruct (encoded_spec _ (octets_bounded (digest (generateRandomString bytes))))
    as [Safe [Lc R]].
  rewrite length_map in Lc.
  split; [congruence|]. split.
  { apply Forall_forall. intros c Hc. rewrite Forall_forall in Fv.
    apply Fv, Hc. }
  split; [rewrite Lc, D; reflexivity|]. split; [exact Safe|]. split; [exact R|].
  intros random Lr. unfold generateState.
  change (base64UrlEncode random) with (encoded (map Byte.to_N random)).
  destruct (encoded_spec _ (octets_bounded random)) as [Safe' [L' _]].
  rewrite length_map in L'.
  split; [rewrite L', Lr; reflexivity | exact Safe'].
Qed.

End Pkce.

Lemma hex_digit_clean v : structural (hex_digit v) = false.
Proof.
  unfold hex_digit.
  destruct (nth_in_or_default (N.to_nat v) (js "0123456789ABCDEF") 48%N) as [I| ->];
    [|reflexivity].
  revert I. generalize (nth (N.to_nat v) (js "0123456789ABCDEF") 48%N) as c.
  apply Forall_forall. repeat (constructor; [reflexivity|]). constructor.
Qed.

Lemma plain_clean c : plain c = true -> structural c = false.
Proof.
  unfold plain, structural, is_alphanumeric. cbn [existsb].
  rewrite !orb_true_iff, !andb_true_iff, !N.leb_le, !N.eqb_eq.
  intros H. rewrite !orb_false_iff, !N.eqb_neq. lia.
Qed.

Lemma urlencoded_octet_clean b :
  Forall (fun c => structural c = false) (urlencoded_octet b).
Proof.
  unfold urlencoded_octet. destruct (N.eqb b 32); [repeat constructor|].
  fold (plain b). destruct (plain b) eqn:P.
  - constructor; [apply plain_clean, P | constructor].
  - repeat constructor; apply hex_digit_clean.
Qed.

Lemma urlencoded_clean s : Forall (fun c => structural c = false) (urlencoded s).
Proof.
  unfold urlencoded. induction (utf8_encode s) as [|b l IH]; [constructor|].
  cbn [flat_map]. apply Forall_app. split; [apply urlencoded_octet_clean | exact IH].
Qed.

Lemma clean_ampersands s :
  Forall (fun c => structural c = false) s -> ampersands s = 0.
Proof.
  unfold ampersands. induction 1 as [|c s H _ IH]; [reflexivity|].
  cbn [count_occ]. destruct (N.eq_dec c 38) as [->|]; [discriminate H | exact IH].
Qed.

Lemma ampersands_app s t : ampersands (s ++ t) = ampersands s + ampersands t.
Proof. apply count_occ_app. Qed.

Lemma plain_octet c : plain c = true -> urlencoded_octet c = [c].
Proof.
  intros P. unfold urlencoded_octet. fold (plain c). rewrite P.
  destruct (N.eqb_spec c 32) as [->|]; [discriminate P | reflexivity].
Qed.

Lemma plain_ascii c : plain c = true -> (c < 128)%N.
Proof.
  unfold plain, is_alphanumeric. cbn [existsb].
  rewrite !orb_true_iff, !andb_true_iff, !N.leb_le, !N.eqb_eq. lia.
Qed.

Lemma ascii_scalar_values s :
  Forall (fun c => (c < 128)%N) s -> scalar_values s = s.
Proof.
  induction 1 as [|c s H _ IH]; [reflexivity|].
  cbn [scalar_values].
  replace ((55296 <=? c)%N) with false by (symmetry; apply N.leb_gt; lia).
  replace ((56320 <=? c)%N) with false by (symmetry; apply N.leb_gt; lia).
  cbn [andb]. rewrite IH. reflexivity.
Qed.

Lemma urlencoded_ascii s :
  Forall (fun c => (c < 128)%N) s -> urlencoded s = flat_map urlencoded_octet s.
Proof.
  intros F. unfold urlencoded, utf8_encode. rewrite (ascii_scalar_values s F).
  induction F as [|c s H _ IH]; [reflexivity|].
  cbn [flat_map]. rewrite flat_map_app, IH. unfold utf8_of_scalar.
  replace ((c <? 128)%N) with true by (symmetry; apply N.ltb_lt; exact H).
  cbn [flat_map]. rewrite app_nil_r. reflexivity.
Qed.

Lemma urlencoded_plain s :
  Forall (fun c => plain c = true) s -> urlencoded s = s.
Proof.
  intros F. rewrite urlencoded_ascii.
  - induction F as [|c s P _ IH]; [reflexivity|].
    cbn [flat_map]. rewrite (plain_octet c P), IH. reflexivity.
  - apply Forall_forall. intros c Hc. rewrite Forall_forall in F.
    apply plain_ascii, F, Hc.
Qed.

Lemma url_safe_plain s :
  Forall (fun c => url_safe c = true) s -> Forall (fun c => plain c = true) s.
Proof.
  apply Forall_impl. intros c. unfold url_safe, plain. cbn [existsb].
  rewrite !orb_true_iff. tauto.
Qed.

Lemma authorize_url_shape redirectUri pk st :
  buildAuthorizeUrl redirectUri pk st
  = js "https://auth.openai.com/oauth/authorize?response_type=code&client_id=app_EMoamEEZ73f0CkXaXp7hrann&redirect_uri="
    ++ urlencoded redirectUri
    ++ js "&scope=openid+profile+email+offline_access&code_challenge="
    ++ urlencoded (challenge pk)
    ++ js "&code_challenge_method=S256&id_token_add_organizations=true&codex_cli_simplified_flow=true&state="
    ++ urlencoded st.
Proof.
  unfold buildAuthorizeUrl, URLSearchParams_toString.
  cbn [map fst snd join].
  generalize (urlencoded redirectUri) as u1, (urlencoded (challenge pk)) as u2,
    (urlencoded st) as u3.
  intros u1 u2 u3. vm_compute. reflexivity.
Qed.

(** X11: The authorize URL has nine parameters in a fixed order, and no
    value can add or cut one: whatever the redirect address, the challenge
    and the state are, the URL has eight [&] and each value is written
    without [&], [=], [#], [?] or a space.  The challenge and the state that
    [generatePKCE] and [generateState] make are base64url text, which is
    written as it is; the address of the listener is written
    percent-encoded. *)
Theorem authorize_url_is_well_formed (redirectUri : jsstring) (pk : PkceCodes)
    (st : jsstring) :
  buildAuthorizeUrl redirectUri pk st
  = js "https://auth.openai.com/oauth/authorize?response_type=code&client_id=app_EMoamEEZ73f0CkXaXp7hrann&redirect_uri="
    ++ urlencoded redirectUri
    ++ js "&scope=openid+profile+email+offline_access&code_challenge="
    ++ urlencoded (challenge pk)
    ++ js "&code_challenge_method=S256&id_token_add_organizations=true&codex_cli_simplified_flow=true&state="
    ++ urlencoded st
  /\ ampersands (buildAuthorizeUrl redirectUri pk st) = 8
  /\ (forall s, Forall (fun c => structural c = false) (urlencoded s))
  /\ (Forall (fun c => url_safe c = true) (challenge pk) ->
      Forall (fun c => url_safe c = true) st ->
      authorization_url pk st
      = js "https://auth.openai.com/oauth/authorize?response_type=code&client_id=app_EMoamEEZ73f0CkXaXp7hrann&redirect_uri=http%3A%2F%2Flocalhost%3A1455%2Fauth%2Fcallback&scope=openid+profile+email+offline_access&code_challenge="
        ++ challenge pk
        ++ js "&code_challenge_method=S256&id_token_add_organizations=true&codex_cli_simplified_flow=true&state="
        ++ st).
Proof.
  split; [apply authorize_url_shape|]. split; [|split].
  - rewrite authorize_url_shape. rewrite !ampersands_app.
    rewrite !(clean_ampersands _ (urlencoded_clean _)). reflexivity.
  - exact urlencoded_clean.
  - intros C S. unfold authorization_url. rewrite authorize_url_shape.
    rewrite (urlencoded_plain _ (url_safe_plain _ C)).
    rewrite (urlencoded_plain _ (url_safe_plain _ S)).
    replace (urlencoded redirect_uri)
      with (js "http%3A%2F%2Flocalhost%3A1455%2Fauth%2Fcallback")
      by (vm_compute; reflexivity).
    generalize (challenge pk) as c. intros c. vm_compute. reflexivity.
Qed.

Lemma tilde_octet c :
  unreserved c = true ->
  urlencoded_octet c = if N.eqb c 126 then js "%7E" else [c].
Proof.
  intros U. destruct (N.eqb_spec c 126) as [->|T]; [reflexivity|].
  apply plain_octet. revert U. unfold unreserved, plain. cbn [existsb].
  rewrite !orb_true_iff, !N.eqb_eq. intuition congruence.
Qed.

Lemma unreserved_ascii c : unreserved c = true -> (c < 128)%N.
Proof.
  unfold unreserved, is_alphanumeric. cbn [existsb].
  rewrite !orb_true_iff, !andb_true_iff, !N.leb_le, !N.eqb_eq. lia.
Qed.

(** X12: The bodies posted to the token endpoint keep their shape whatever
    the values are: the authorization code comes from the query of the
    redirect, yet the body of the exchange always has its five parameters
    (four [&]) and the body of a refresh its three (two [&]).  A verifier
    made of unreserved characters is sent as it is, except that [~] is
    written [%7E]. *)
Theorem token_requests_are_well_formed (code redirectUri refreshToken : jsstring)
    (pk : PkceCodes) :
  exchange_body code redirectUri pk
  = js "grant_type=authorization_code&code=" ++ urlencoded code
    ++ js "&redirect_uri=" ++ urlencoded redirectUri
    ++ js "&client_id=app_EMoamEEZ73f0CkXaXp7hrann&code_verifier="
    ++ urlencoded (verifier pk)
  /\ ampersands (exchange_body code redirectUri pk) = 4
  /\ refresh_body refreshToken
     = js "grant_type=refresh_token&refresh_token=" ++ urlencoded refreshToken
       ++ js "&client_id=app_EMoamEEZ73f0CkXaXp7hrann"
  /\ ampersands (refresh_body refreshToken) = 2
  /\ (Forall (fun c => unreserved c = true) (verifier pk) ->
      urlencoded (verifier pk)
      = flat_map (fun c => if N.eqb c 126 then js "%7E" else [c]) (verifier pk)).
Proof.
  assert (E : exchange_body code redirectUri pk
  = js "grant_type=authorization_code&code=" ++ urlencoded code
    ++ js "&redirect_uri=" ++ urlencoded redirectUri
    ++ js "&client_id=app_EMoamEEZ73f0CkXaXp7hrann&code_verifier="
    ++ urlencoded (verifier pk)).
  { unfold exchange_body, URLSearchParams_toString. cbn [map fst snd join].
    generalize (urlencoded code) as u1, (urlencoded redirectUri) as u2,
      (urlencoded (verifier pk)) as u3.
    intros u1 u2 u3. vm_compute. reflexivity. }
  assert (R : refresh_body refreshToken
     = js "grant_type=refresh_token&refresh_token=" ++ urlencoded refreshToken
       ++ js "&client_id=app_EMoamEEZ73f0CkXaXp7hrann").
  { unfold refresh_body, URLSearchParams_toString. cbn [map fst snd join].
    generalize (urlencoded refreshToken) as u1.
    intros u1. vm_compute. reflexivity. }
  split; [exact E|]. split; [|split; [exact R|split]].
  - rewrite E, !ampersands_app.
    rewrite !(clean_ampersands _ (urlencoded_clean _)). reflexivity.
  - rewrite R, !ampersands_app.
    rewrite !(clean_ampersands _ (urlencoded_clean _)). reflexivity.
  - generalize (verifier pk) as s. intros s U. rewrite urlencoded_ascii.
    + induction U as [|c s H _ IH]; [reflexivity|].
      cbn [flat_map]. rewrite (tilde_octet c H), IH. reflexivity.
    + apply Forall_forall. intros c Hc. rewrite Forall_forall in U.
      apply unreserved_ascii, U, Hc.
Qed.

Lemma base64url_round_trip_witness :
  base64UrlEncode [xfb; xff] = js "-_8"
  /\ List.length (base64UrlEncode [xfb; xff]) = 3
  /\ Reference.octets (Reference.sextets (js "-_8")) = [251; 255]%N.
Proof.
  destruct (base64url_round_trip [xfb; xff]) as (_ & H2 & H3).
  split; [reflexivity|]. split; [exact H2 | exact H3].
Defined.

Lemma random_string_alphabet_witness :
  generateRandomString [x00; x41; x42; xff] = js "A~A5"
  /\ List.length (generateRandomString Cases.rfc_octets) = 43
  /\ generateRandomString Cases.rfc_octets = Cases.rfc_verifier.
Proof.
  destruct (random_string_alphabet Cases.rfc_octets) as (H1 & _).
  split; [reflexivity|]. split; [exact H1 | reflexivity].
Defined.

Lemma pkce_codes_are_well_formed_witness :
  generatePKCE sha256 Cases.rfc_octets
  = mkPkce Cases.rfc_verifier Cases.rfc_challenge
  /\ List.length Cases.rfc_challenge = 43
  /\ Forall (fun c => unreserved c = true) Cases.rfc_verifier
  /\ generateState (repeat x00 32) = Cases.zero_state.
Proof.
  destruct (pkce_codes_are_well_formed sha256 Cases.rfc_octets)
    as (_ & H2 & H3 & _); [reflexivity | vm_compute; reflexivity |].
  split; [vm_compute; reflexivity|]. split; [exact H3|].
  split; [exact H2 | reflexivity].
Defined.

Lemma authorize_url_is_well_formed_witness :
  authorization_url (mkPkce Cases.rfc_verifier Cases.rfc_challenge)
                    Cases.zero_state
  = js "https://auth.openai.com/oauth/authorize?response_type=code&client_id=app_EMoamEEZ73f0CkXaXp7hrann&redirect_uri=http%3A%2F%2Flocalhost%3A1455%2Fauth%2Fcallback&scope=openid+profile+email+offline_access&code_challenge=E9Melhoa2OwvFrEMTJguCHaoeK1t8URWbuGJSstw-cM&code_challenge_method=S256&id_token_add_organizations=true&codex_cli_simplified_flow=true&state=AAAAAAAAAAAAAAAAAAAAAAAAAAAAAAAAAAAAAAAAAAA"
  /\ ampersands
       (buildAuthorizeUrl (js "http://evil/?a=1&b=2")
          (mkPkce [] (js "x&y")) (js "s&admin=1#")) = 8.
Proof.
  destruct (authorize_url_is_well_formed redirect_uri
              (mkPkce Cases.rfc_verifier Cases.rfc_challenge) Cases.zero_state)
    as (_ & _ & _ & H4).
  destruct (authorize_url_is_well_formed (js "http://evil/?a=1&b=2")
              (mkPkce [] (js "x&y")) (js "s&admin=1#")) as (_ & K2 & _).
  split; [|exact K2].
  rewrite H4; [reflexivity | |];
    apply Forall_forall; apply forallb_forall; vm_compute; reflexivity.
Defined.

Lemma token_requests_are_well_formed_witness :
  exchange_body (js "c0de&admin=1") redirect_uri (mkPkce (js "a~b") [])
  = js "grant_type=authorization_code&code=c0de%26admin%3D1&redirect_uri=http%3A%2F%2Flocalhost%3A1455%2Fauth%2Fcallback&client_id=app_EMoamEEZ73f0CkXaXp7hrann&code_verifier=a%7Eb"
  /\ ampersands
       (exchange_body (js "c0de&admin=1") redirect_uri (mkPkce (js "a~b") [])) = 4
  /\ ampersands (refresh_body (js "r&x=y")) = 2.
Proof.
  destruct (token_requests_are_well_formed (js "c0de&admin=1") redirect_uri
              (js "r&x=y") (mkPkce (js "a~b") [])) as (H1 & H2 & _ & H4 & _).
  split; [rewrite H1; vm_compute; reflexivity|]. split; [exact H2 | exact H4].
Defined.

End EncodingFacts.

(** ** Tokens and the account they name *)

Module ClaimsFacts.
Import OAuth JsFacts TextFacts Scenarios.

Section Tokens.
Context {rt : Runtime}.

Lemma parseJwtClaims_three token claims :
  parseJwtClaims token = Some claims -> count_occ N.eq_dec token 46%N = 2.
Proof.
  unfold parseJwtClaims. intros H.
  pose proof (split_count 46 token) as L.
  change (js ".") with [46%N] in H.
  destruct (split [46%N] token) as [|a [|b [|c [|d l]]]]; try discriminate H.
  cbn in L. lia.
Qed.

(** X13: A token gives claims only if it has exactly three segments, that
    is exactly two dots; the claims are then read off the middle segment
    alone, decoded as base64url and parsed as JSON, and a token that fails
    at any step gives no claims and no error.  Tokens that are not of this
    form name no account. *)
Theorem jwt_has_three_segments (token : jsstring) :
  (count_occ N.eq_dec token 46%N <> 2 -> parseJwtClaims token = None)
  /\ (forall header payload signature,
         ~ In 46%N header -> ~ In 46%N payload -> ~ In 46%N signature ->
         token = header ++ js "." ++ payload ++ js "." ++ signature ->
         parseJwtClaims token = JSON_parse (base64url_toString payload))
  /\ (forall claims,
         parseJwtClaims token = Some claims ->
         exists header payload signature,
           token = header ++ js "." ++ payload ++ js "." ++ signature
           /\ JSON_parse (base64url_toString payload) = Some claims)
  /\ (forall tokens,
         count_occ N.eq_dec (id_token tokens) 46%N <> 2 ->
         count_occ N.eq_dec (access_token tokens) 46%N <> 2 ->
         extractAccountId tokens = None).
Proof.
  assert (None2 : forall t, count_occ N.eq_dec t 46%N <> 2 -> parseJwtClaims t = None).
  { intros t H. destruct (parseJwtClaims t) as [claims|] eqn:E; [|reflexivity].
    apply parseJwtClaims_three in E. congruence. }
  split; [apply None2|]. split; [|split].
  - intros header payload signature Hh Hp Hs ->. unfold parseJwtClaims.
    change (js ".") with [46%N]. cbn [app].
    rewrite (split_segment 46 header _ Hh), (split_segment 46 payload _ Hp),
      (split_whole 46 signature Hs). reflexivity.
  - unfold parseJwtClaims. change (js ".") with [46%N]. intros claims H.
    destruct (split [46%N] token) as [|a [|b [|c [|d l]]]] eqn:E;
      try discriminate H.
    exists a, b, c. split; [|exact H].
    rewrite <- (join_split 46 token), E. reflexivity.
  - intros tokens Hi Ha. unfold extractAccountId.
    rewrite (None2 _ Hi), (None2 _ Ha).
    destruct (nonempty (id_token tokens)), (nonempty (access_token tokens));
      reflexivity.
Qed.



End Tokens.

Lemma jwt_has_three_segments_witness :
  @parseJwtClaims node (id_token new_tokens)
  = Some (JObj [(js "chatgpt_account_id", JStr (js "acct-2"))])
  /\ @parseJwtClaims node (js "eyJhbGciOiJub25lIn0.e30") = None
  /\ @extractAccountId node anonymous_tokens = None.
Proof.
  split; [|split].
  - destruct (@jwt_has_three_segments node (id_token new_tokens)) as (_ & H2 & _).
    rewrite (H2 (js "eyJhbGciOiJub25lIn0")
                (js "eyJjaGF0Z3B0X2FjY291bnRfaWQiOiJhY2N0LTIifQ") (js "sig"));
      try (vm_compute; intuition discriminate); vm_compute; reflexivity.
  - destruct (@jwt_has_three_segments node (js "eyJhbGciOiJub25lIn0.e30"))
      as (H1 & _).
    apply H1. vm_compute. discriminate.
  - destruct (@jwt_has_three_segments node []) as (_ & _ & _ & H4).
    apply H4; vm_compute; discriminate.
Defined.


End ClaimsFacts.

(** ** The endings of an authorization *)

Module SessionFacts.
Import OAuth JsFacts Scenarios OAuthFacts Session.

#[local] Arguments js : simpl never.
#[local] Arguments of_N : simpl never.

Lemma settle_spec st code body w :
  let w' := settle st code body w in
  oauthState w' = st /\ pending w' = None /\ server w' = false
  /\ disk w' = disk w /\ fresh w' = fresh w
  /\ timers w'
     = match pending w with
       | Some p => filter (fun t => negb (Nat.eqb t (timeout p))) (timers w)
       | None => timers w
       end
  /\ log w' = log w ++ teardown w ++ [Respond code body].
Proof.
  destruct w as [[|] [p|] os dk tm fr lg]; unfold teardown; handlers; cbn;
    rewrite <- ?app_assoc; repeat split; reflexivity.
Qed.

Lemma teardown_silent w :
  filter is_response (teardown w) = []
  /\ filter wrote_auth (teardown w) = []
  /\ filter network (teardown w) = [].
Proof.
  unfold teardown. destruct (pending w), (server w); repeat split; reflexivity.
Qed.

Lemma handleCallback_cases url w :
  (given (q_error url) = true
   /\ handleCallback url w = (fail (provider_message url) 400 w, None))
  \/ (given (q_error url) = false /\ given (q_code url) = false
      /\ handleCallback url w = (fail (js "Missing authorization code") 400 w, None))
  \/ (given (q_error url) = false /\ given (q_code url) = true
      /\ (forall p, pending w = Some p -> q_state url <> Some (state p))
      /\ handleCallback url w
         = (fail (js "Invalid state - potential CSRF attack") 400 w, None))
  \/ (exists p code,
         pending w = Some p /\ answers_session url p /\ q_code url = Some code
         /\ handleCallback url w
            = (does (ExchangeCode code (pkce p)) w,
               Some (Exchanging code (pkce p)))).
Proof.
  unfold handleCallback, provider_message, answers_session.
  destruct (given (q_error url)) eqn:E; [left; auto|]. right.
  destruct (q_code url) as [[|c cs]|] eqn:C; cbn [given nonempty];
    [left; auto | | left; auto].
  right. destruct (pending w) as [p|] eqn:P.
  - destruct (differs (q_state url) (state p)) eqn:D.
    + left. repeat split; auto. intros p' [= <-] S.
      unfold differs in D. rewrite S, eqb_refl in D. discriminate D.
    + right. exists p, (c :: cs). apply differs_false in D. auto 10.
  - left. repeat split; auto. intros p' X. discriminate X.
Qed.

Section Endings.
Context {rt : Runtime}.

(** Whatever a redirect runs into, no session is pending once it has been
    handled to its end. *)
Lemma handleCallback_whole_pending (url : query) (a : answer) (now : Z)
    (wrote : option (thrown * option OpenAIAuth)) (w : world) :
  pending (handleCallback_whole url a now wrote w) = None.
Proof.
  unfold handleCallback_whole.
  destruct (handleCallback_cases url w)
    as [[_ ->]|[(_ & _ & ->)|[(_ & _ & _ & ->)|(p & code & _ & _ & _ & ->)]]];
    try apply settle_spec.
  unfold handleCallback_exchanged.
  destruct (exchangeCodeForTokens a) as [err|tokens];
    [apply settle_spec|].
  unfold handleCallback_written.
  destruct wrote as [[e kept]|]; cbn [writeAuth]; apply settle_spec.
Qed.

(** X15: However a redirect is handled, from the request to the response,
    it ends the attempt: no session is pending and no listener runs
    afterwards, the timer of the session is disarmed, and exactly one
    response has been sent.  The page agrees with the state: the success
    page goes with status success and a credential written, an error page
    with status error carrying the very message of the page, code 400 or
    500, and nothing written. *)
Theorem callback_ends_the_attempt (url : query) (a : answer) (now : Z)
    (wrote : option (thrown * option OpenAIAuth)) (w : world) :
  let w' := handleCallback_whole url a now wrote w in
  pending w' = None /\ server w' = false
  /\ (forall p, pending w = Some p -> one_timer w -> timers w' = [])
  /\ exists effects,
       log w' = log w ++ effects
       /\ ((oauthState w' = mkState success None
            /\ filter is_response effects = [Respond 200 HTML_SUCCESS]
            /\ exists auth,
                 disk w' = Some auth /\ filter wrote_auth effects = [WriteAuth auth])
           \/ (exists message code,
                  oauthState w' = mkState error_ (Some message)
                  /\ filter is_response effects = [Respond code (HTML_ERROR message)]
                  /\ (code = 400%N \/ code = 500%N)
                  /\ filter wrote_auth effects = [])).
Proof.
  assert (Fail : forall message code w0 before,
             (code = 400%N \/ code = 500%N) ->
             log w0 = log w ++ before ->
             filter is_response before = [] -> filter wrote_auth before = [] ->
             pending w0 = pending w -> timers w0 = timers w ->
             let w' := fail message code w0 in
             pending w' = None /\ server w' = false
             /\ (forall p, pending w = Some p -> one_timer w -> timers w' = [])
             /\ exists effects,
                  log w' = log w ++ effects
                  /\ ((oauthState w' = mkState success None
                       /\ filter is_response effects = [Respond 200 HTML_SUCCESS]
                       /\ exists auth,
                            disk w' = Some auth
                            /\ filter wrote_auth effects = [WriteAuth auth])
                      \/ (exists message code,
                             oauthState w' = mkState error_ (Some message)
                             /\ filter is_response effects
                                = [Respond code (HTML_ERROR message)]
                             /\ (code = 400%N \/ code = 500%N)
                             /\ filter wrote_auth effects = []))).
  { intros message code w0 before Hc L R W P T w'. subst w'. unfold fail.
    destruct (settle_spec (mkState error_ (Some message)) code
                          (HTML_ERROR message) w0) as (S1 & S2 & S3 & _ & _ & S6 & S7).
    destruct (teardown_silent w0) as (T1 & T2 & _).
    split; [exact S2|]. split; [exact S3|]. split.
    - intros p Hp O. rewrite S6, P, Hp, T. unfold one_timer in O.
      rewrite O, Hp. cbn. rewrite Nat.eqb_refl. reflexivity.
    - exists (before ++ teardown w0 ++ [Respond code (HTML_ERROR message)]).
      split; [rewrite S7, L, <- app_assoc; reflexivity|].
      right. exists message, code. split; [exact S1|].
      rewrite !filter_app, R, W, T1, T2. cbn. auto. }
  intros w'. subst w'. unfold handleCallback_whole.
  destruct (handleCallback_cases url w)
    as [[_ ->]|[(_ & _ & ->)|[(_ & _ & _ & ->)|(p & code & P & _ & _ & ->)]]].
  1-3: apply (Fail _ _ w []); auto using app_nil_r.
  unfold handleCallback_exchanged.
  destruct (exchangeCodeForTokens a) as [err|tokens].
  - unfold handleCallback_catch.
    apply (Fail _ _ _ [ExchangeCode code (pkce p)]); auto;
      destruct w; reflexivity.
  - unfold handleCallback_written.
    set (auth := mkAuth (access_token tokens) (refresh_token tokens)
                        (expiry now tokens) (spread (extractAccountId tokens))).
    destruct wrote as [[e kept]|]; cbn [writeAuth].
    + unfold handleCallback_catch.
      apply (Fail _ _ _ [ExchangeCode code (pkce p); WriteFailed auth]); auto;
        destruct w; handlers; cbn; rewrite <- ?app_assoc; reflexivity.
    + set (w1 := set_disk (Some auth)
                   (does (WriteAuth auth) (does (ExchangeCode code (pkce p)) w))).
      destruct (settle_spec (mkState success None) 200 HTML_SUCCESS w1)
        as (S1 & S2 & S3 & S4 & _ & S6 & S7).
      destruct (teardown_silent w1) as (T1 & T2 & _).
      assert (L1 : log w1 = log w ++ [ExchangeCode code (pkce p); WriteAuth auth])
        by (subst w1; destruct w; handlers; cbn; rewrite <- app_assoc; reflexivity).
      assert (P1 : pending w1 = pending w) by (subst w1; destruct w; reflexivity).
      assert (Tm : timers w1 = timers w) by (subst w1; destruct w; reflexivity).
      assert (D1 : disk w1 = Some auth) by (subst w1; destruct w; reflexivity).
      split; [exact S2|]. split; [exact S3|]. split.
      * intros p' Hp O. rewrite S6, P1, Hp, Tm. unfold one_timer in O.
        rewrite O, Hp. cbn. rewrite Nat.eqb_refl. reflexivity.
      * exists ([ExchangeCode code (pkce p); WriteAuth auth]
                ++ teardown w1 ++ [Respond 200 HTML_SUCCESS]).
        split; [rewrite S7, L1, <- app_assoc; reflexivity|].
        left. split; [exact S1|].
        rewrite !filter_app, T1, T2. cbn. split; [reflexivity|].
        exists auth. split; [exact (eq_trans S4 D1) | reflexivity].
Qed.

End Endings.

(** X16: The order of the checks of a redirect.  An error of the provider
    ends the attempt whatever else the redirect carries, with the
    description as message when there is one and the error code otherwise;
    then a missing or empty code; only then is the state compared, and only
    a redirect that passes all three calls the issuer, once, with the code
    of the redirect and the verifier of the pending session.  The three
    refusals answer 400 and are over at once. *)
Theorem redirect_decision_table (url : query) (w : world) :
  ((given (q_error url) = true
    /\ handleCallback url w = (fail (provider_message url) 400 w, None))
   \/ (given (q_error url) = false /\ given (q_code url) = false
       /\ handleCallback url w
          = (fail (js "Missing authorization code") 400 w, None))
   \/ (given (q_error url) = false /\ given (q_code url) = true
       /\ (forall p, pending w = Some p -> q_state url <> Some (state p))
       /\ handleCallback url w
          = (fail (js "Invalid state - potential CSRF attack") 400 w, None))
   \/ (exists p code,
          pending w = Some p /\ answers_session url p /\ q_code url = Some code
          /\ handleCallback url w
             = (does (ExchangeCode code (pkce p)) w,
                Some (Exchanging code (pkce p)))))
  /\ (forall d e,
         q_error url = Some e -> q_error_description url = Some d ->
         nonempty d = true -> provider_message url = d)
  /\ (forall e,
         q_error url = Some e -> given (q_error_description url) = false ->
         provider_message url = e)
  /\ (forall message code,
         let w' := fail message code w in
         log w' = log w ++ teardown w ++ [Respond code (HTML_ERROR message)]
         /\ oauthState w' = mkState error_ (Some message)
         /\ disk w' = disk w).
Proof.
  split; [apply handleCallback_cases|]. split; [|split].
  - intros d e E D N. unfold provider_message. rewrite E, D, N. reflexivity.
  - intros e E D. unfold provider_message. rewrite E.
    destruct (q_error_description url) as [[|c d]|]; try reflexivity.
    discriminate D.
  - intros message code w'. subst w'. unfold fail.
    destruct (settle_spec (mkState error_ (Some message)) code
                          (HTML_ERROR message) w) as (S1 & _ & _ & S4 & _ & _ & S7).
    auto.
Qed.

Section Failures.
Context {rt : Runtime}.

(** X17: What goes wrong after the state check.  An answer of the issuer
    outside 200-299 is the error [Token exchange failed: <status>], and its
    body is not looked at; a failure of [fetch] or of the body keeps its own
    message, and a thrown value that is no [Error] reads
    [Token exchange failed].  Each ends the attempt with status error and
    page 500, and the credential file is not touched.  A write that fails
    ends the attempt the same way: the status is error, never success, and
    the file holds what the failed write left. *)
Theorem exchange_failures (now : Z) (w : world) :
  (forall code body,
      (code < 200 \/ 299 < code)%N ->
      exchangeCodeForTokens (Answer code body)
      = inl (AnError (js "Token exchange failed: " ++ of_N code)))
  /\ (forall code body,
         (200 <= code <= 299)%N ->
         exchangeCodeForTokens (Answer code body) = body)
  /\ (forall a err,
         exchangeCodeForTokens a = inl err ->
         let message :=
           match err with
           | AnError m => m
           | NotAnError => js "Token exchange failed"
           end in
         let w' := fst (handleCallback_exchanged a now w) in
         snd (handleCallback_exchanged a now w) = None
         /\ oauthState w' = mkState error_ (Some message)
         /\ disk w' = disk w
         /\ log w' = log w ++ teardown w ++ [Respond 500 (HTML_ERROR message)])
  /\ (forall auth err kept,
         let message :=
           match err with
           | AnError m => m
           | NotAnError => js "Token exchange failed"
           end in
         let w' := handleCallback_written auth (Some (err, kept)) w in
         oauthState w' = mkState error_ (Some message)
         /\ disk w' = kept
         /\ log w'
            = log w ++ [WriteFailed auth] ++ teardown w
              ++ [Respond 500 (HTML_ERROR message)]).
Proof.
  split; [|split; [|split]].
  - intros code body H. unfold exchangeCodeForTokens, token_call.
    replace (N.leb 200 code && N.leb code 299) with false; [reflexivity|].
    symmetry. apply andb_false_iff. rewrite !N.leb_gt. lia.
  - intros code body [H1 H2]. unfold exchangeCodeForTokens, token_call.
    apply N.leb_le in H1, H2. rewrite H1, H2. reflexivity.
  - intros a err E message w'. subst w' message.
    unfold handleCallback_exchanged. rewrite E. cbn [fst snd].
    unfold handleCallback_catch, fail.
    destruct (settle_spec
                (mkState error_
                   (Some match err with
                         | AnError m => m
                         | NotAnError => js "Token exchange failed"
                         end)) 500
                (HTML_ERROR match err with
                            | AnError m => m
                            | NotAnError => js "Token exchange failed"
                            end) w) as (S1 & _ & _ & S4 & _ & _ & S7).
    auto.
  - intros auth err kept message w'. subst w' message.
    unfold handleCallback_written. cbn [writeAuth].
    unfold handleCallback_catch, fail.
    set (w1 := set_disk kept (does (WriteFailed auth) w)).
    destruct (settle_spec
                (mkState error_
                   (Some match err with
                         | AnError m => m
                         | NotAnError => js "Token exchange failed"
                         end)) 500
                (HTML_ERROR match err with
                            | AnError m => m
                            | NotAnError => js "Token exchange failed"
                            end) w1) as (S1 & _ & _ & S4 & _ & _ & S7).
    split; [exact S1|]. split.
    + rewrite S4. subst w1. destruct w; reflexivity.
    + rewrite S7. subst w1. destruct w; unfold teardown; handlers; cbn.
      rewrite <- app_assoc. reflexivity.
Qed.

Lemma readAuth_usable w :
  readAuth w = match disk w with
               | Some auth => if usable auth then Some auth else None
               | None => None
               end.
Proof. reflexivity. Qed.

(** X18: From login to use.  When a redirect answers the pending session,
    the issuer answers 200-299 with tokens and the write goes through, the
    file holds the credential made of these tokens (access and refresh as
    given, expiry [now] plus the lifetime in milliseconds, one hour when
    none is given), and the status is success.  The status query then says
    success, and connected exactly when access and refresh token are not
    empty and the expiry is not zero; in that case [ensureOpenAIAuth]
    returns this very credential, without calling the issuer, until the
    expiry has passed, and otherwise it returns nothing. *)
Theorem login_then_use (url : query) (p : PendingOAuth) (code : N)
    (tokens : TokenResponse) (now : Z) (w : world) :
  pending w = Some p -> answers_session url p -> (200 <= code <= 299)%N ->
  let w' := handleCallback_whole url (Answer code (inr tokens)) now None w in
  let auth := mkAuth (access_token tokens) (refresh_token tokens)
                     (now + match expires_in tokens with
                            | Some s => s
                            | None => 3600
                            end * 1000)
                     (spread (extractAccountId tokens)) in
  disk w' = Some auth
  /\ oauthState w' = mkState success None
  /\ r_status (getOpenAIAuthStatus w') = success
  /\ r_connected (getOpenAIAuthStatus w') = usable auth
  /\ (usable auth = true ->
      r_accountId (getOpenAIAuthStatus w') = accountId auth
      /\ forall now' a later wrote,
           (now' <= expires auth)%Z ->
           ensureOpenAIAuth now' a later wrote w' = (w', Credential auth))
  /\ (usable auth = false ->
      forall now' a later wrote,
        ensureOpenAIAuth now' a later wrote w' = (w', NotConnected)).
Proof.
  intros P A C w' auth.
  assert (W : w' = handleCallback_written auth None
                     (does (ExchangeCode match q_code url with
                                         | Some c => c
                                         | None => []
                                         end (pkce p)) w)).
  { subst w'. unfold handleCallback_whole.
    destruct (handleCallback_cases url w)
      as [[E _]|[(_ & E & _)|[(_ & _ & E & _)|(p' & c & P' & _ & Q & ->)]]].
    - destruct A as (A1 & _). congruence.
    - destruct A as (_ & A2 & _). congruence.
    - destruct A as (_ & _ & A3). exfalso. exact (E p P A3).
    - rewrite Q. assert (p' = p) by congruence. subst p'.
      unfold handleCallback_exchanged.
      destruct C as [C1 C2]. apply N.leb_le in C1, C2.
      unfold exchangeCodeForTokens, token_call. rewrite C1, C2. cbn [andb].
      reflexivity. }
  destruct (written_spec auth
              (does (ExchangeCode match q_code url with
                                  | Some c => c
                                  | None => []
                                  end (pkce p)) w))
    as (_ & _ & S3 & S4 & _).
  rewrite <- W in S3, S4.
  assert (R : readAuth w' = if usable auth then Some auth else None)
    by (rewrite readAuth_usable, S4; reflexivity).
  split; [exact S4|]. split; [exact S3|].
  unfold getOpenAIAuthStatus. rewrite R, S3. cbn [status r_status r_connected r_accountId].
  split; [destruct (usable auth); reflexivity|].
  split; [destruct (usable auth); reflexivity|]. split.
  - intros U. rewrite U. split; [reflexivity|].
    intros now' a later wrote L. rewrite U in R.
    apply ensure_fresh; assumption.
  - intros U now' a later wrote. rewrite U in R.
    unfold ensureOpenAIAuth. rewrite R. reflexivity.
Qed.

(** X19: An attempt that has ended cannot be resumed.  After a redirect
    has been handled to its end, after a cancellation, and after the timer
    of the session has fired, no session is pending, so a redirect that
    arrives later is refused without a call of the issuer, whatever state
    and code it carries, and the credential file stays as it is.  The status
    then reads error, also when the attempt before had ended in success. *)
Theorem ended_attempt_cannot_resume (w : world) :
  (forall url a now wrote, pending (handleCallback_whole url a now wrote w) = None)
  /\ pending (handleCancel w) = None
  /\ (forall id, In id (timers w) -> pending (fire id w) = None)
  /\ (pending w = None ->
      forall url,
        let w' := fst (handleCallback url w) in
        snd (handleCallback url w) = None
        /\ (forall a now wrote, handleCallback_whole url a now wrote w = w')
        /\ status (oauthState w') = error_
        /\ disk w' = disk w
        /\ exists message,
             log w' = log w ++ teardown w ++ [Respond 400 (HTML_ERROR message)]).
Proof.
  split; [|split; [|split]].
  - intros url a now wrote.
    apply handleCallback_whole_pending.
  - unfold handleCancel.
    apply (settle_spec (mkState error_ (Some (js "Login cancelled"))) 200
                       (Plain (js "Login cancelled")) w).
  - intros id I. unfold fire.
    replace (existsb (Nat.eqb id) (timers w)) with true.
    + destruct w as [[|] [p|] os dk tm fr lg]; reflexivity.
    + symmetry. apply existsb_exists. exists id. split; [exact I|].
      apply Nat.eqb_refl.
  - intros P url w'. subst w'.
    assert (F : exists message,
               handleCallback url w = (fail message 400 w, None)).
    { destruct (handleCallback_cases url w)
        as [[_ E]|[(_ & _ & E)|[(_ & _ & _ & E)|(p & c & P' & _)]]];
        try (eexists; exact E). congruence. }
    destruct F as [message E]. unfold handleCallback_whole. rewrite E.
    cbn [fst snd]. unfold fail.
    destruct (settle_spec (mkState error_ (Some message)) 400
                          (HTML_ERROR message) w) as (S1 & _ & _ & S4 & _ & _ & S7).
    split; [reflexivity|]. split; [reflexivity|].
    split; [rewrite S1; reflexivity|]. split; [exact S4|].
    exists message. exact S7.
Qed.

End Failures.

(** X20: A redirect does not use the session up.  The handler that finds
    the state right calls the issuer and leaves everything else as it was:
    the session stays pending, with its timer, until the issuer has answered.
    So a second redirect with the same state that arrives in the meantime is
    accepted too, and the issuer is called once per redirect. *)
Theorem redirect_leaves_the_session_pending (url : query) (p : PendingOAuth)
    (w : world) :
  pending w = Some p -> answers_session url p ->
  exists code,
    q_code url = Some code
    /\ let w1 := fst (handleCallback url w) in
       let w2 := fst (handleCallback url w1) in
       snd (handleCallback url w) = Some (Exchanging code (pkce p))
       /\ pending w1 = Some p /\ timers w1 = timers w
       /\ oauthState w1 = oauthState w /\ server w1 = server w
       /\ disk w1 = disk w
       /\ log w1 = log w ++ [ExchangeCode code (pkce p)]
       /\ snd (handleCallback url w1) = Some (Exchanging code (pkce p))
       /\ log w2
          = log w ++ [ExchangeCode code (pkce p); ExchangeCode code (pkce p)].
Proof.
  intros P A.
  assert (G : forall w0, pending w0 = Some p ->
                exists code, q_code url = Some code
                  /\ handleCallback url w0
                     = (does (ExchangeCode code (pkce p)) w0,
                        Some (Exchanging code (pkce p)))).
  { intros w0 P0.
    destruct (handleCallback_cases url w0)
      as [[E _]|[(_ & E & _)|[(_ & _ & E & _)|(p' & c & P' & _ & Q & H)]]].
    - destruct A as (A1 & _). congruence.
    - destruct A as (_ & A2 & _). congruence.
    - destruct A as (_ & _ & A3). exfalso. exact (E p P0 A3).
    - assert (p' = p) by congruence. subst p'. exists c. auto. }
  destruct (G w P) as (code & Q & H1). exists code. split; [exact Q|].
  cbn zeta. rewrite H1. cbn [fst snd].
  assert (P1 : pending (does (ExchangeCode code (pkce p)) w) = Some p)
    by (destruct w; exact P).
  destruct (G _ P1) as (code' & Q' & H2).
  assert (code' = code) by congruence. subst code'.
  rewrite H2. cbn [fst snd].
  destruct w as [sv pd os dk tm fr lg]. cbn in *.
  rewrite <- app_assoc. repeat split; auto.
Qed.

(** X21: Logging out does not stop a login that is under way.
    [clearOpenAIAuth] removes the file when it can and sets the status to
    idle, and leaves the pending session, its timer and the listener as they
    are: a redirect handled after the logout is handled as before it, and a
    credential whose write was under way is written after all, with status
    success.  When the file could not be removed the credential stays, and
    the status query still reports it. *)
Theorem logout_leaves_login_running (unlinked : bool) (w : world) :
  let w' := clearOpenAIAuth unlinked w in
  pending w' = pending w /\ timers w' = timers w /\ server w' = server w
  /\ oauthState w' = mkState idle None
  /\ disk w' = (if unlinked then None else disk w)
  /\ log w' = log w ++ [Unlink]
  /\ (forall url,
         snd (handleCallback url w') = snd (handleCallback url w))
  /\ (forall auth,
         let w'' := handleCallback_written auth None w' in
         disk w'' = Some auth /\ oauthState w'' = mkState success None)
  /\ (unlinked = true ->
      getOpenAIAuthStatus w' = mkReport idle None false None)
  /\ (unlinked = false ->
      forall auth, readAuth w = Some auth ->
        getOpenAIAuthStatus w' = mkReport success None true (accountId auth)).
Proof.
  intros w'.
  assert (P : pending w' = pending w)
    by (subst w'; destruct w, unlinked; reflexivity).
  assert (D : disk w' = if unlinked then None else disk w)
    by (subst w'; destruct w, unlinked; reflexivity).
  assert (O : oauthState w' = mkState idle None)
    by (subst w'; destruct w, unlinked; reflexivity).
  split; [exact P|].
  split; [subst w'; destruct w, unlinked; reflexivity|].
  split; [subst w'; destruct w, unlinked; reflexivity|].
  split; [exact O|]. split; [exact D|].
  split; [subst w'; destruct w, unlinked; reflexivity|].
  split; [|split; [|split]].
  - intros url. unfold handleCallback. rewrite P.
    destruct (given (q_error url)); [reflexivity|].
    destruct (q_code url) as [[|c cs]|]; try reflexivity.
    destruct (pending w) as [p|]; [|reflexivity].
    destruct (differs (q_state url) (state p)); reflexivity.
  - intros auth w''. subst w''.
    destruct (written_spec auth w') as (_ & _ & S3 & S4 & _). auto.
  - intros ->. unfold getOpenAIAuthStatus, readAuth. rewrite D, O. reflexivity.
  - intros -> auth R. unfold getOpenAIAuthStatus.
    assert (R' : readAuth w' = Some auth).
    { unfold readAuth in *. rewrite D. exact R. }
    rewrite R', O. reflexivity.
Qed.

(** X22: Starting the listener.  A start that finds a listener does
    nothing, so the listener is asked to listen at most once while it
    exists.  The listener is recorded before it is asked to listen: when
    listening fails the start throws without recording a session, but the
    listener stays recorded, so the next start does not ask again and
    records a session although nothing listens. *)
Theorem listener_is_started_once (pk : PkceCodes) (st : jsstring) (w : world) :
  (server w = true ->
   startOAuthServer w = (w, Starting false)
   /\ forall listened,
        startOpenAIAuthorize listened pk st w
        = (startOpenAIAuthorize_record pk st w, true))
  /\ (server w = false ->
      fst (startOAuthServer w) = set_server true (does Listen w)
      /\ startOAuthServer (fst (startOAuthServer w))
         = (fst (startOAuthServer w), Starting false))
  /\ (server w = false ->
      let w1 := fst (startOpenAIAuthorize false pk st w) in
      snd (startOpenAIAuthorize false pk st w) = false
      /\ server w1 = true /\ pending w1 = pending w
      /\ oauthState w1 = oauthState w /\ log w1 = log w ++ [Listen]
      /\ forall listened pk' st',
           let w2 := fst (startOpenAIAuthorize listened pk' st' w1) in
           snd (startOpenAIAuthorize listened pk' st' w1) = true
           /\ pending w2 = Some (mkPending pk' st' (fresh w))
           /\ oauthState w2 = mkState pending_ None
           /\ filter (fun e => match e with Listen => true | _ => false end)
                     (log w2)
              = filter (fun e => match e with Listen => true | _ => false end)
                       (log w) ++ [Listen]).
Proof.
  split; [|split].
  - intros S. unfold startOpenAIAuthorize, startOAuthServer. rewrite S. auto.
  - intros S. unfold startOAuthServer. rewrite S.
    destruct w as [sv pd os dk tm fr lg]. cbn in *. subst sv. auto.
  - intros S w1.
    assert (E : startOpenAIAuthorize false pk st w
                = (set_server true (does Listen w), false)).
    { unfold startOpenAIAuthorize, startOAuthServer. rewrite S. reflexivity. }
    subst w1. rewrite E. cbn [fst snd].
    assert (L1 : log (set_server true (does Listen w)) = log w ++ [Listen])
      by (destruct w; reflexivity).
    assert (F1 : fresh (set_server true (does Listen w)) = fresh w)
      by (destruct w; reflexivity).
    split; [reflexivity|]. split; [destruct w; reflexivity|].
    split; [destruct w; reflexivity|]. split; [destruct w; reflexivity|].
    split; [exact L1|].
    intros listened pk' st'.
    assert (E2 : startOpenAIAuthorize listened pk' st'
                   (set_server true (does Listen w))
                 = (startOpenAIAuthorize_record pk' st'
                      (set_server true (does Listen w)), true)).
    { unfold startOpenAIAuthorize, startOAuthServer.
      destruct w; reflexivity. }
    rewrite E2. cbn [fst snd].
    destruct (record_spec pk' st' (set_server true (does Listen w)))
      as (R1 & R2 & _ & _ & _ & R6).
    split; [reflexivity|]. split; [rewrite R2, F1; reflexivity|].
    split; [exact R1|].
    rewrite R6, L1, !filter_app.
    destruct (pending (set_server true (does Listen w))); cbn;
      rewrite ?app_nil_r; reflexivity.
Qed.

Lemma timely_spec w w' :
  (forall id, In id (timers w') -> In id (timers w)) -> fresh w' = fresh w ->
  timely w -> timely w'.
Proof.
  unfold timely. intros T F H id I. rewrite F. apply H, T, I.
Qed.

Lemma timely_settle st code body w : timely w -> timely (settle st code body w).
Proof.
  destruct (settle_spec st code body w) as (_ & _ & _ & _ & F & T & _).
  apply timely_spec; [|exact F].
  intros id. rewrite T. destruct (pending w); [|auto].
  intros I. apply filter_In in I. tauto.
Qed.

Lemma timely_fire id w : timely w -> timely (fire id w).
Proof.
  unfold fire. destruct (existsb (Nat.eqb id) (timers w)); [|auto].
  apply timely_spec.
  - destruct w as [[|] [p|] os dk tm fr lg]; handlers; cbn;
      intros x I; repeat (apply filter_In in I; destruct I as [I _]); exact I.
  - destruct w as [[|] [p|] os dk tm fr lg]; reflexivity.
Qed.

Lemma timely_record pk st w : timely w -> timely (startOpenAIAuthorize_record pk st w).
Proof.
  unfold timely. intros H id.
  destruct w as [sv [p|] os dk tm fr lg]; handlers; cbn; intros I;
    apply in_app_or in I; destruct I as [I|[<-|[]]]; try lia;
    try (apply filter_In in I; destruct I as [I _]);
    specialize (H id I); cbn in H; lia.
Qed.

Section Timers.
Context {rt : Runtime}.

Lemma timely_handleCallback url w : timely w -> timely (fst (handleCallback url w)).
Proof.
  destruct (handleCallback_cases url w)
    as [[_ ->]|[(_ & _ & ->)|[(_ & _ & _ & ->)|(p & c & _ & _ & _ & ->)]]];
    try apply timely_settle.
  destruct w; auto.
Qed.

Lemma timely_step s e : timely (shared s) -> timely (shared (step s e)).
Proof.
  intros H.
  destruct e as [|i listened pk st|url|i a now|i wrote| | |id|unlinked]; cbn.
  - destruct (shared s) as [[|] pd os dk tm fr lg]; exact H.
  - destruct (nth_error (tasks s) i) as [[listening| |]|]; try exact H.
    destruct (listening && negb listened); [exact H | apply timely_record, H].
  - pose proof (timely_handleCallback url (shared s) H) as Q.
    destruct (handleCallback url (shared s)). exact Q.
  - destruct (nth_error (tasks s) i) as [[| |]|]; try exact H.
    unfold handleCallback_exchanged.
    destruct (exchangeCodeForTokens a); [apply timely_settle, H | exact H].
  - destruct (nth_error (tasks s) i) as [[| |auth]|]; try exact H.
    unfold handleCallback_written.
    destruct wrote as [[err kept]|]; cbn [writeAuth];
      apply timely_settle; destruct (shared s); exact H.
  - apply timely_settle, H.
  - destruct (shared s); exact H.
  - apply timely_fire, H.
  - destruct (shared s), unlinked; exact H.
Qed.

Lemma timely_run events : forall s,
  timely (shared s) -> timely (shared (run events s)).
Proof.
  induction events as [|e events IH]; intros s H; [exact H|].
  apply IH, timely_step, H.
Qed.

(** X23: Only the timer of the pending session can expire it.  In every
    state the module can reach, firing a timer that is not the timer of the
    pending session does nothing; in particular the timer of a session that
    a later start has replaced cannot end the new session.  When the timer
    of the pending session fires, the status becomes error with the timeout
    message, the session and the listener are gone, nothing is answered and
    the credential file is not touched. *)
Theorem only_the_pending_timer_fires (events : list event) :
  let s := run events boot in
  let w := shared s in
  (forall id,
      (forall p, pending w = Some p -> timeout p <> id) -> fire id w = w)
  /\ (forall p i listening listened pk st,
         pending w = Some p ->
         nth_error (tasks s) i = Some (Starting listening) ->
         listening && negb listened = false ->
         let w' := shared (step s (Started i listened pk st)) in
         pending w' = Some (mkPending pk st (fresh w))
         /\ timeout p <> fresh w
         /\ fire (timeout p) w' = w')
  /\ (forall p,
         pending w = Some p ->
         let w' := fire (timeout p) w in
         oauthState w'
         = mkState error_
             (Some (js "OAuth callback timeout - authorization took too long"))
         /\ pending w' = None /\ server w' = false /\ timers w' = []
         /\ disk w' = disk w
         /\ log w' = log w ++ teardown w).
Proof.
  intros s w.
  assert (O : one_timer w) by (apply (run_sound events boot), boot_sound).
  assert (T : timely w).
  { apply (timely_run events boot). intros id I. destruct I. }
  split; [|split].
  - intros id H. unfold fire. unfold one_timer in O. rewrite O.
    destruct (pending w) as [p|] eqn:P; [|reflexivity].
    cbn [existsb]. specialize (H p eq_refl).
    replace (Nat.eqb id (timeout p)) with false; [reflexivity|].
    symmetry. apply Nat.eqb_neq. congruence.
  - intros p i listening listened pk st P N L w'.
    assert (F : timeout p < fresh w).
    { apply T. unfold one_timer in O. rewrite O, P. left. reflexivity. }
    assert (E : w' = startOpenAIAuthorize_record pk st w).
    { subst w'. cbn [step]. fold w. rewrite N, L. reflexivity. }
    destruct (record_spec pk st w) as (_ & R2 & _).
    rewrite <- E in R2. split; [exact R2|]. split; [lia|].
    assert (Tm : timers w' = [fresh w]).
    { rewrite E. unfold one_timer in O.
      destruct w as [sv pd os dk tm fr lg]. cbn in O, P |- *. subst pd tm.
      handlers. cbn. rewrite Nat.eqb_refl. reflexivity. }
    unfold fire. rewrite Tm. cbn [existsb].
    replace (Nat.eqb (timeout p) (fresh w)) with false; [reflexivity|].
    symmetry. apply Nat.eqb_neq. lia.
  - intros p P w'. subst w'. unfold fire. unfold one_timer in O.
    rewrite O, P. cbn [existsb]. rewrite Nat.eqb_refl. cbn [orb].
    destruct w as [sv pd os dk tm fr lg]. cbn in O, P |- *. subst pd tm.
    unfold teardown. destruct sv; handlers; cbn; rewrite ?Nat.eqb_refl; cbn;
      rewrite ?app_nil_r, <- ?app_assoc; repeat split; reflexivity.
Qed.

End Timers.

Lemma callback_ends_the_attempt_witness :
  @handleCallback_whole node expected_redirect (Answer 200 (inr new_tokens))
                        5000 None waiting
  = Cases.logged_in
  /\ pending Cases.logged_in = None /\ server Cases.logged_in = false
  /\ oauthState
       (@handleCallback_whole node expected_redirect (Answer 503 (inl NotAnError))
                              5000 None waiting)
     = mkState error_ (Some (js "Token exchange failed: 503")).
Proof.
  destruct (@callback_ends_the_attempt node expected_redirect
              (Answer 200 (inr new_tokens)) 5000 None waiting) as (H1 & H2 & _).
  split; [vm_compute; reflexivity|]. split; [exact H1|].
  split; [exact H2 | vm_compute; reflexivity].
Defined.

Lemma redirect_decision_table_witness :
  handleCallback Cases.denied waiting
  = (fail (js "The user said no") 400 waiting, None)
  /\ provider_message Cases.denied = js "The user said no"
  /\ provider_message
       (mkQuery None None (Some (js "access_denied")) (Some []))
     = js "access_denied"
  /\ log (fail (js "The user said no") 400 waiting)
     = [ Listen; SetTimeout 0; ClearTimeout 0; Close;
         Respond 400 (HTML_ERROR (js "The user said no")) ].
Proof.
  destruct (redirect_decision_table Cases.denied waiting) as (_ & H2 & _ & H4).
  destruct (redirect_decision_table
              (mkQuery None None (Some (js "access_denied")) (Some [])) waiting)
    as (_ & _ & K3 & _).
  split; [reflexivity|]. split; [|split].
  - exact (H2 _ _ eq_refl eq_refl eq_refl).
  - exact (K3 _ eq_refl eq_refl).
  - apply (H4 (js "The user said no") 400%N).
Defined.

Lemma exchange_failures_witness :
  exchangeCodeForTokens (Answer 403 (inr new_tokens))
  = inl (AnError (js "Token exchange failed: 403"))
  /\ oauthState
       (fst (@handleCallback_exchanged node (NoAnswer NotAnError) 5000 waiting))
     = mkState error_ (Some (js "Token exchange failed"))
  /\ disk (handleCallback_written stored
            (Some (AnError (js "EACCES"), None)) waiting) = None.
Proof.
  destruct (@exchange_failures node 5000 waiting) as (H1 & _ & H3 & H4).
  split; [|split].
  - rewrite H1 by lia. reflexivity.
  - apply (H3 (NoAnswer NotAnError) NotAnError eq_refl).
  - apply (H4 stored (AnError (js "EACCES")) None).
Defined.

Lemma login_then_use_witness :
  disk (@handleCallback_whole node expected_redirect
          (Answer 200 (inr new_tokens)) 5000 None waiting)
  = Some (mkAuth (js "access-2") (js "refresh-2") 65000
                 (Some (JStr (js "acct-2"))))
  /\ getOpenAIAuthStatus Cases.logged_in
     = mkReport success None true (Some (JStr (js "acct-2")))
  /\ @ensureOpenAIAuth node 65000 (NoAnswer NotAnError) 65000 None Cases.logged_in
     = (Cases.logged_in,
        Credential (mkAuth (js "access-2") (js "refresh-2") 65000
                           (Some (JStr (js "acct-2"))))).
Proof.
  destruct (@login_then_use node expected_redirect
              (mkPending pkce0 (js "expected") 0) 200 new_tokens 5000 waiting)
    as (H1 & _ & _ & _ & H5 & _);
    [reflexivity | repeat split | lia |].
  split; [|split].
  - rewrite H1. vm_compute. reflexivity.
  - vm_compute. reflexivity.
  - destruct (H5 eq_refl) as (_ & H6).
    specialize (H6 65000%Z (NoAnswer NotAnError) 65000%Z None).
    vm_compute in H6 |- *. apply H6. discriminate.
Defined.

Lemma ended_attempt_cannot_resume_witness :
  snd (handleCallback expected_redirect Cases.logged_in) = None
  /\ oauthState (fst (handleCallback expected_redirect Cases.logged_in))
     = mkState error_ (Some (js "Invalid state - potential CSRF attack"))
  /\ disk (fst (handleCallback expected_redirect Cases.logged_in))
     = disk Cases.logged_in
  /\ getOpenAIAuthStatus (fst (handleCallback expected_redirect Cases.logged_in))
     = mkReport error_ (Some (js "Invalid state - potential CSRF attack")) true
                (Some (JStr (js "acct-2"))).
Proof.
  destruct (@ended_attempt_cannot_resume node Cases.logged_in) as (_ & _ & _ & H4).
  destruct (H4 eq_refl expected_redirect) as (K1 & _ & _ & K4 & _).
  split; [exact K1|]. split; [reflexivity|]. split; [exact K4 | reflexivity].
Defined.

Lemma redirect_leaves_the_session_pending_witness :
  exists code,
    q_code expected_redirect = Some code
    /\ pending (fst (handleCallback expected_redirect waiting)) = pending waiting
    /\ log (fst (handleCallback expected_redirect
                   (fst (handleCallback expected_redirect waiting))))
       = log waiting ++ [ExchangeCode code pkce0; ExchangeCode code pkce0].
Proof.
  destruct (redirect_leaves_the_session_pending expected_redirect
              (mkPending pkce0 (js "expected") 0) waiting)
    as (code & Q & _ & P & _ & _ & _ & _ & _ & _ & L);
    [reflexivity | repeat split |].
  exists code. split; [exact Q|]. split; [exact P | exact L].
Defined.

Lemma logout_leaves_login_running_witness :
  pending (clearOpenAIAuth true waiting) = pending waiting
  /\ timers (clearOpenAIAuth true waiting) = [0]
  /\ getOpenAIAuthStatus (clearOpenAIAuth true waiting)
     = mkReport idle None false None
  /\ snd (handleCallback expected_redirect (clearOpenAIAuth true waiting))
     = Some (Exchanging (js "c0de") pkce0)
  /\ getOpenAIAuthStatus (clearOpenAIAuth false restarted)
     = mkReport success None true (Some (JStr (js "acct-1"))).
Proof.
  destruct (logout_leaves_login_running true waiting)
    as (H1 & H2 & _ & _ & _ & _ & H7 & _ & H9 & _).
  destruct (logout_leaves_login_running false restarted)
    as (_ & _ & _ & _ & _ & _ & _ & _ & _ & K10).
  split; [exact H1|]. split; [exact H2|]. split; [exact (H9 eq_refl)|].
  split; [rewrite H7; reflexivity|].
  exact (K10 eq_refl stored eq_refl).
Defined.

Lemma listener_is_started_once_witness :
  startOpenAIAuthorize false pkce0 (js "first") initial
  = (mkWorld true None (mkState idle None) None [] 0 [Listen], false)
  /\ startOpenAIAuthorize true pkce1 (js "second")
       (fst (startOpenAIAuthorize false pkce0 (js "first") initial))
     = (mkWorld true (Some (mkPending pkce1 (js "second") 0))
                (mkState pending_ None) None [0] 1 [Listen; SetTimeout 0], true)
  /\ startOAuthServer waiting = (waiting, Starting false).
Proof.
  destruct (listener_is_started_once pkce0 (js "first") waiting) as (H1 & _).
  split; [reflexivity|]. split; [reflexivity|].
  apply (H1 eq_refl).
Defined.

Lemma only_the_pending_timer_fires_witness :
  pending (shared (@run node twice boot))
  = Some (mkPending pkce1 (js "second") 1)
  /\ fire 0 (shared (@run node twice boot)) = shared (@run node twice boot)
  /\ oauthState (fire 1 (shared (@run node twice boot)))
     = mkState error_
         (Some (js "OAuth callback timeout - authorization took too long"))
  /\ log (fire 1 (shared (@run node twice boot)))
     = [Listen; SetTimeout 0; ClearTimeout 0; SetTimeout 1; ClearTimeout 1; Close].
Proof.
  destruct (@only_the_pending_timer_fires node twice) as (H1 & _ & H3).
  split; [reflexivity|]. split; [|split].
  - apply H1. intros p [= <-]. discriminate.
  - apply (H3 (mkPending pkce1 (js "second") 1) eq_refl).
  - reflexivity.
Defined.

End SessionFacts.

(** ** The credential accessor and the session *)

Module AccessorFacts.
Import OAuth JsFacts Scenarios OAuthFacts Session.

Section Accessor.
Context {rt : Runtime}.

Lemma updated_is_refreshed auth tokens later :
  mkAuth (access_token tokens) (refresh_token tokens) (expiry later tokens)
         (spread (or_else (extractAccountId tokens) (accountId auth)))
  = refreshed auth tokens later.
Proof.
  unfold refreshed, expiry, spread, or_else.
  destruct (truthy_opt (extractAccountId tokens)) eqn:X; rewrite ?X; reflexivity.
Qed.

(** X24: [ensureOpenAIAuth] touches nothing but the credential file: the
    pending session, its timer, the listener and the status are as before,
    nothing is answered, and the issuer is called at most once.  It returns
    undefined exactly when no usable credential is stored, and then does
    nothing at all; a credential it returns is the one the file holds
    afterwards.  When the write after a refresh fails the call is rejected
    with the error of the write: the new tokens are lost, although the
    issuer has been called, and the file holds what the failed write left. *)
Theorem accessor_leaves_the_session (now later : Z) (a : answer)
    (wrote : option (thrown * option OpenAIAuth)) (w : world) :
  let w' := fst (ensureOpenAIAuth now a later wrote w) in
  let r := snd (ensureOpenAIAuth now a later wrote w) in
  server w' = server w /\ pending w' = pending w
  /\ oauthState w' = oauthState w /\ timers w' = timers w
  /\ (exists effects,
         log w' = log w ++ effects
         /\ List.length (filter network effects) <= 1
         /\ filter is_response effects = [])
  /\ (r = NotConnected <-> readAuth w = None)
  /\ (readAuth w = None -> w' = w)
  /\ (forall u, r = Credential u -> disk w' = Some u)
  /\ (forall auth tokens e kept,
         readAuth w = Some auth -> (expires auth < now)%Z ->
         refreshAccessToken a = inr tokens -> wrote = Some (e, kept) ->
         r = Rejected e /\ disk w' = kept
         /\ log w' = log w ++ [ RefreshToken (refresh auth);
                                WriteFailed (refreshed auth tokens later) ]).
Proof.
  cbn zeta. unfold ensureOpenAIAuth.
  destruct (readAuth w) as [auth|] eqn:R.
  2:{ cbn [fst snd].
      split; [reflexivity|]. split; [reflexivity|]. split; [reflexivity|].
      split; [reflexivity|].
      split; [exists []; rewrite app_nil_r; repeat split; auto|].
      split; [tauto|]. split; [reflexivity|].
      split; [intros u X; discriminate X|].
      intros auth tokens e kept X. discriminate X. }
  pose proof (proj1 (readAuth_spec w auth) R) as (D & _).
  destruct (negb (nonempty (access auth)) || Z.ltb (expires auth) now) eqn:C.
  2:{ cbn [fst snd].
      split; [reflexivity|]. split; [reflexivity|]. split; [reflexivity|].
      split; [reflexivity|].
      split; [exists []; rewrite app_nil_r; repeat split; auto|].
      split; [split; intros X; discriminate X|].
      split; [intros X; discriminate X|].
      split; [intros u [= <-]; exact D|].
      intros auth' tokens e kept [= <-] E. apply Z.ltb_lt in E.
      rewrite E, orb_true_r in C. discriminate C. }
  destruct (refreshAccessToken a) as [e|tokens] eqn:T.
  { cbn [fst snd].
    split; [destruct w; reflexivity|]. split; [destruct w; reflexivity|].
    split; [destruct w; reflexivity|]. split; [destruct w; reflexivity|].
    split; [exists [RefreshToken (refresh auth)]; destruct w; repeat split; auto|].
    split; [split; intros X; discriminate X|].
    split; [intros X; discriminate X|].
    split; [intros u X; discriminate X|].
    intros auth' tokens e' kept _ _ X. discriminate X. }
  rewrite updated_is_refreshed.
  destruct wrote as [[e kept]|]; cbn [writeAuth fst snd].
  - split; [destruct w; reflexivity|]. split; [destruct w; reflexivity|].
    split; [destruct w; reflexivity|]. split; [destruct w; reflexivity|].
    split.
    { exists [RefreshToken (refresh auth);
              WriteFailed (refreshed auth tokens later)].
      destruct w; cbn; rewrite <- app_assoc; repeat split; auto. }
    split; [split; intros X; discriminate X|].
    split; [intros X; discriminate X|].
    split; [intros u X; discriminate X|].
    intros auth' tokens' e' kept' [= <-] _ [= <-] [= <- <-].
    destruct w; cbn; rewrite <- app_assoc; repeat split; reflexivity.
  - split; [destruct w; reflexivity|]. split; [destruct w; reflexivity|].
    split; [destruct w; reflexivity|]. split; [destruct w; reflexivity|].
    split.
    { exists [RefreshToken (refresh auth);
              WriteAuth (refreshed auth tokens later)].
      destruct w; cbn; rewrite <- app_assoc; repeat split; auto. }
    split; [split; intros X; discriminate X|].
    split; [intros X; discriminate X|].
    split; [intros u [= <-]; destruct w; reflexivity|].
    intros auth' tokens' e' kept' _ _ _ X. discriminate X.
Qed.

End Accessor.

Lemma accessor_leaves_the_session_witness :
  (let '(w', r) :=
     @ensureOpenAIAuth node 5000 (Answer 200 (inr new_tokens)) 5001
       (Some (AnError (js "ENOSPC"), None)) restarted in
   r = Rejected (AnError (js "ENOSPC"))
   /\ disk w' = None
   /\ log w' = [ RefreshToken (js "refresh-1");
                 WriteFailed (mkAuth (js "access-2") (js "refresh-2") 65001
                                     (Some (JStr (js "acct-2")))) ])
  /\ @ensureOpenAIAuth node 5000 (Answer 200 (inr new_tokens)) 5001 None waiting
     = (waiting, NotConnected).
Proof.
  destruct (@accessor_leaves_the_session node 5000 5001
              (Answer 200 (inr new_tokens))
              (Some (AnError (js "ENOSPC"), None)) restarted)
    as (_ & _ & _ & _ & _ & _ & _ & _ & H9).
  destruct (H9 stored new_tokens (AnError (js "ENOSPC")) None
               eq_refl ltac:(reflexivity) eq_refl eq_refl) as (K1 & K2 & K3).
  split; [|reflexivity].
  vm_compute in K1, K2, K3 |- *. auto.
Defined.

End AccessorFacts.

(** ** The listener *)

Module ListenerFacts.
Import OAuth JsFacts Scenarios OAuthFacts Session SessionFacts Listener.

Section Serve.
Context {rt : Runtime}.




End Serve.


End ListenerFacts.
